(** * weighted-graph-demo: the [WeightedGraph] class of [src/main.js]

    A shallow embedding of the final revision of the class (the second
    definition in [src/main.js]): the store operations, the two Dijkstra
    queries and the JSON codec, followed by the properties of the
    specification that were checked against it. *)

From Stdlib Require Import List String ZArith Lia Bool Arith Sorted.
Import ListNotations.

Local Open Scope string_scope.
Local Open Scope list_scope.
Local Open Scope Z_scope.

(** ** JavaScript [Map] and [Set] with insertion order

    A [Map] iterates in insertion order, so it is an association list.
    [set] on a present key keeps the position of the entry, [set] on an
    absent key appends, [delete] removes.  A real [Map] never holds a key
    twice: [Map_ok]. *)

Definition Map (V : Type) : Type := list (string * V).

Definition Map_keys {V} (m : Map V) : list string := map fst m.

Fixpoint Map_get {V} (m : Map V) (k : string) : option V :=
  match m with
  | [] => None
  | (k', v) :: r => if String.eqb k' k then Some v else Map_get r k
  end.

Definition Map_has {V} (m : Map V) (k : string) : bool :=
  match Map_get m k with Some _ => true | None => false end.

Fixpoint Map_set {V} (m : Map V) (k : string) (v : V) : Map V :=
  match m with
  | [] => [(k, v)]
  | (k', v') :: r =>
      if String.eqb k' k then (k', v) :: r else (k', v') :: Map_set r k v
  end.

Definition Map_delete {V} (m : Map V) (k : string) : Map V :=
  filter (fun e => negb (String.eqb (fst e) k)) m.

(** [new Map(entries)] *)
Definition Map_of_entries {V} (es : list (string * V)) : Map V :=
  fold_left (fun m e => Map_set m (fst e) (snd e)) es [].

Definition Map_ok {V} (m : Map V) : Prop := NoDup (Map_keys m).

Definition JSSet : Type := list string.

Definition Set_has (s : JSSet) (k : string) : bool :=
  existsb (String.eqb k) s.

Definition Set_add (s : JSSet) (k : string) : JSSet :=
  if Set_has s k then s else s ++ [k].

Definition Set_delete (s : JSSet) (k : string) : JSSet :=
  filter (fun k' => negb (String.eqb k' k)) s.

(** [new Set(keys)] *)
Definition Set_of_list (l : list string) : JSSet :=
  fold_left Set_add l [].

(** ** The data model *)

(** [NodeMetadata]: an open record; a property may be missing, as in the
    [Partial<NodeMetadata>] that [updateNode] takes. *)
Record NodeMetadata : Type := mkMeta {
  x : option Z;
  y : option Z;
  isReadyForPickup : option bool
}.

(** The truthiness of [metadata.isReadyForPickup]. *)
Definition ready (m : NodeMetadata) : bool :=
  match isReadyForPickup m with Some true => true | _ => false end.

(** Edge weights are numbers; the application computes them with
    [Math.floor], so they are integers here. *)
Record WeightedGraph : Type := mkGraph {
  nodes : Map NodeMetadata;
  edges : Map (Map Z)
}.

(** [new WeightedGraph()] *)
Definition empty_graph : WeightedGraph := mkGraph [] [].

(** ** Completions

    A method call either returns or throws; the store it leaves behind is
    kept in both cases, since a throw does not roll back earlier writes.
    [Diverges] is a loop that used up its fuel and stands for one that does
    not end; [Untyped] is a value that is not of the types of the class
    ([Map<string,NodeMetadata>], [Map<string,Map<string,number>>] with
    finite numbers): a decoded document with other entries, or a weight
    that is [NaN] or infinite, which this model does not follow. *)

Inductive error : Type :=
| TypeError
| SyntaxError
| Error (msg : string).

Inductive completion (A : Type) : Type :=
| Returns (a : A)
| Throws (e : error)
| Diverges
| Untyped.
Arguments Returns {A} a.
Arguments Throws {A} e.
Arguments Diverges {A}.
Arguments Untyped {A}.

Definition M (A : Type) : Type := WeightedGraph -> WeightedGraph * completion A.

Definition ret {A} (a : A) : M A := fun g => (g, Returns a).
Definition throw {A} (e : error) : M A := fun g => (g, Throws e).
Definition untyped {A} : M A := fun g => (g, Untyped).
Definition lift {A} (c : completion A) : M A := fun g => (g, c).

Definition bind {A B} (c : M A) (k : A -> M B) : M B :=
  fun g =>
    match c g with
    | (g', Returns a) => k a g'
    | (g', Throws e) => (g', Throws e)
    | (g', Diverges) => (g', Diverges)
    | (g', Untyped) => (g', Untyped)
    end.

Notation "'do' x <- c ; k" := (bind c (fun x => k))
  (at level 10, x name, c at level 100, k at level 200).
Notation "c ;; k" := (bind c (fun _ => k))
  (at level 100, k at level 200, right associativity).

Definition get_graph : M WeightedGraph := fun g => (g, Returns g).
Definition set_nodes (n : Map NodeMetadata) : M unit :=
  fun g => (mkGraph n (edges g), Returns tt).
Definition set_edges (e : Map (Map Z)) : M unit :=
  fun g => (mkGraph (nodes g) e, Returns tt).

(** [for each] over a snapshot of a list, left to right. *)
Fixpoint forEach {A} (l : list A) (f : A -> M unit) : M unit :=
  match l with
  | [] => ret tt
  | a :: r => f a ;; forEach r f
  end.

(** ** Store *)

(** [#nodeExist(key)] *)
Definition nodeExist (g : WeightedGraph) (key : string) : bool :=
  Map_has (nodes g) key.

(** [addNode(key, metadata)] *)
Definition addNode (key : string) (metadata : NodeMetadata) : M unit :=
  do g <- get_graph;
  set_nodes (Map_set (nodes g) key metadata) ;;
  do g <- get_graph;
  set_edges (Map_set (edges g) key []).

(** [this.edges.get(k).set(n, w)]: a [TypeError] when [k] has no adjacency
    map; the inner map is updated in place. *)
Definition adjacency_set (k n : string) (w : Z) : M unit :=
  do g <- get_graph;
  match Map_get (edges g) k with
  | None => throw TypeError
  | Some m => set_edges (Map_set (edges g) k (Map_set m n w))
  end.

(** [this.edges.get(k).delete(n)] *)
Definition adjacency_delete (k n : string) : M unit :=
  do g <- get_graph;
  match Map_get (edges g) k with
  | None => throw TypeError
  | Some m => set_edges (Map_set (edges g) k (Map_delete m n))
  end.

(** [this.edges.get(k)?.delete(n)] *)
Definition adjacency_delete_opt (k n : string) : M unit :=
  do g <- get_graph;
  match Map_get (edges g) k with
  | None => ret tt
  | Some m => set_edges (Map_set (edges g) k (Map_delete m n))
  end.

(** [addEdge(start, end, weight)] *)
Definition addEdge (start end_ : string) (weight : Z) : M unit :=
  do g <- get_graph;
  if negb (nodeExist g start) || negb (nodeExist g end_) then ret tt
  else
    adjacency_set start end_ weight ;;
    adjacency_set end_ start weight.

(** [deleteEdge(start, end)] *)
Definition deleteEdge (start end_ : string) : M unit :=
  do g <- get_graph;
  if negb (nodeExist g start) || negb (nodeExist g end_) then ret tt
  else
    adjacency_delete start end_ ;;
    adjacency_delete end_ start.

(** [deleteNode(key)].  The callback of [forEach] deletes [key] from the
    neighbours' maps; the only entry of the iterated map it can delete is
    the current one, which does not change what is still visited, so the
    iteration runs over the keys the map had on entry. *)
Definition deleteNode (key : string) : M unit :=
  do g <- get_graph;
  if negb (nodeExist g key) then ret tt
  else
    match Map_get (edges g) key with
    | Some adj =>
        forEach (Map_keys adj) (fun neighbor => adjacency_delete_opt neighbor key) ;;
        do g <- get_graph;
        set_edges (Map_delete (edges g) key)
    | None => ret tt
    end ;;
    do g <- get_graph;
    set_nodes (Map_delete (nodes g) key).

(** [{ ...old, ...metadata }] *)
Definition spread (old : option NodeMetadata) (metadata : NodeMetadata)
  : NodeMetadata :=
  let pick {A} (new : option A) (o : option A) : option A :=
    match new with Some _ => new | None => o end in
  match old with
  | None => metadata
  | Some o =>
      mkMeta (pick (x metadata) (x o)) (pick (y metadata) (y o))
             (pick (isReadyForPickup metadata) (isReadyForPickup o))
  end.

(** [updateNode(key, metadata)]: no existence check, and no adjacency map
    for a key that was absent. *)
Definition updateNode (key : string) (metadata : NodeMetadata) : M unit :=
  do g <- get_graph;
  let old := Map_get (nodes g) key in
  set_nodes (Map_set (nodes g) key (spread old metadata)).

(** ** Pathfinder *)

(** A tentative distance.  Weights are integers, so a finite distance is
    an integer-valued double; a sum can overflow to [Infinity] or to
    [-Infinity]. *)
Inductive num : Type :=
| Fin (z : Z)
| Infinity
| NegInfinity.

(** [a < b] on what [distances.get] gives; [undefined] compares as [NaN],
    so the test is false. *)
Definition js_lt (a b : option num) : bool :=
  match a, b with
  | Some (Fin p), Some (Fin q) => p <? q
  | Some (Fin _), Some Infinity => true
  | Some NegInfinity, Some (Fin _) => true
  | Some NegInfinity, Some Infinity => true
  | _, _ => false
  end.

Definition js_gt (a b : option num) : bool := js_lt b a.

(** The multiple of [2 ^ e] nearest to a non-negative value, ties to the
    even multiple.  The value is [t], or lies strictly between [t] and
    [t + 1] when [sticky] is set. *)
Definition round_to (e : Z) (sticky : bool) (t : Z) : Z :=
  let q := t / 2 ^ e in
  let r := t mod 2 ^ e in
  let half := 2 ^ (e - 1) in
  if (half <? r) || ((r =? half) && (sticky || Z.odd q))
  then (q + 1) * 2 ^ e
  else q * 2 ^ e.

(** The double nearest to an integer: integers below [2 ^ 53] in absolute
    value are doubles; above, a double keeps 53 significant bits, and what
    rounds to [2 ^ 1024] is infinite. *)
Definition round_double (z : Z) : num :=
  let m := Z.abs z in
  let e := Z.log2 m - 52 in
  if e <=? 0 then Fin z
  else
    let m' := round_to e false m in
    if 2 ^ 1024 <=? m' then (if z <? 0 then NegInfinity else Infinity)
    else Fin (Z.sgn z * m').

(** [a + weight] on doubles; [None] stands for [NaN]. *)
Definition js_add (a : option num) (weight : Z) : option num :=
  match a with
  | Some (Fin p) => Some (round_double (p + weight))
  | Some Infinity => Some Infinity
  | Some NegInfinity => Some NegInfinity
  | None => None
  end.

(** The sign of [a - b] as the sort comparator sees it: the difference of
    two infinities of the same sign and anything with [undefined] are
    [NaN], which [sort] reads as 0; the difference of two different doubles
    is not 0. *)
Definition js_sub_sign (a b : option num) : Z :=
  match a, b with
  | Some (Fin p), Some (Fin q) => Z.sgn (p - q)
  | Some (Fin _), Some Infinity => -1
  | Some Infinity, Some (Fin _) => 1
  | Some NegInfinity, Some (Fin _) => -1
  | Some (Fin _), Some NegInfinity => 1
  | Some NegInfinity, Some Infinity => -1
  | Some Infinity, Some NegInfinity => 1
  | _, _ => 0
  end.

(** The locals [unvisited] and [distances] of both queries. *)
Record search : Type := mkSearch {
  unvisited : JSSet;
  distances : Map num
}.

(** [Array.from(unvisited).reduce((minNode, node) => ...)] without an initial
    value: the first element starts as accumulator; [None] on an empty
    array, where [reduce] throws. *)
Definition minNode (d : Map num) (u : JSSet) : option string :=
  match u with
  | [] => None
  | k :: r =>
      Some (fold_left
              (fun minNode node =>
                 if js_lt (Map_get d node) (Map_get d minNode)
                 then node else minNode)
              r k)
  end.

(** The callback of [forEach] in [findClosestNReady]. *)
Definition relax (curNode : string) (s : search) (e : string * Z) : search :=
  let '(neighbor, weight) := e in
  if Set_has (unvisited s) neighbor then
    let newDistance := js_add (Map_get (distances s) curNode) weight in
    if js_gt (Map_get (distances s) neighbor) newDistance then
      match newDistance with
      | Some nd => mkSearch (unvisited s) (Map_set (distances s) neighbor nd)
      | None => s
      end
    else s
  else s.

(** The callback of [forEach] in [findCheapestPath], which also records
    the predecessor. *)
Definition relax_previous (curNode : string) (sp : search * Map string)
  (e : string * Z) : search * Map string :=
  let '(s, previous) := sp in
  let '(neighbor, weight) := e in
  if Set_has (unvisited s) neighbor then
    let newDistance := js_add (Map_get (distances s) curNode) weight in
    if js_gt (Map_get (distances s) neighbor) newDistance then
      match newDistance with
      | Some nd =>
          (mkSearch (unvisited s) (Map_set (distances s) neighbor nd),
           Map_set previous neighbor curNode)
      | None => sp
      end
    else sp
  else sp.

(** The [while (unvisited.size > 0)] loop of [findCheapestPath]. *)
Fixpoint cheapest_loop (g : WeightedGraph) (end_ : string) (fuel : nat)
  (sp : search * Map string) : completion (search * Map string) :=
  match unvisited (fst sp) with
  | [] => Returns sp
  | _ :: _ =>
      match fuel with
      | O => Diverges
      | S fuel' =>
          match minNode (distances (fst sp)) (unvisited (fst sp)) with
          | None => Throws TypeError
          | Some curNode =>
              if String.eqb curNode end_ then Returns sp
              else
                match Map_get (edges g) curNode with
                | None => Throws TypeError
                | Some adj =>
                    let '(s, previous) :=
                      fold_left (relax_previous curNode) adj sp in
                    cheapest_loop g end_ fuel'
                      (mkSearch (Set_delete (unvisited s) curNode)
                                (distances s), previous)
                end
          end
      end
  end.

(** The [while (unvisited.size > 0)] loop of [findClosestNReady]. *)
Fixpoint closest_loop (g : WeightedGraph) (fuel : nat) (s : search)
  : completion search :=
  match unvisited s with
  | [] => Returns s
  | _ :: _ =>
      match fuel with
      | O => Diverges
      | S fuel' =>
          match minNode (distances s) (unvisited s) with
          | None => Throws TypeError
          | Some curNode =>
              match Map_get (edges g) curNode with
              | None => Throws TypeError
              | Some adj =>
                  let s' := fold_left (relax curNode) adj s in
                  closest_loop g fuel'
                    (mkSearch (Set_delete (unvisited s') curNode)
                              (distances s'))
              end
          end
      end
  end.

(** [for (let at = end; at != null; at = previous.get(at)) path.push(at)] *)
Fixpoint walk_back (previous : Map string) (fuel : nat) (at_ : option string)
  (path : list string) : completion (list string) :=
  match at_ with
  | None => Returns path
  | Some a =>
      match fuel with
      | O => Diverges
      | S fuel' => walk_back previous fuel' (Map_get previous a) (path ++ [a])
      end
  end.

(** The locals on entry of the loop: every key unvisited and at
    [Infinity], [start] at 0. *)
Definition initial_search (g : WeightedGraph) (start : string) : search :=
  mkSearch (Set_of_list (Map_keys (nodes g)))
           (Map_set (Map_of_entries (map (fun e => (fst e, Infinity)) (nodes g)))
                    start (Fin 0)).

(** [findCheapestPath(start, end)]; [None] is the [undefined] of the bare
    [return]. *)
Definition findCheapestPath (start end_ : string) : M (option (list string)) :=
  do g <- get_graph;
  if negb (nodeExist g start) || negb (nodeExist g end_) then ret None
  else
    let s0 := initial_search g start in
    do sp <- lift (cheapest_loop g end_ (List.length (unvisited s0)) (s0, []));
    do path <- lift (walk_back (snd sp) (S (List.length (snd sp))) (Some end_) []);
    ret (Some (rev path)).

(** [Array.prototype.sort] is stable and the comparator
    [distances.get(a[0]) - distances.get(b[0])] is a total preorder on keys
    that have a distance, so the result is the stable sort; here by
    insertion. *)
Fixpoint insert_by (d : Map num) (a : string * NodeMetadata)
  (l : list (string * NodeMetadata)) : list (string * NodeMetadata) :=
  match l with
  | [] => [a]
  | b :: r =>
      if js_sub_sign (Map_get d (fst a)) (Map_get d (fst b)) <=? 0
      then a :: b :: r
      else b :: insert_by d a r
  end.

Definition sort_by (d : Map num) (l : list (string * NodeMetadata))
  : list (string * NodeMetadata) :=
  fold_right (insert_by d) [] l.

(** [array.slice(0, n)] for an integer [n]: a negative [n] counts from the
    end. *)
Definition slice0 {A} (n : Z) (l : list A) : list A :=
  if n <? 0 then firstn (Z.to_nat (Z.of_nat (List.length l) + n)) l
  else firstn (Z.to_nat n) l.

(** [findClosestNReady(start, n = 5)] for an integer [n]; [None] is the
    omitted argument. *)
Definition findClosestNReady (start : string) (n : option Z)
  : M (option (list string)) :=
  let n := match n with Some n => n | None => 5 end in
  do g <- get_graph;
  if negb (nodeExist g start) then ret None
  else
    let s0 := initial_search g start in
    do s <- lift (closest_loop g (List.length (unvisited s0)) s0);
    let readyNodes :=
      sort_by (distances s) (filter (fun e => ready (snd e)) (nodes g)) in
    ret (Some (map fst (slice0 n readyNodes))).

(** The graph of the concrete scenario of the specification, built with the
    store operations. *)
Definition meta (px py : Z) (r : bool) : NodeMetadata :=
  mkMeta (Some px) (Some py) (Some r).

Definition run_ops (ops : list (M unit)) (g : WeightedGraph) : WeightedGraph :=
  fold_left (fun g op => fst (op g)) ops g.

Definition scenario : WeightedGraph :=
  run_ops [ addNode "A" (meta 0 0 false);
            addNode "B" (meta 1 0 true);
            addNode "C" (meta 2 0 true);
            addEdge "A" "B" 3;
            addEdge "B" "C" 4;
            addEdge "A" "C" 10 ] empty_graph.

(** ** Codec *)

(** What [JSON.parse] returns. *)
#[local] Set Warnings "-register-all".
Inductive json : Type :=
| JNull
| JBool (b : bool)
| JNum (z : Z)
| JStr (s : string)
| JArr (l : list json)
| JObj (fields : list (string * json)).

(** [JSON.stringify] and [JSON.parse] are built into the platform.  A text
    is given by what [JSON.parse] makes of it: the value it was stringified
    from, or nothing when it is not JSON. *)
Inductive text : Type :=
| Stringified (v : json)
| NotJSON (s : string).

Definition JSON_stringify (v : json) : text := Stringified v.

Definition JSON_parse (str : text) : completion json :=
  match str with
  | Stringified v => Returns v
  | NotJSON _ => Throws SyntaxError
  end.

Definition json_of_metadata (m : NodeMetadata) : json :=
  JObj (match x m with Some z => [("x", JNum z)] | None => [] end
        ++ match y m with Some z => [("y", JNum z)] | None => [] end
        ++ match isReadyForPickup m with
           | Some b => [("isReadyForPickup", JBool b)]
           | None => []
           end).

(** [[key, metadata]] of [this.nodes.entries()] and
    [[key, Array.from(value.entries())]] of [toJSON], as [JSON.stringify]
    sees them. *)
Definition json_of_node (e : string * NodeMetadata) : json :=
  JArr [JStr (fst e); json_of_metadata (snd e)].

Definition json_of_adjacency (e : string * Map Z) : json :=
  JArr [JStr (fst e);
        JArr (map (fun a => JArr [JStr (fst a); JNum (snd a)]) (snd e))].

(** [toJSON()] *)
Definition toJSON : M text :=
  do g <- get_graph;
  let nodes_ := JArr (map json_of_node (nodes g)) in
  let edges_ := JArr (map json_of_adjacency (edges g)) in
  ret (JSON_stringify (JObj [("nodes", nodes_); ("edges", edges_)])).

(** [data.name]: a [TypeError] on [null], [undefined] on a value without
    the property; of a name written twice in the text, [JSON.parse] keeps
    the last. *)
Definition property (data : json) (name : string) : completion (option json) :=
  match data with
  | JNull => Throws TypeError
  | JObj fields => Returns (Map_get (rev fields) name)
  | _ => Returns None
  end.

(** [if (!v || !Array.isArray(v)) throw new Error(msg)]: every array is
    truthy, so the test passes on arrays only. *)
Definition require_array (v : option json) (msg : string)
  : completion (list json) :=
  match v with
  | Some (JArr l) => Returns l
  | _ => Throws (Error msg)
  end.

(** The parameter pattern [[a, b]]: only an iterable can be destructured.
    A string is iterable, but its characters are not of the types of the
    class. *)
Definition destructure (e : json) : completion (option json * option json) :=
  match e with
  | JArr l => Returns (nth_error l 0, nth_error l 1)
  | JStr _ => Untyped
  | _ => Throws TypeError
  end.

Fixpoint metadata_of_fields (fields : list (string * json)) (acc : NodeMetadata)
  : option NodeMetadata :=
  match fields with
  | [] => Some acc
  | (k, v) :: r =>
      if String.eqb k "x" then
        match v with
        | JNum z => metadata_of_fields r (mkMeta (Some z) (y acc) (isReadyForPickup acc))
        | _ => None
        end
      else if String.eqb k "y" then
        match v with
        | JNum z => metadata_of_fields r (mkMeta (x acc) (Some z) (isReadyForPickup acc))
        | _ => None
        end
      else if String.eqb k "isReadyForPickup" then
        match v with
        | JBool b => metadata_of_fields r (mkMeta (x acc) (y acc) (Some b))
        | _ => None
        end
      else None
  end.

(** A node entry of the types of the class: a string key and a metadata
    object. *)
Definition node_entry (kv : option json * option json)
  : completion (string * NodeMetadata) :=
  match kv with
  | (Some (JStr key), Some (JObj fields)) =>
      match metadata_of_fields fields (mkMeta None None None) with
      | Some m => Returns (key, m)
      | None => Untyped
      end
  | _ => Untyped
  end.

(** [new Map(edges)]: [undefined] and [null] give the empty map; every
    entry of an iterable must be an object, else a [TypeError]. *)
Fixpoint adjacency_entries (es : list json) : completion (list (string * Z)) :=
  match es with
  | [] => Returns []
  | JArr (JStr n :: JNum w :: _) :: r =>
      match adjacency_entries r with
      | Returns l => Returns ((n, w) :: l)
      | c => c
      end
  | JArr _ :: _ => Untyped
  | JObj _ :: _ => Untyped
  | _ :: _ => Throws TypeError
  end.

Definition new_Map (edges_ : option json) : completion (Map Z) :=
  match edges_ with
  | None => Returns []
  | Some JNull => Returns []
  | Some (JArr es) =>
      match adjacency_entries es with
      | Returns l => Returns (Map_of_entries l)
      | Throws e => Throws e
      | Diverges => Diverges
      | Untyped => Untyped
      end
  | Some (JStr "") => Returns []
  | Some _ => Throws TypeError
  end.

(** The callback of [data.nodes.forEach]. *)
Definition load_node (e : json) : M unit :=
  do kv <- lift (destructure e);
  do km <- lift (node_entry kv);
  addNode (fst km) (snd km).

(** The callback of [data.edges.forEach]. *)
Definition load_adjacency (e : json) : M unit :=
  do kv <- lift (destructure e);
  match fst kv with
  | Some (JStr key) =>
      do edgeMap <- lift (new_Map (snd kv));
      do g <- get_graph;
      set_edges (Map_set (edges g) key edgeMap)
  | _ => untyped
  end.

(** The body of the [try] block of [fromJSON]. *)
Definition fromJSON_try (str : text) : M unit :=
  do data <- lift (JSON_parse str);
  do nodes_ <- lift (property data "nodes");
  do nodes_ <- lift (require_array nodes_ "invalid nodes data");
  do edges_ <- lift (property data "edges");
  do edges_ <- lift (require_array edges_ "invalid edges data");
  set_nodes [] ;;
  set_edges [] ;;
  forEach nodes_ load_node ;;
  forEach edges_ load_adjacency.

(** [fromJSON(str)]: the [catch] logs the error with [console.error] and the
    method returns normally.  The result is the store, the completion seen
    by the caller and the errors logged. *)
Definition fromJSON (str : text) (g : WeightedGraph)
  : WeightedGraph * completion unit * list error :=
  match fromJSON_try str g with
  | (g', Returns _) => (g', Returns tt, [])
  | (g', Throws e) => (g', Returns tt, [e])
  | (g', Diverges) => (g', Diverges, [])
  | (g', Untyped) => (g', Untyped, [])
  end.

(** ** Observations used in the statements *)

(** [this.edges.get(a)?.get(b)]: the weight of the entry for [b] in the
    adjacency map of [a], if both exist. *)
Definition weight (g : WeightedGraph) (a b : string) : option Z :=
  match Map_get (edges g) a with
  | Some m => Map_get m b
  | None => None
  end.

(** An entry for [b] in the map of [a] iff an entry for [a] in the map of
    [b], with the same weight. *)
Definition symmetric (g : WeightedGraph) : Prop :=
  forall a b, weight g a b = weight g b a.

(** A check of symmetry over the entries that are held. *)
Definition symmetricb (g : WeightedGraph) : bool :=
  forallb (fun e =>
    forallb (fun n =>
      match weight g (fst n) (fst e) with
      | Some w => Z.eqb (snd n) w
      | None => false
      end) (snd e)) (edges g).

(** Every node key has an adjacency map, as [addNode] leaves it. *)
Definition adjacency_total (g : WeightedGraph) : Prop :=
  forall k, nodeExist g k = true -> Map_has (edges g) k = true.

(** The representation invariant of the maps of a graph. *)
Definition Graph_ok (g : WeightedGraph) : Prop :=
  Map_ok (nodes g) /\ Map_ok (edges g) /\
  forall k m, Map_get (edges g) k = Some m -> Map_ok m.

(** The calls of the store, and the states they reach from the empty
    graph. *)
Inductive store_op : Type :=
| OpAddNode (key : string) (metadata : NodeMetadata)
| OpAddEdge (start end_ : string) (w : Z)
| OpDeleteEdge (start end_ : string)
| OpDeleteNode (key : string)
| OpUpdateNode (key : string) (metadata : NodeMetadata).

Definition call (op : store_op) : M unit :=
  match op with
  | OpAddNode k m => addNode k m
  | OpAddEdge a b w => addEdge a b w
  | OpDeleteEdge a b => deleteEdge a b
  | OpDeleteNode k => deleteNode k
  | OpUpdateNode k m => updateNode k m
  end.

Inductive reachable : WeightedGraph -> Prop :=
| reachable_empty : reachable empty_graph
| reachable_call g op : reachable g -> reachable (fst (call op g)).

(** The calls on edges only. *)
Inductive edge_call : Type :=
| CallAddEdge (start end_ : string) (w : Z)
| CallDeleteEdge (start end_ : string).

Definition run_edge_call (c : edge_call) : M unit :=
  match c with
  | CallAddEdge a b w => addEdge a b w
  | CallDeleteEdge a b => deleteEdge a b
  end.

(** What the specification asks of the store after [deleteNode(K)]: no
    adjacency map of a remaining node has an entry for [K], and [K] is no
    longer a node. *)
Definition cascade_deleted (g : WeightedGraph) (K : string) : Prop :=
  (forall a, nodeExist g a = true -> weight g a K = None) /\
  nodeExist g K = false.

(** A graph with a node that has no adjacency map: [updateNode] on an
    absent key sets the metadata only. *)
Definition orphan_graph : WeightedGraph :=
  run_ops [ updateNode "Z" (meta 5 5 false);
            addNode "A" (meta 0 0 false) ] empty_graph.

(** A connected node added again: its own adjacency map is reset, the
    entry in the neighbour's map stays. *)
Definition readded_graph : WeightedGraph :=
  run_ops [ addNode "A" (meta 0 0 false);
            addNode "K" (meta 1 0 false);
            addEdge "A" "K" 1;
            addNode "K" (meta 1 0 true) ] empty_graph.

(** A persisted text with an adjacency map for a key that is not a node,
    and the graph loaded from it. *)
Definition dangling_text : text :=
  Stringified
    (JObj [("nodes", JArr [JArr [JStr "A"; JObj [("x", JNum 0); ("y", JNum 0)]]]);
           ("edges", JArr [JArr [JStr "A"; JArr [JArr [JStr "K"; JNum 1]]];
                           JArr [JStr "K"; JArr [JArr [JStr "A"; JNum 1]]]])]).

Definition dangling_graph : WeightedGraph :=
  fst (fst (fromJSON dangling_text empty_graph)).

(** The texts that the validation of [fromJSON] rejects: not JSON, or a
    document whose top-level [nodes] or [edges] is missing or is not an
    array. *)
Definition is_array_field (data : json) (name : string) : bool :=
  match data with
  | JObj fields =>
      match Map_get (rev fields) name with
      | Some (JArr _) => true
      | _ => false
      end
  | _ => false
  end.

Definition invalid_text (str : text) : Prop :=
  match str with
  | NotJSON _ => True
  | Stringified data =>
      is_array_field data "nodes" = false \/ is_array_field data "edges" = false
  end.

(** The caller of [fromJSON] is given an error. *)
Definition reports_error (r : WeightedGraph * completion unit * list error)
  : Prop :=
  exists e, snd (fst r) = Throws e.

(** A property of the store that a computation keeps. *)
Definition preserves (P : WeightedGraph -> Prop) {A} (c : M A) : Prop :=
  forall g, P g -> P (fst (c g)).

(** ** Paths and their cost *)

(** The graph the queries search: an entry [b -> w] in the adjacency map of
    [a] is a step from [a] to [b] when both are nodes. [walk g s v l c]: the
    keys [l] lead from [s] to [v] along such steps, at total weight [c]. *)
Inductive walk (g : WeightedGraph) (s : string)
  : string -> list string -> Z -> Prop :=
| walk_start : nodeExist g s = true -> walk g s s [s] 0
| walk_step u v l c w :
    walk g s u l c -> nodeExist g v = true -> weight g u v = Some w ->
    walk g s v (l ++ [v]) (c + w).

(** The total edge weight along a sequence of keys; [None] when a key is
    not a node or two consecutive keys have no entry. *)
Fixpoint path_cost (g : WeightedGraph) (l : list string) : option Z :=
  match l with
  | [] => None
  | a :: r =>
      if nodeExist g a then
        match r with
        | [] => Some 0
        | b :: _ =>
            match weight g a b, path_cost g r with
            | Some w, Some c => Some (w + c)
            | _, _ => None
            end
        end
      else None
  end.

(** [l] is a path from [s] to [e] of total weight [c]. *)
Definition is_path (g : WeightedGraph) (s e : string) (l : list string) (c : Z)
  : Prop :=
  hd_error l = Some s /\ last l s = e /\ path_cost g l = Some c.

(** [l] is a path from [s] to [e] whose total weight is the minimum over
    all paths from [s] to [e]. *)
Definition cheapest_path (g : WeightedGraph) (s e : string) (l : list string)
  : Prop :=
  exists c, is_path g s e l c /\
            forall l' c', is_path g s e l' c' -> c <= c'.

Definition reachable_from (g : WeightedGraph) (s e : string) : Prop :=
  exists l c, is_path g s e l c.

(** No entry held for a node has a negative weight. *)
Definition nonnegative (g : WeightedGraph) : Prop :=
  forall a b w, weight g a b = Some w -> 0 <= w.

Definition positive (g : WeightedGraph) : Prop :=
  forall a b w, weight g a b = Some w -> 0 < w.

(** The order of distances. *)
Definition num_le (a b : num) : Prop :=
  match a, b with
  | NegInfinity, _ => True
  | _, NegInfinity => False
  | Fin p, Fin q => p <= q
  | _, Infinity => True
  | Infinity, Fin _ => False
  end.

(** [d] is the single-source shortest-path distance of [v] from [s]:
    the least total weight of a path, [Infinity] when there is none. *)
Definition shortest (g : WeightedGraph) (s v : string) (d : num) : Prop :=
  match d with
  | Fin x => (exists l, is_path g s v l x) /\
             (forall l c, is_path g s v l c -> x <= c)
  | Infinity => forall l c, ~ is_path g s v l c
  | NegInfinity => False
  end.

(** The weights are at most [W], and [W] times the number of nodes is
    below [2 ^ 53]: no sum of weights along a path without repeated nodes
    is rounded. *)
Definition weights_below (g : WeightedGraph) (W : Z) : Prop :=
  0 <= W /\
  (forall a b w, weight g a b = Some w -> w <= W) /\
  W * Z.of_nat (List.length (nodes g)) < 2 ^ 53.

Definition exact_sums (g : WeightedGraph) : Prop :=
  exists W, weights_below g W.

(** A non-negative integer that is a double: above [2 ^ 53] it is a
    multiple of the power of two that leaves 53 significant bits. *)
Definition representable (x : Z) : Prop :=
  0 < Z.log2 x - 52 -> x mod 2 ^ (Z.log2 x - 52) = 0.

(** ** The invariants of the search *)

(** [o] is a finite distance of at most [c]. *)
Definition le_fin (o : option num) (c : Z) : Prop :=
  exists x, o = Some (Fin x) /\ x <= c.

Definition visited (g : WeightedGraph) (s : search) (v : string) : Prop :=
  nodeExist g v = true /\ ~ In v (unvisited s).

Record search_inv (g : WeightedGraph) (W : Z) (start : string) (s : search)
  : Prop := {
  inv_nodup : NoDup (unvisited s);
  inv_nodes : forall v, In v (unvisited s) -> nodeExist g v = true;
  inv_dist : forall v, nodeExist g v = true -> Map_get (distances s) v <> None;
  inv_start : Map_get (distances s) start = Some (Fin 0);
  inv_sound : forall v x, Map_get (distances s) v = Some (Fin x) ->
                exists l, walk g start v l x;
  inv_closed : forall u v w x,
      visited g s u -> nodeExist g v = true -> weight g u v = Some w ->
      Map_get (distances s) u = Some (Fin x) ->
      le_fin (Map_get (distances s) v) (x + w);
  inv_front : forall u v y,
      visited g s u -> In v (unvisited s) ->
      Map_get (distances s) v = Some (Fin y) ->
      le_fin (Map_get (distances s) u) y;
  inv_bound : forall v x, Map_get (distances s) v = Some (Fin x) ->
      x + W * Z.of_nat (List.length (unvisited s))
      <= W * Z.of_nat (List.length (nodes g));
  inv_noneg : forall v, Map_get (distances s) v <> Some NegInfinity
}.

(** The state of the local maps while the neighbours of [c] are relaxed,
    against the state [s0] in which [c] was selected. *)
Record relax_inv (g : WeightedGraph) (W : Z) (start c : string)
  (s0 s : search) (done : list (string * Z)) : Prop := {
  rel_unvisited : unvisited s = unvisited s0;
  rel_cur : Map_get (distances s) c = Map_get (distances s0) c;
  rel_visited : forall v, ~ In v (unvisited s0) ->
                  Map_get (distances s) v = Map_get (distances s0) v;
  rel_defined : forall v, Map_get (distances s0) v <> None ->
                  Map_get (distances s) v <> None;
  rel_decrease : forall v y, Map_get (distances s0) v = Some (Fin y) ->
                   le_fin (Map_get (distances s) v) y;
  rel_sound : forall v x, Map_get (distances s) v = Some (Fin x) ->
                exists l, walk g start v l x;
  rel_done : forall n w x, In (n, w) done -> In n (unvisited s0) ->
               Map_get (distances s0) c = Some (Fin x) ->
               le_fin (Map_get (distances s) n) (x + w);
  rel_front : forall v y, In v (unvisited s0) ->
                Map_get (distances s) v = Some (Fin y) ->
                le_fin (Map_get (distances s0) c) y;
  rel_bound : forall v y, Map_get (distances s) v = Some (Fin y) ->
      y + W * (Z.of_nat (List.length (unvisited s0)) - 1)
      <= W * Z.of_nat (List.length (nodes g));
  rel_noneg : forall v, Map_get (distances s) v <> Some NegInfinity
}.

(** The predecessor chain of [v], listed from its root to [v]. *)
Inductive chain (previous : Map string) : string -> list string -> Prop :=
| chain_root v : Map_get previous v = None -> chain previous v [v]
| chain_step v u l :
    Map_get previous v = Some u -> chain previous u l ->
    chain previous v (l ++ [v]).

(** Every key at a finite distance has a predecessor chain that is a path
    from [start], through keys that are visited or are the key [c] being
    relaxed; [R] relates the distance to the weight of that path (equal
    where no sum is rounded); a key with a predecessor is at a finite
    distance. *)
Record previous_inv (g : WeightedGraph) (R : Z -> Z -> Prop) (start : string)
  (c : option string) (s : search) (previous : Map string) : Prop := {
  prev_chain : forall v x, Map_get (distances s) v = Some (Fin x) ->
      exists l x', chain previous v l /\ walk g start v l x' /\ R x x' /\
        NoDup l /\
        forall u, In u l -> u <> v -> ~ In u (unvisited s) \/ Some u = c;
  prev_finite : forall v u, Map_get previous v = Some u ->
      exists x, Map_get (distances s) v = Some (Fin x)
}.

(** The relation of a search whose sums may be rounded. *)
Definition any_cost (x x' : Z) : Prop := True.

(** What the locals of a search satisfy whatever the weights round to:
    the unvisited keys are nodes, every node has a distance, and a finite
    distance is a non-negative double. *)
Record shape_inv (g : WeightedGraph) (s : search) : Prop := {
  sh_nodes : forall v, In v (unvisited s) -> nodeExist g v = true;
  sh_dist : forall v, nodeExist g v = true -> Map_get (distances s) v <> None;
  sh_fin : forall v x, Map_get (distances s) v = Some (Fin x) ->
             0 <= x /\ representable x;
  sh_noneg : forall v, Map_get (distances s) v <> Some NegInfinity
}.

(** The distance the sort reads for a key. *)
Definition dist_of (d : Map num) (k : string) : num :=
  match Map_get d k with
  | Some v => v
  | None => Infinity
  end.

(** The order the sort puts the entries in. *)
Definition entry_le (d : Map num) (a b : string * NodeMetadata) : Prop :=
  num_le (dist_of d (fst a)) (dist_of d (fst b)).

(** Checks of the sign of the weights over the entries that are held. *)
Definition nonnegativeb (g : WeightedGraph) : bool :=
  forallb (fun e => forallb (fun n => 0 <=? snd n) (snd e)) (edges g).

Definition positiveb (g : WeightedGraph) : bool :=
  forallb (fun e => forallb (fun n => 0 <? snd n) (snd e)) (edges g).

(** A check of [weights_below] over the entries that are held. *)
Definition weights_leb (W : Z) (g : WeightedGraph) : bool :=
  (0 <=? W) &&
  forallb (fun e => forallb (fun n => snd n <=? W) (snd e)) (edges g) &&
  (W * Z.of_nat (List.length (nodes g)) <? 2 ^ 53).

(** A lower bound [d] of the weight of the paths: along every entry, [d]
    grows by at most the weight. *)
Definition potential (d : Map Z) (k : string) : Z :=
  match Map_get d k with
  | Some z => z
  | None => 0
  end.

Definition potentialb (d : Map Z) (g : WeightedGraph) : bool :=
  forallb
    (fun e => forallb
                (fun n => potential d (fst n) <=? potential d (fst e) + snd n)
                (snd e))
    (edges g).

(** Two ready nodes joined by an edge of weight 0; "B" was added before
    "S". *)
Definition tie_graph : WeightedGraph :=
  run_ops [ addNode "B" (meta 1 0 true);
            addNode "S" (meta 0 0 true);
            addEdge "S" "B" 0 ] empty_graph.

(** Two ready nodes "X" and "Y": "Y" is [2 ^ 53] away from "S", and "X",
    which was added first, [2 ^ 53 + 1], a sum that a double does not
    hold. *)
Definition far_graph : WeightedGraph :=
  run_ops [ addNode "S" (meta 0 0 false);
            addNode "M" (meta 1 0 false);
            addNode "X" (meta 2 0 true);
            addNode "Y" (meta 0 1 true);
            addEdge "S" "M" 1;
            addEdge "M" "X" (2 ^ 53);
            addEdge "S" "Y" (2 ^ 53) ] empty_graph.

(** Two ways from "A" to "C": over "B" at [1 + 2 ^ 53], over "D" at
    [2 ^ 52 + 2 ^ 52]. *)
Definition detour_graph : WeightedGraph :=
  run_ops [ addNode "A" (meta 0 0 false);
            addNode "B" (meta 1 0 false);
            addNode "C" (meta 2 0 false);
            addNode "D" (meta 1 1 false);
            addEdge "A" "B" 1;
            addEdge "B" "C" (2 ^ 53);
            addEdge "A" "D" (2 ^ 52);
            addEdge "D" "C" (2 ^ 52) ] empty_graph.

(** Two nodes and no edge. *)
Definition apart_graph : WeightedGraph :=
  run_ops [ addNode "A" (meta 0 0 false);
            addNode "B" (meta 9 9 false) ] empty_graph.

(** Three nodes and no edge; "Z", between "A" and "B" in the node mapping,
    has no adjacency map. *)
Definition island_graph : WeightedGraph :=
  run_ops [ addNode "A" (meta 0 0 false);
            updateNode "Z" (meta 5 5 false);
            addNode "B" (meta 9 9 false) ] empty_graph.

(** No adjacency map holds an entry. *)
Definition no_entries (g : WeightedGraph) : bool :=
  forallb (fun e => match snd e with [] => true | _ :: _ => false end) (edges g).

From Stdlib Require Import Permutation DecimalString.
From Stdlib Require DecimalZ DecimalPos.

(** ** The store under guarded use *)

(** Every entry of an adjacency map is for a key of the node mapping. *)
Definition no_dangling (g : WeightedGraph) : Prop :=
  forall a b w, weight g a b = Some w -> nodeExist g b = true.

(** The shape [addNode] on new keys, [addEdge], [deleteEdge] and
    [deleteNode] keep: proper maps, an adjacency map for each node and for
    nothing else, in the order of the nodes, symmetric entries, and no
    entry for a key that is not a node. *)
Definition well_formed (g : WeightedGraph) : Prop :=
  Graph_ok g /\ Map_keys (edges g) = Map_keys (nodes g) /\
  symmetric g /\ no_dangling g.

(** The use the click and key handlers make of the store: [addNode] only
    for a key that is not a node ([handleMouseClick] tests [g.nodes.has]),
    [updateNode] only for a key that is one. *)
Definition guarded (g : WeightedGraph) (op : store_op) : Prop :=
  match op with
  | OpAddNode key _ => nodeExist g key = false
  | OpUpdateNode key _ => nodeExist g key = true
  | _ => True
  end.

(** The partial metadata [{ isReadyForPickup: !node.isReadyForPickup }] of
    the "k" key. *)
Definition toggled (node : NodeMetadata) : NodeMetadata :=
  mkMeta None None (Some (negb (ready node))).

(** A check of [no_dangling] over the entries that are held. *)
Definition no_danglingb (g : WeightedGraph) : bool :=
  forallb (fun e => forallb (fun n => nodeExist g (fst n)) (snd e)) (edges g).

(** ** The application around the graph *)

(** [Math.floor(Math.sqrt(n))] for a non-negative integer double [n]: the
    root is rounded to the nearest double, ties to even, as the square root
    of IEEE 754 is, and then floored.
    The integer root of [n * 2 ^ 120] gives the root with 60 more bits and
    a sticky bit, enough to round it to 53. *)
Definition sqrt_floor (n : Z) : Z :=
  if n <=? 0 then 0
  else
    let t := Z.sqrt (n * 2 ^ 120) in
    let sticky := negb (t * t =? n * 2 ^ 120) in
    round_to (Z.log2 t - 52) sticky t / 2 ^ 60.

(** [calculateWeight(start, end)] on integer coordinates.  [g.nodes.get]
    gives [undefined] for a key that is not a node, and reading [.x] of it
    throws.  The difference, the squares and their sum are rounded as
    doubles are; a missing coordinate makes the result [NaN] and an
    overflow makes it [Infinity], neither of which is a weight of this
    model ([Untyped]). *)
Definition calculateWeight (start end_ : option NodeMetadata) : completion Z :=
  match start, end_ with
  | Some s, Some e =>
      match x s, x e, y s, y e with
      | Some sx, Some ex, Some sy, Some ey =>
          match round_double (sx - ex), round_double (sy - ey) with
          | Fin dx, Fin dy =>
              let a := Z.abs dx in
              let b := Z.abs dy in
              match round_double (a * a), round_double (b * b) with
              | Fin aa, Fin bb =>
                  match round_double (aa + bb) with
                  | Fin n => Returns (sqrt_floor n)
                  | _ => Untyped
                  end
              | _, _ => Untyped
              end
          | _, _ => Untyped
          end
      | _, _, _, _ => Untyped
      end
  | _, _ => Throws TypeError
  end.

(** The globals the handlers write: the graph [g], [selectedNodes],
    [cheapestPath], [closest], and the item "graph" of [localStorage]. *)
Record App : Type := mkApp {
  graph : WeightedGraph;
  selectedNodes : JSSet;
  cheapestPath : option (list string);
  closest : option (list string);
  localStorage : option text
}.

Definition set_graph (a : App) (g : WeightedGraph) : App :=
  mkApp g (selectedNodes a) (cheapestPath a) (closest a) (localStorage a).

Definition set_selectedNodes (a : App) (s : JSSet) : App :=
  mkApp (graph a) s (cheapestPath a) (closest a) (localStorage a).

(** The template [`${cell.x},${cell.y}`] on a cell of integers. *)
Definition cellKey (cell : Z * Z) : string :=
  NilZero.string_of_int (Z.to_int (fst cell)) ++ ","
  ++ NilZero.string_of_int (Z.to_int (snd cell)).

(** ** [drawGrid]

    [drawGrid] writes no global; the calls on the canvas paint and are left
    out.  What is kept is what can throw: a method call or a property read
    on [undefined]. *)

Definition cbind {A B} (c : completion A) (k : A -> completion B)
  : completion B :=
  match c with
  | Returns v => k v
  | Throws e => Throws e
  | Diverges => Diverges
  | Untyped => Untyped
  end.

(** The callback of [edges.forEach] over the adjacency map of [node]: for
    a pair that is not drawn yet, [cheapestPath.includes(node)] throws when
    [cheapestPath] is [undefined], [curNode.x] and [nnode.x] throw when
    [node] or [neighbor] is not a node. *)
Fixpoint draw_edges_of (a : App) (node : string) (adj : list (string * Z))
  (drawnEdges : JSSet) : completion JSSet :=
  match adj with
  | [] => Returns drawnEdges
  | (neighbor, _) :: r =>
      let edgeKey1 := (node ++ "-" ++ neighbor)%string in
      let edgeKey2 := (neighbor ++ "-" ++ node)%string in
      if negb (Set_has drawnEdges edgeKey1) && negb (Set_has drawnEdges edgeKey2)
      then
        match cheapestPath a with
        | None => Throws TypeError
        | Some _ =>
            match Map_get (nodes (graph a)) node,
                  Map_get (nodes (graph a)) neighbor with
            | Some _, Some _ =>
                draw_edges_of a node r
                  (Set_add (Set_add drawnEdges edgeKey1) edgeKey2)
            | _, _ => Throws TypeError
            end
        end
      else draw_edges_of a node r drawnEdges
  end.

(** [g.edges.forEach((edges, node) => ...)] *)
Fixpoint draw_edges (a : App) (es : list (string * Map Z)) (drawnEdges : JSSet)
  : completion JSSet :=
  match es with
  | [] => Returns drawnEdges
  | (node, adj) :: r =>
      cbind (draw_edges_of a node adj drawnEdges) (draw_edges a r)
  end.

(** [selectedNodes.forEach((key) => ...)]: [node.x] throws when the key is
    not a node. *)
Fixpoint draw_selected (a : App) (keys : list string) : completion unit :=
  match keys with
  | [] => Returns tt
  | key :: r =>
      match Map_get (nodes (graph a)) key with
      | Some _ => draw_selected a r
      | None => Throws TypeError
      end
  end.

(** [g.nodes.forEach((cell, key) => ...)]: for a key that is not selected,
    [cheapestPath.includes(key)] and [closest.includes(key)]. *)
Fixpoint draw_nodes (a : App) (ns : list (string * NodeMetadata))
  : completion unit :=
  match ns with
  | [] => Returns tt
  | (key, _) :: r =>
      if negb (Set_has (selectedNodes a) key) then
        match cheapestPath a, closest a with
        | Some _, Some _ => draw_nodes a r
        | _, _ => Throws TypeError
        end
      else draw_nodes a r
  end.

Definition drawGrid (a : App) : completion unit :=
  cbind (draw_edges a (edges (graph a)) []) (fun _ =>
  cbind (draw_selected a (selectedNodes a)) (fun _ =>
  draw_nodes a (nodes (graph a)))).

(** [handleMouseClick(event)], for the cell [getCellFromMouse] computes
    from the event. *)
Definition handleMouseClick (cell : Z * Z) (a : App) : App * completion unit :=
  let key := cellKey cell in
  let a' :=
    if Map_has (nodes (graph a)) key then
      set_selectedNodes a (Set_add (selectedNodes a) key)
    else
      set_graph (set_selectedNodes a [])
        (fst (addNode key (mkMeta (Some (fst cell)) (Some (snd cell)) (Some false))
                      (graph a))) in
  (a', drawGrid a').

(** A method call on [g] inside a handler: a throw ends the handler with
    the graph as the call left it. *)
Definition on_graph {A} (c : M A) (a : App)
  (k : A -> App -> App * completion unit) : App * completion unit :=
  match c (graph a) with
  | (g', Returns v) => k v (set_graph a g')
  | (g', Throws e) => (set_graph a g', Throws e)
  | (g', Diverges) => (set_graph a g', Diverges)
  | (g', Untyped) => (set_graph a g', Untyped)
  end.

(** [selectedNodes.clear(); drawGrid();] at the end of the key handler. *)
Definition finish (a : App) : App * completion unit :=
  let a' := set_selectedNodes a [] in
  (a', drawGrid a').

(** The callback of [selectedNodes.forEach] of the "d" key, over the keys
    still to visit. *)
Fixpoint delete_selected (ids : list string) (a : App)
  : App * completion unit :=
  match ids with
  | [] => finish a
  | ID :: r =>
      if Map_has (nodes (graph a)) ID then
        on_graph (deleteNode ID) a (fun _ a' =>
          delete_selected r
            (set_selectedNodes a' (Set_delete (selectedNodes a') ID)))
      else delete_selected r a
  end.

(** [handleKeyUpEvent(event)] for [event.key = key].  The cases that
    [alert] return at once and leave the selection as it is. *)
Definition handleKeyUpEvent (key : string) (a : App) : App * completion unit :=
  let selected := selectedNodes a in
  if String.eqb key "X" then
    finish (set_graph a (mkGraph [] []))
  else if String.eqb key "Escape" then
    finish (mkApp (graph a) (selectedNodes a) (Some []) (Some [])
                  (localStorage a))
  else if String.eqb key "d" then
    delete_selected selected a
  else if String.eqb key "D" then
    match selected with
    | [s0; s1] => on_graph (deleteEdge s0 s1) a (fun _ a' => finish a')
    | _ => (a, Returns tt)
    end
  else if String.eqb key "e" then
    match selected with
    | [s0; s1] =>
        let startNode := Map_get (nodes (graph a)) s0 in
        let endNode := Map_get (nodes (graph a)) s1 in
        match calculateWeight startNode endNode with
        | Returns weight_ =>
            on_graph (addEdge s0 s1 weight_) a (fun _ a' => finish a')
        | Throws e => (a, Throws e)
        | Diverges => (a, Diverges)
        | Untyped => (a, Untyped)
        end
    | _ => (a, Returns tt)
    end
  else if String.eqb key "p" then
    match selected with
    | [s0; s1] =>
        on_graph (findCheapestPath s0 s1) a (fun r a' =>
          finish (mkApp (graph a') (selectedNodes a') r (closest a')
                        (localStorage a')))
    | _ => (a, Returns tt)
    end
  else if String.eqb key "c" then
    match selected with
    | [s0] =>
        on_graph (findClosestNReady s0 (Some 3)) a (fun r a' =>
          finish (mkApp (graph a') (selectedNodes a') (cheapestPath a') r
                        (localStorage a')))
    | _ => (a, Returns tt)
    end
  else if String.eqb key "k" then
    match selected with
    | [s0] =>
        match Map_get (nodes (graph a)) s0 with
        | Some node =>
            on_graph (updateNode s0 (toggled node)) a (fun _ a' => finish a')
        | None => (a, Throws TypeError)
        end
    | _ => (a, Returns tt)
    end
  else finish a.

(** [handleSave]: [localStorage.setItem("graph", g.toJSON())]. *)
Definition handleSave (a : App) : App :=
  match toJSON (graph a) with
  | (g', Returns data) =>
      mkApp g' (selectedNodes a) (cheapestPath a) (closest a) (Some data)
  | (g', _) => set_graph a g'
  end.

(** [handleLoad]: the [alert] on a missing item does not return, so
    [g.fromJSON(data)] runs in any case; [JSON.parse(null)] parses the text
    "null". *)
Definition handleLoad (a : App) : App :=
  let data := match localStorage a with
              | Some str => str
              | None => Stringified JNull
              end in
  set_graph a (fst (fst (fromJSON data (graph a)))).

(** What the listeners receive: a click on the canvas, with the cell that
    [getCellFromMouse] computes from it, a key, and the two buttons. *)
Inductive event : Type :=
| Click (cell : Z * Z)
| KeyUp (key : string)
| SaveClick
| LoadClick.

(** The globals after the handler of an event.  A handler that throws
    leaves them as they are at the throw; the one handler that can leave
    the model, "e" between cells so far apart that the weight is no finite
    number, is not followed: the globals stay as they were. *)
Definition dispatch (a : App) (ev : event) : App :=
  match ev with
  | Click cell => fst (handleMouseClick cell a)
  | KeyUp key => fst (handleKeyUpEvent key a)
  | SaveClick => handleSave a
  | LoadClick => handleLoad a
  end.

(** The page when the script has run, with nothing stored. *)
Definition initial_app : App := mkApp empty_graph [] (Some []) (Some []) None.

Definition run_events (evs : list event) (a : App) : App :=
  fold_left dispatch evs a.

(** Every node is the node of a cell: its key is the key of the cell and
    its metadata holds the coordinates of the cell. *)
Definition cell_nodes (g : WeightedGraph) : Prop :=
  forall k m, Map_get (nodes g) k = Some m ->
    exists cell, k = cellKey cell /\
                 x m = Some (fst cell) /\ y m = Some (snd cell).

(** The graphs the handlers build. *)
Definition sound (g : WeightedGraph) : Prop :=
  well_formed g /\ positive g /\ cell_nodes g.

(** The stored item is missing or is the text [handleSave] wrote for a
    sound graph. *)
Definition stored_ok (st : option text) : Prop :=
  match st with
  | None => True
  | Some str => exists g', sound g' /\ toJSON g' = (g', Returns str)
  end.

Definition app_inv (a : App) : Prop :=
  sound (graph a) /\ NoDup (selectedNodes a) /\ stored_ok (localStorage a).

Definition is_save (ev : event) : bool :=
  match ev with SaveClick => true | _ => false end.



(** Every selected key is the key of a node. *)
Definition selection_live (a : App) : Prop :=
  forall k, In k (selectedNodes a) -> nodeExist (graph a) k = true.



(** No character of the string is the separator of a cell key. *)
Fixpoint comma_free (s : string) : bool :=
  match s with
  | EmptyString => true
  | String c r => negb (Ascii.eqb c (Ascii.ascii_of_nat 44)) && comma_free r
  end.



(** ** Lemmas on maps and sets *)

Section MapLemmas.
Context {V : Type}.
Implicit Types (m : Map V) (k : string) (v : V).

Lemma Map_get_set_same m k v : Map_get (Map_set m k v) k = Some v.
Proof.
  induction m as [|[k' v'] r IH]; simpl.
  - now rewrite String.eqb_refl.
  - destruct (String.eqb k' k) eqn:E; simpl; rewrite E; auto.
Qed.

Lemma Map_get_set_other m k k' v :
  k <> k' -> Map_get (Map_set m k v) k' = Map_get m k'.
Proof.
  intros N. induction m as [|[k0 v0] r IH]; simpl.
  - apply String.eqb_neq in N. now rewrite N.
  - destruct (String.eqb k0 k) eqn:E; simpl.
    + apply String.eqb_eq in E. subst k0.
      apply String.eqb_neq in N. now rewrite N.
    + destruct (String.eqb k0 k'); auto.
Qed.

Lemma Map_get_delete_same m k : Map_get (Map_delete m k) k = None.
Proof.
  induction m as [|[k' v'] r IH]; simpl; auto.
  destruct (String.eqb k' k) eqn:E; simpl; auto. now rewrite E.
Qed.

Lemma Map_get_delete_other m k k' :
  k <> k' -> Map_get (Map_delete m k) k' = Map_get m k'.
Proof.
  intros N. induction m as [|[k0 v0] r IH]; simpl; auto.
  destruct (String.eqb k0 k) eqn:E; simpl.
  - apply String.eqb_eq in E. subst k0.
    apply String.eqb_neq in N. now rewrite N.
  - destruct (String.eqb k0 k'); auto.
Qed.

Lemma Map_get_In m k v : Map_get m k = Some v -> In (k, v) m.
Proof.
  induction m as [|[k' v'] r IH]; simpl; [discriminate|].
  destruct (String.eqb k' k) eqn:E; intros H.
  - apply String.eqb_eq in E. inversion H. subst. now left.
  - right. auto.
Qed.

Lemma Map_get_None m k : Map_get m k = None <-> ~ In k (Map_keys m).
Proof.
  induction m as [|[k' v'] r IH]; simpl; [tauto|].
  destruct (String.eqb k' k) eqn:E.
  - apply String.eqb_eq in E. split; [discriminate|]. intros H. destruct H. now left.
  - apply String.eqb_neq in E. rewrite IH. tauto.
Qed.

Lemma Map_has_In m k : Map_has m k = true <-> In k (Map_keys m).
Proof.
  unfold Map_has. destruct (Map_get m k) eqn:E.
  - split; auto. intros _. apply Map_get_In in E.
    apply (in_map fst) in E. exact E.
  - split; [discriminate|]. intros H. now apply Map_get_None in E.
Qed.

Lemma In_Map_get m k v : Map_ok m -> In (k, v) m -> Map_get m k = Some v.
Proof.
  unfold Map_ok. induction m as [|[k' v'] r IH]; simpl; [tauto|].
  intros ND [H|H].
  - inversion H. subst. now rewrite String.eqb_refl.
  - inversion ND as [|? ? NI ND']. subst.
    destruct (String.eqb k' k) eqn:E; auto.
    apply String.eqb_eq in E. subst k'. exfalso. apply NI.
    apply (in_map fst) in H. exact H.
Qed.

Lemma Map_keys_set_has m k v :
  Map_has m k = true -> Map_keys (Map_set m k v) = Map_keys m.
Proof.
  unfold Map_has. induction m as [|[k' v'] r IH]; simpl; [discriminate|].
  destruct (String.eqb k' k) eqn:E; simpl; auto.
  intros H. now rewrite IH.
Qed.

Lemma Map_keys_set_new m k v :
  Map_has m k = false -> Map_keys (Map_set m k v) = Map_keys m ++ [k].
Proof.
  unfold Map_has. induction m as [|[k' v'] r IH]; simpl; auto.
  destruct (String.eqb k' k) eqn:E; simpl; [discriminate|].
  intros H. now rewrite IH.
Qed.

Lemma Map_set_new m k v :
  Map_has m k = false -> Map_set m k v = m ++ [(k, v)].
Proof.
  unfold Map_has. induction m as [|[k' v'] r IH]; simpl; auto.
  destruct (String.eqb k' k) eqn:E; simpl; [discriminate|].
  intros H. now rewrite IH.
Qed.

Lemma Map_ok_set m k v : Map_ok m -> Map_ok (Map_set m k v).
Proof.
  unfold Map_ok. intros H. destruct (Map_has m k) eqn:E.
  - now rewrite Map_keys_set_has.
  - rewrite Map_keys_set_new by exact E.
    apply NoDup_app; [exact H | repeat constructor; simpl; tauto |].
    intros a Ha [<-|[]].
    apply Map_has_In in Ha. congruence.
Qed.

Lemma Map_keys_delete m k :
  Map_keys (Map_delete m k) =
  filter (fun k' => negb (String.eqb k' k)) (Map_keys m).
Proof.
  induction m as [|[k' v'] r IH]; simpl; auto.
  destruct (String.eqb k' k); simpl; now rewrite IH.
Qed.

Lemma Map_ok_delete m k : Map_ok m -> Map_ok (Map_delete m k).
Proof.
  unfold Map_ok. rewrite Map_keys_delete. apply NoDup_filter.
Qed.

Lemma Map_of_entries_ok (es : list (string * V)) :
  NoDup (map fst es) -> Map_of_entries es = es.
Proof.
  unfold Map_of_entries.
  assert (G : forall acc, NoDup (map fst (acc ++ es)) ->
            fold_left (fun m e => Map_set m (fst e) (snd e)) es acc = acc ++ es).
  { induction es as [|[k v] r IH]; intros acc ND; simpl.
    - now rewrite app_nil_r.
    - rewrite Map_set_new.
      + rewrite IH; rewrite <- app_assoc; auto.
      + destruct (Map_has acc k) eqn:E; auto.
        apply Map_has_In in E. rewrite map_app in ND. simpl in ND.
        apply NoDup_remove_2 in ND. exfalso. apply ND.
        apply in_or_app. now left. }
  intros ND. now apply (G []).
Qed.
End MapLemmas.

(** ** Store: the steps of the monad *)

Lemma String_eqb_sym (a b : string) : String.eqb a b = String.eqb b a.
Proof.
  destruct (String.eqb a b) eqn:E.
  - apply String.eqb_eq in E. subst. now rewrite String.eqb_refl.
  - destruct (String.eqb b a) eqn:E'; auto.
    apply String.eqb_eq in E'. subst. now rewrite String.eqb_refl in E.
Qed.

Ltac string_cases :=
  repeat match goal with
  | H : String.eqb _ _ = true |- _ => apply String.eqb_eq in H; subst
  | H : String.eqb _ _ = false |- _ => apply String.eqb_neq in H
  end.

(** The store after [this.edges.get(k).set(n, w)] on an existing map. *)
Lemma adjacency_set_returns g k n w m :
  Map_get (edges g) k = Some m ->
  adjacency_set k n w g =
    (mkGraph (nodes g) (Map_set (edges g) k (Map_set m n w)), Returns tt).
Proof.
  intros H. unfold adjacency_set, bind, get_graph, set_edges. now rewrite H.
Qed.

Lemma adjacency_set_throws g k n w :
  Map_get (edges g) k = None -> adjacency_set k n w g = (g, Throws TypeError).
Proof.
  intros H. unfold adjacency_set, bind, get_graph, throw. now rewrite H.
Qed.

Lemma adjacency_delete_returns g k n m :
  Map_get (edges g) k = Some m ->
  adjacency_delete k n g =
    (mkGraph (nodes g) (Map_set (edges g) k (Map_delete m n)), Returns tt).
Proof.
  intros H. unfold adjacency_delete, bind, get_graph, set_edges. now rewrite H.
Qed.

Lemma adjacency_delete_throws g k n :
  Map_get (edges g) k = None -> adjacency_delete k n g = (g, Throws TypeError).
Proof.
  intros H. unfold adjacency_delete, bind, get_graph, throw. now rewrite H.
Qed.

(** Replacing the adjacency map of [k] changes the weights read at [k]
    only. *)
Lemma weight_replace ns es k m' a b :
  weight (mkGraph ns (Map_set es k m')) a b =
  if String.eqb a k then Map_get m' b else weight (mkGraph ns es) a b.
Proof.
  unfold weight; simpl. destruct (String.eqb a k) eqn:E.
  - string_cases. now rewrite Map_get_set_same.
  - string_cases. rewrite Map_get_set_other; auto.
Qed.

Lemma weight_set g k n w m a b :
  Map_get (edges g) k = Some m ->
  weight (mkGraph (nodes g) (Map_set (edges g) k (Map_set m n w))) a b =
  if String.eqb a k && String.eqb b n then Some w else weight g a b.
Proof.
  intros H. rewrite weight_replace. destruct (String.eqb a k) eqn:E; simpl.
  - string_cases. destruct (String.eqb b n) eqn:E'; string_cases.
    + apply Map_get_set_same.
    + rewrite Map_get_set_other by congruence. unfold weight. now rewrite H.
  - now destruct g.
Qed.

Lemma weight_delete g k n m a b :
  Map_get (edges g) k = Some m ->
  weight (mkGraph (nodes g) (Map_set (edges g) k (Map_delete m n))) a b =
  if String.eqb a k && String.eqb b n then None else weight g a b.
Proof.
  intros H. rewrite weight_replace. destruct (String.eqb a k) eqn:E; simpl.
  - string_cases. destruct (String.eqb b n) eqn:E'; string_cases.
    + apply Map_get_delete_same.
    + rewrite Map_get_delete_other by congruence. unfold weight. now rewrite H.
  - now destruct g.
Qed.

Lemma Map_has_set_keeps {V} (m : Map V) k k' v :
  Map_has m k' = true -> Map_has (Map_set m k v) k' = true.
Proof.
  unfold Map_has. destruct (String.eqb k k') eqn:E; string_cases.
  - now rewrite Map_get_set_same.
  - now rewrite Map_get_set_other.
Qed.

(** [addEdge] on two keys that have adjacency maps. *)
Lemma addEdge_sets_both g start end_ w :
  nodeExist g start = true -> nodeExist g end_ = true ->
  Map_has (edges g) start = true -> Map_has (edges g) end_ = true ->
  exists g', addEdge start end_ w g = (g', Returns tt) /\
    nodes g' = nodes g /\
    (forall k, Map_has (edges g) k = true -> Map_has (edges g') k = true) /\
    forall a b, weight g' a b =
      if (String.eqb a start && String.eqb b end_)
         || (String.eqb a end_ && String.eqb b start)
      then Some w else weight g a b.
Proof.
  intros Hs He As Ae. unfold addEdge, bind at 1, get_graph.
  rewrite Hs, He; simpl.
  unfold Map_has in As, Ae.
  destruct (Map_get (edges g) start) as [ms|] eqn:Es; [|discriminate].
  destruct (Map_get (edges g) end_) as [me|] eqn:Ee; [|discriminate].
  unfold bind. rewrite (adjacency_set_returns _ _ _ _ _ Es).
  set (g1 := mkGraph (nodes g) (Map_set (edges g) start (Map_set ms end_ w))).
  assert (E1 : exists m1, Map_get (edges g1) end_ = Some m1).
  { assert (Map_has (edges g1) end_ = true) as H1.
    { apply Map_has_set_keeps. unfold Map_has. now rewrite Ee. }
    unfold Map_has in H1. destruct (Map_get (edges g1) end_); [eauto|discriminate]. }
  destruct E1 as [m1 E1]. rewrite (adjacency_set_returns _ _ _ _ _ E1).
  eexists. split; [reflexivity|]. split; [reflexivity|]. split.
  - intros k Hk. simpl. now do 2 apply Map_has_set_keeps.
  - intros a b. rewrite (weight_set g1 _ _ _ _ a b E1).
    unfold g1. rewrite (weight_set g _ _ _ _ a b Es).
    destruct (String.eqb a end_ && String.eqb b start);
      destruct (String.eqb a start && String.eqb b end_); reflexivity.
Qed.

(** [deleteEdge] on two keys that have adjacency maps. *)
Lemma deleteEdge_removes_both g start end_ :
  nodeExist g start = true -> nodeExist g end_ = true ->
  Map_has (edges g) start = true -> Map_has (edges g) end_ = true ->
  exists g', deleteEdge start end_ g = (g', Returns tt) /\
    nodes g' = nodes g /\
    (forall k, Map_has (edges g) k = true -> Map_has (edges g') k = true) /\
    forall a b, weight g' a b =
      if (String.eqb a start && String.eqb b end_)
         || (String.eqb a end_ && String.eqb b start)
      then None else weight g a b.
Proof.
  intros Hs He As Ae. unfold deleteEdge, bind at 1, get_graph.
  rewrite Hs, He; simpl.
  unfold Map_has in As, Ae.
  destruct (Map_get (edges g) start) as [ms|] eqn:Es; [|discriminate].
  destruct (Map_get (edges g) end_) as [me|] eqn:Ee; [|discriminate].
  unfold bind. rewrite (adjacency_delete_returns _ _ _ _ Es).
  set (g1 := mkGraph (nodes g) (Map_set (edges g) start (Map_delete ms end_))).
  assert (E1 : exists m1, Map_get (edges g1) end_ = Some m1).
  { assert (Map_has (edges g1) end_ = true) as H1.
    { apply Map_has_set_keeps. unfold Map_has. now rewrite Ee. }
    unfold Map_has in H1. destruct (Map_get (edges g1) end_); [eauto|discriminate]. }
  destruct E1 as [m1 E1]. rewrite (adjacency_delete_returns _ _ _ _ E1).
  eexists. split; [reflexivity|]. split; [reflexivity|]. split.
  - intros k Hk. simpl. now do 2 apply Map_has_set_keeps.
  - intros a b. rewrite (weight_delete g1 _ _ _ a b E1).
    unfold g1. rewrite (weight_delete g _ _ _ a b Es).
    destruct (String.eqb a end_ && String.eqb b start);
      destruct (String.eqb a start && String.eqb b end_); reflexivity.
Qed.

(** Both are no-ops when a key is absent from the node mapping. *)
Lemma addEdge_absent g start end_ w :
  nodeExist g start = false \/ nodeExist g end_ = false ->
  addEdge start end_ w g = (g, Returns tt).
Proof.
  intros H. unfold addEdge, bind, get_graph, ret.
  destruct H as [-> | ->]; simpl; auto. now rewrite orb_true_r.
Qed.

Lemma deleteEdge_absent g start end_ :
  nodeExist g start = false \/ nodeExist g end_ = false ->
  deleteEdge start end_ g = (g, Returns tt).
Proof.
  intros H. unfold deleteEdge, bind, get_graph, ret.
  destruct H as [-> | ->]; simpl; auto. now rewrite orb_true_r.
Qed.

(** ** Store: symmetry under edge calls *)

Lemma edge_call_keeps_symmetry g c :
  adjacency_total g -> symmetric g ->
  let g' := fst (run_edge_call c g) in
  snd (run_edge_call c g) = Returns tt /\
  nodes g' = nodes g /\ adjacency_total g' /\ symmetric g'.
Proof.
  intros T S.
  assert (Sw : forall (g' : WeightedGraph) (a0 b0 : string) (r : option Z),
             nodes g' = nodes g ->
             (forall k, Map_has (edges g) k = true -> Map_has (edges g') k = true) ->
             (forall a b, weight g' a b =
                if (String.eqb a a0 && String.eqb b b0)
                   || (String.eqb a b0 && String.eqb b a0)
                then r else weight g a b) ->
             nodes g' = nodes g /\ adjacency_total g' /\ symmetric g').
  { intros g' a0 b0 r Hn Hk Hw. split; [exact Hn|]. split.
    - intros k Hx. apply Hk, T. unfold nodeExist in *. now rewrite <- Hn.
    - intros a b. rewrite !Hw, (S a b).
      destruct (String.eqb a a0), (String.eqb b b0),
        (String.eqb a b0), (String.eqb b a0); reflexivity. }
  destruct c as [s e w | s e]; simpl.
  - destruct (nodeExist g s) eqn:Hs; [destruct (nodeExist g e) eqn:He|].
    + destruct (addEdge_sets_both g s e w Hs He (T _ Hs) (T _ He))
        as (g' & -> & Hn & Hk & Hw). simpl. split; [reflexivity|]. eapply Sw; eauto.
    + rewrite addEdge_absent by auto. simpl. auto.
    + rewrite addEdge_absent by auto. simpl. auto.
  - destruct (nodeExist g s) eqn:Hs; [destruct (nodeExist g e) eqn:He|].
    + destruct (deleteEdge_removes_both g s e Hs He (T _ Hs) (T _ He))
        as (g' & -> & Hn & Hk & Hw). simpl. split; [reflexivity|]. eapply Sw; eauto.
    + rewrite deleteEdge_absent by auto. simpl. auto.
    + rewrite deleteEdge_absent by auto. simpl. auto.
Qed.

(** Symmetry survives any sequence of [addEdge] and [deleteEdge] calls on
    a graph in which every node has its adjacency map. *)
Lemma edge_calls_keep_symmetry (cs : list edge_call) : forall g,
  adjacency_total g -> symmetric g ->
  let g' := run_ops (map run_edge_call cs) g in
  nodes g' = nodes g /\ adjacency_total g' /\ symmetric g'.
Proof.
  induction cs as [|c cs IH]; intros g T S; simpl; [auto|].
  destruct (edge_call_keeps_symmetry g c T S) as (_ & Hn & T' & S').
  destruct (IH _ T' S') as (Hn' & T'' & S''). unfold run_ops in *.
  split; [congruence | auto].
Qed.

(** ** Store: [deleteNode] *)


Lemma adjacency_delete_opt_spec g n key :
  exists g', adjacency_delete_opt n key g = (g', Returns tt) /\
    nodes g' = nodes g /\
    forall a b, weight g' a b =
      if String.eqb a n && String.eqb b key then None else weight g a b.
Proof.
  unfold adjacency_delete_opt, bind, get_graph, set_edges, ret.
  destruct (Map_get (edges g) n) as [m|] eqn:E.
  - eexists. split; [reflexivity|]. split; [reflexivity|].
    intros a b. now apply weight_delete.
  - exists g. split; [reflexivity|]. split; [reflexivity|].
    intros a b. destruct (String.eqb a n) eqn:Ea; simpl; auto.
    string_cases. destruct (String.eqb b key); auto.
    unfold weight. now rewrite E.
Qed.

Lemma purge_neighbours key (l : list string) : forall g,
  exists g',
    forEach l (fun neighbor => adjacency_delete_opt neighbor key) g
      = (g', Returns tt) /\
    nodes g' = nodes g /\
    forall a b, weight g' a b =
      if existsb (String.eqb a) l && String.eqb b key then None
      else weight g a b.
Proof.
  induction l as [|n l IH]; intros g; simpl.
  - exists g. unfold ret. auto.
  - destruct (adjacency_delete_opt_spec g n key) as (g1 & E1 & N1 & W1).
    destruct (IH g1) as (g2 & E2 & N2 & W2).
    exists g2. unfold bind. rewrite E1, E2. split; [reflexivity|].
    split; [congruence|]. intros a b. rewrite W2, W1.
    destruct (String.eqb a n), (existsb (String.eqb a) l), (String.eqb b key);
      reflexivity.
Qed.

Lemma existsb_eqb_In (a : string) (l : list string) :
  existsb (String.eqb a) l = true <-> In a l.
Proof.
  rewrite existsb_exists. split.
  - intros (b & Hb & E). string_cases. exact Hb.
  - intros H. exists a. split; auto. apply String.eqb_refl.
Qed.

Lemma nodeExist_delete ns es key :
  nodeExist (mkGraph (Map_delete ns key) es) key = false.
Proof.
  unfold nodeExist, Map_has; simpl. now rewrite Map_get_delete_same.
Qed.

(** [deleteNode] returns, removes the key, and removes it from the map of
    every neighbour listed in the key's own adjacency map. *)
Lemma deleteNode_spec g key :
  exists g', deleteNode key g = (g', Returns tt) /\
    (nodeExist g key = false -> g' = g) /\
    nodeExist g' key = false /\
    (nodeExist g key = true -> forall a,
       weight g' a key =
         match Map_get (edges g) key with
         | Some adj =>
             if String.eqb a key || existsb (String.eqb a) (Map_keys adj)
             then None else weight g a key
         | None => weight g a key
         end).
Proof.
  unfold deleteNode, bind at 1, get_graph.
  destruct (nodeExist g key) eqn:Hx; simpl.
  - destruct (Map_get (edges g) key) as [adj|] eqn:Ea.
    + destruct (purge_neighbours key (Map_keys adj) g) as (g1 & E1 & N1 & W1).
      unfold bind, get_graph, set_edges, set_nodes. rewrite E1. simpl.
      eexists. split; [reflexivity|]. split; [discriminate|]. split.
      * apply nodeExist_delete.
      * intros _ a. unfold weight at 1; simpl.
        destruct (String.eqb a key) eqn:Ek; simpl.
        -- string_cases. now rewrite Map_get_delete_same.
        -- string_cases. rewrite Map_get_delete_other by congruence.
           specialize (W1 a key). unfold weight at 1 in W1. rewrite W1.
           now rewrite String.eqb_refl, andb_true_r.
    + unfold bind, get_graph, set_nodes, ret. simpl.
      eexists. split; [reflexivity|]. split; [discriminate|]. split.
      * apply nodeExist_delete.
      * intros _ a. reflexivity.
  - exists g. unfold ret. repeat split; auto. discriminate.
Qed.

(** ** Store: the properties of the specification *)

Lemma symmetricb_sound g : symmetricb g = true -> symmetric g.
Proof.
  unfold symmetricb. rewrite forallb_forall. intros H.
  assert (F : forall a b w, weight g a b = Some w -> weight g b a = Some w).
  { intros a b w Hw. unfold weight in Hw.
    destruct (Map_get (edges g) a) as [m|] eqn:Ea; [|discriminate].
    apply Map_get_In in Ea. apply Map_get_In in Hw.
    specialize (H _ Ea). simpl in H. rewrite forallb_forall in H.
    specialize (H _ Hw). simpl in H.
    destruct (weight g b a); [|discriminate].
    apply Z.eqb_eq in H. now subst. }
  intros a b. destruct (weight g a b) eqn:E1.
  - symmetry. now apply F.
  - destruct (weight g b a) eqn:E2; auto. apply F in E2. congruence.
Qed.

(** C4 (as the code behaves). On a symmetric graph in which a node has no
    adjacency map, [addEdge] writes the entry of the first key and then
    throws a [TypeError] on the second: one call leaves an entry for "Z" in
    the map of "A" and none for "A" at "Z". *)
Theorem addEdge_breaks_symmetry :
  symmetric orphan_graph /\
  snd (addEdge "A" "Z" 5 orphan_graph) = Throws TypeError /\
  ~ symmetric (fst (addEdge "A" "Z" 5 orphan_graph)).
Proof.
  split; [|split].
  - now apply symmetricb_sound.
  - reflexivity.
  - intros S. specialize (S "A" "Z"). vm_compute in S. discriminate.
Qed.

(** C7 (as the code behaves). Both keys exist in the node mapping of
    [orphan_graph], yet [addEdge] does not set the weight in both maps: it
    throws after the entry in the map of "A" is written, and "Z" has no
    entry for "A". *)
Theorem addEdge_throws_without_adjacency_map :
  nodeExist orphan_graph "A" = true /\
  nodeExist orphan_graph "Z" = true /\
  addEdge "A" "Z" 5 orphan_graph =
    (mkGraph (nodes orphan_graph) [("A", [("Z", 5)])], Throws TypeError) /\
  weight (fst (addEdge "A" "Z" 5 orphan_graph)) "Z" "A" = None.
Proof. repeat split; reflexivity. Qed.

(** C9. [addNode] on an existing key returns, replaces the metadata of the
    key in place, leaves the other metadata alone, resets the adjacency map
    of the key to the empty map, and leaves every other adjacency map as it
    was, entries for the key included. *)
Theorem addNode_existing_key g key metadata :
  nodeExist g key = true ->
  let g' := fst (addNode key metadata g) in
  snd (addNode key metadata g) = Returns tt /\
  Map_get (nodes g') key = Some metadata /\
  Map_keys (nodes g') = Map_keys (nodes g) /\
  (forall k, k <> key -> Map_get (nodes g') k = Map_get (nodes g) k) /\
  Map_get (edges g') key = Some [] /\
  (forall a, a <> key -> Map_get (edges g') a = Map_get (edges g) a) /\
  (forall a, a <> key -> weight g' a key = weight g a key).
Proof.
  intros H. simpl. repeat split.
  - apply Map_get_set_same.
  - now apply Map_keys_set_has.
  - intros k N. apply Map_get_set_other. congruence.
  - apply Map_get_set_same.
  - intros a N. apply Map_get_set_other. congruence.
  - intros a N. unfold weight. simpl. rewrite Map_get_set_other by congruence.
    reflexivity.
Qed.

Lemma addNode_existing_key_witness :
  nodeExist readded_graph "K" = true /\
  Map_get (edges (fst (addNode "K" (meta 7 7 true) readded_graph))) "K" = Some [] /\
  weight (fst (addNode "K" (meta 7 7 true) readded_graph)) "A" "K" = Some 1.
Proof.
  assert (H : nodeExist readded_graph "K" = true) by reflexivity.
  pose proof (addNode_existing_key readded_graph "K" (meta 7 7 true) H) as T.
  simpl in T. destruct T as (_ & _ & _ & _ & T1 & _ & T2).
  split; [exact H|]. split; [exact T1|].
  rewrite T2; [reflexivity | discriminate].
Defined.

(** C5 (as stated) fails: after a connected node is added again, or when an
    adjacency map is held for a key that is not a node, [deleteNode] leaves
    an entry for the key in the map of a remaining node. *)
Lemma deleteNode_leaves_entry :
  ~ cascade_deleted (fst (deleteNode "K" readded_graph)) "K" /\
  (symmetric dangling_graph /\
   ~ cascade_deleted (fst (deleteNode "K" dangling_graph)) "K").
Proof.
  split; [|split].
  - intros [H _]. specialize (H "A" eq_refl). vm_compute in H. discriminate.
  - now apply symmetricb_sound.
  - intros [H _]. specialize (H "A" eq_refl). vm_compute in H. discriminate.
Qed.

(** C5 (amended). On a graph with symmetric adjacency in which every key
    that has an adjacency map is a node, [deleteNode K] returns, no
    adjacency map contains an entry for [K] afterwards, and [K] is not a
    node. *)
Theorem deleteNode_cascade g K :
  symmetric g ->
  (forall k, Map_has (edges g) k = true -> nodeExist g k = true) ->
  let g' := fst (deleteNode K g) in
  snd (deleteNode K g) = Returns tt /\
  (forall a, weight g' a K = None) /\
  cascade_deleted g' K.
Proof.
  intros S D.
  destruct (deleteNode_spec g K) as (g' & E & Hno & Hx & Hw).
  rewrite E; simpl.
  assert (W : forall a, weight g' a K = None).
  { intros a. destruct (nodeExist g K) eqn:X.
    - rewrite (Hw eq_refl a).
      destruct (Map_get (edges g) K) as [adj|] eqn:Ea.
      + destruct (String.eqb a K) eqn:Ek; simpl; auto.
        destruct (existsb (String.eqb a) (Map_keys adj)) eqn:Ex; auto.
        rewrite (S a K). unfold weight. rewrite Ea.
        apply Map_get_None. intros I. apply existsb_eqb_In in I. congruence.
      + rewrite (S a K). unfold weight. now rewrite Ea.
    - rewrite (Hno eq_refl). rewrite (S a K). unfold weight.
      destruct (Map_get (edges g) K) eqn:Ea; auto.
      assert (Map_has (edges g) K = true) as Hk by (unfold Map_has; now rewrite Ea).
      apply D in Hk. congruence. }
  split; [reflexivity|]. split; [exact W|]. split; auto.
Qed.

Lemma deleteNode_cascade_witness :
  symmetric scenario /\
  cascade_deleted (fst (deleteNode "B" scenario)) "B".
Proof.
  assert (S : symmetric scenario).
  { now apply symmetricb_sound. }
  split; [exact S|].
  apply (deleteNode_cascade scenario "B" S).
  intros k Hk. apply Map_has_In in Hk. apply Map_has_In.
  exact Hk.
Defined.

(** ** Pathfinder: the queries do not write *)

(** C10. Whatever the arguments and however the call completes, the store
    after [findCheapestPath] or [findClosestNReady] is the store before it:
    the node mapping and the adjacency mappings with the same entries in
    the same order. *)
Theorem queries_are_read_only g start end_ n :
  fst (findCheapestPath start end_ g) = g /\
  fst (findClosestNReady start n g) = g.
Proof.
  split.
  - unfold findCheapestPath, bind, get_graph, lift, ret.
    destruct (negb (nodeExist g start) || negb (nodeExist g end_)); auto.
    destruct (cheapest_loop _ _ _ _) as [sp| | |]; auto.
    destruct (walk_back _ _ _ _); auto.
  - unfold findClosestNReady, bind, get_graph, lift, ret.
    destruct (negb (nodeExist g start)); auto.
    destruct (closest_loop _ _ _); auto.
Qed.

(** ** Codec: rejected texts *)

(** C3 (as stated) fails: on a text that is not JSON the populated graph is
    left unchanged, but the caller is not given an error; [fromJSON]
    returns as it does on success and the error goes to the console. *)
Lemma fromJSON_reports_nothing :
  invalid_text (NotJSON "not valid") /\
  fromJSON (NotJSON "not valid") scenario = (scenario, Returns tt, [SyntaxError]) /\
  ~ reports_error (fromJSON (NotJSON "not valid") scenario).
Proof.
  split; [exact I|]. split; [reflexivity|].
  intros [e H]. discriminate H.
Qed.

(** C3 (amended). On a text that is not JSON, or whose top-level [nodes] or
    [edges] is missing or not an array, [fromJSON] leaves the node mapping
    and every adjacency mapping unchanged, logs one error to the console
    and returns normally. *)
Theorem fromJSON_fail_closed g str :
  invalid_text str ->
  exists e, fromJSON str g = (g, Returns tt, [e]).
Proof.
  unfold fromJSON, fromJSON_try, bind, lift.
  destruct str as [data|s]; simpl; [|eauto].
  intros H.
  destruct data; simpl in *; eauto.
  destruct (Map_get (rev fields) "nodes") as [[| | | | l |]|] eqn:En; simpl; eauto.
  destruct (Map_get (rev fields) "edges") as [[| | | | l' |]|] eqn:Ee; simpl; eauto.
  destruct H; discriminate.
Qed.

Lemma fromJSON_fail_closed_witness :
  exists e, fromJSON (Stringified (JObj [("nodes", JArr [])])) scenario
            = (scenario, Returns tt, [e]).
Proof.
  apply (fromJSON_fail_closed scenario (Stringified (JObj [("nodes", JArr [])]))).
  simpl. right. reflexivity.
Defined.

(** ** The representation invariant along the store calls *)

Section Preservation.
Variable P : WeightedGraph -> Prop.

Lemma preserves_bind {A B} (c : M A) (k : A -> M B) :
  preserves P c -> (forall a, preserves P (k a)) -> preserves P (bind c k).
Proof.
  intros Hc Hk g Hg. unfold bind. specialize (Hc g Hg).
  destruct (c g) as [g' [a| | |]]; simpl in *; auto.
  now apply Hk.
Qed.

Lemma preserves_ret {A} (a : A) : preserves P (ret a).
Proof. intros g Hg. exact Hg. Qed.

Lemma preserves_lift {A} (c : completion A) : preserves P (lift c).
Proof. intros g Hg. exact Hg. Qed.

Lemma preserves_read {B} (k : WeightedGraph -> M B) :
  (forall g, P g -> P (fst (k g g))) -> preserves P (bind get_graph k).
Proof. intros H g Hg. unfold bind, get_graph. now apply H. Qed.

Lemma preserves_forEach {A} (l : list A) (f : A -> M unit) :
  (forall a, preserves P (f a)) -> preserves P (forEach l f).
Proof.
  intros Hf. induction l as [|a l IH]; simpl.
  - apply preserves_ret.
  - apply preserves_bind; auto.
Qed.
End Preservation.

Lemma Graph_ok_nodes g ns :
  Graph_ok g -> Map_ok ns -> Graph_ok (mkGraph ns (edges g)).
Proof. intros (A & B & C) H. repeat split; auto. Qed.

Lemma Graph_ok_edges_set g k m :
  Graph_ok g -> Map_ok m -> Graph_ok (mkGraph (nodes g) (Map_set (edges g) k m)).
Proof.
  intros (A & B & C) H. repeat split; simpl; auto.
  - now apply Map_ok_set.
  - intros k' m'. destruct (String.eqb k k') eqn:E; string_cases.
    + rewrite Map_get_set_same. intros [= <-]. exact H.
    + rewrite Map_get_set_other by exact E. apply C.
Qed.

Lemma Graph_ok_edges_delete g k :
  Graph_ok g -> Graph_ok (mkGraph (nodes g) (Map_delete (edges g) k)).
Proof.
  intros (A & B & C). repeat split; simpl; auto.
  - now apply Map_ok_delete.
  - intros k' m'. destruct (String.eqb k k') eqn:E; string_cases.
    + now rewrite Map_get_delete_same.
    + rewrite Map_get_delete_other by exact E. apply C.
Qed.

Lemma Graph_ok_inner g k m : Graph_ok g -> Map_get (edges g) k = Some m -> Map_ok m.
Proof. intros (_ & _ & C). apply C. Qed.

Lemma addNode_ok key metadata : preserves Graph_ok (addNode key metadata).
Proof.
  intros g Hg. simpl.
  apply (Graph_ok_edges_set (mkGraph (Map_set (nodes g) key metadata) (edges g))).
  - apply Graph_ok_nodes; auto. apply Map_ok_set, Hg.
  - constructor.
Qed.

Lemma updateNode_ok key metadata : preserves Graph_ok (updateNode key metadata).
Proof.
  intros g Hg. simpl. apply Graph_ok_nodes; auto. apply Map_ok_set, Hg.
Qed.

Lemma adjacency_set_ok k n w : preserves Graph_ok (adjacency_set k n w).
Proof.
  intros g Hg. destruct (Map_get (edges g) k) as [m|] eqn:E.
  - rewrite (adjacency_set_returns _ _ _ _ _ E). simpl.
    apply Graph_ok_edges_set; auto.
    apply Map_ok_set. eapply Graph_ok_inner; eauto.
  - now rewrite adjacency_set_throws.
Qed.

Lemma adjacency_delete_ok k n : preserves Graph_ok (adjacency_delete k n).
Proof.
  intros g Hg. destruct (Map_get (edges g) k) as [m|] eqn:E.
  - rewrite (adjacency_delete_returns _ _ _ _ E). simpl.
    apply Graph_ok_edges_set; auto.
    apply Map_ok_delete. eapply Graph_ok_inner; eauto.
  - now rewrite adjacency_delete_throws.
Qed.

Lemma adjacency_delete_opt_ok k n : preserves Graph_ok (adjacency_delete_opt k n).
Proof.
  intros g Hg. unfold adjacency_delete_opt, bind, get_graph, set_edges, ret.
  destruct (Map_get (edges g) k) as [m|] eqn:E; simpl; auto.
  apply Graph_ok_edges_set; auto.
  apply Map_ok_delete. eapply Graph_ok_inner; eauto.
Qed.

Lemma addEdge_ok a b w : preserves Graph_ok (addEdge a b w).
Proof.
  unfold addEdge. apply preserves_read. intros g Hg.
  destruct (negb (nodeExist g a) || negb (nodeExist g b)); [exact Hg|].
  revert g Hg. apply preserves_bind; [|intros _]; apply adjacency_set_ok.
Qed.

Lemma deleteEdge_ok a b : preserves Graph_ok (deleteEdge a b).
Proof.
  unfold deleteEdge. apply preserves_read. intros g Hg.
  destruct (negb (nodeExist g a) || negb (nodeExist g b)); [exact Hg|].
  revert g Hg. apply preserves_bind; [|intros _]; apply adjacency_delete_ok.
Qed.

Lemma deleteNode_ok key : preserves Graph_ok (deleteNode key).
Proof.
  unfold deleteNode. apply preserves_read. intros g Hg.
  destruct (negb (nodeExist g key)); [exact Hg|].
  revert g Hg. apply preserves_bind.
  - intros g Hg. destruct (Map_get (edges g) key) as [adj|]; [|exact Hg].
    revert g Hg. apply preserves_bind.
    + apply preserves_forEach. intros n. apply adjacency_delete_opt_ok.
    + intros _. apply preserves_read. intros g Hg. simpl.
      now apply Graph_ok_edges_delete.
  - intros _. apply preserves_read. intros g Hg. simpl.
    apply Graph_ok_nodes; auto. apply Map_ok_delete, Hg.
Qed.

(** Every state the store calls reach is made of proper maps. *)
Lemma reachable_ok g : reachable g -> Graph_ok g.
Proof.
  induction 1 as [|g op _ IH].
  - repeat split; try constructor. intros k m. discriminate.
  - destruct op; simpl.
    + now apply addNode_ok.
    + now apply addEdge_ok.
    + now apply deleteEdge_ok.
    + now apply deleteNode_ok.
    + now apply updateNode_ok.
Qed.

(** ** Codec: the round trip *)

Lemma load_node_round_trip e g :
  load_node (json_of_node e) g =
  (mkGraph (Map_set (nodes g) (fst e) (snd e)) (Map_set (edges g) (fst e) []),
   Returns tt).
Proof.
  destruct e as [k m]. unfold load_node, json_of_node, bind, lift; simpl.
  destruct m as [[px|] [py|] [r|]]; reflexivity.
Qed.

Lemma adjacency_entries_round_trip (l : list (string * Z)) :
  adjacency_entries (map (fun a => JArr [JStr (fst a); JNum (snd a)]) l)
  = Returns l.
Proof.
  induction l as [|[n w] l IH]; simpl; auto. now rewrite IH.
Qed.

Lemma load_adjacency_round_trip e g :
  load_adjacency (json_of_adjacency e) g =
  (mkGraph (nodes g) (Map_set (edges g) (fst e) (Map_of_entries (snd e))),
   Returns tt).
Proof.
  destruct e as [k m]. unfold load_adjacency, json_of_adjacency, bind, lift; simpl.
  now rewrite adjacency_entries_round_trip.
Qed.

Lemma load_nodes_round_trip (l : list (string * NodeMetadata)) : forall g,
  forEach (map json_of_node l) load_node g =
  (fold_left (fun g e => mkGraph (Map_set (nodes g) (fst e) (snd e))
                                 (Map_set (edges g) (fst e) [])) l g,
   Returns tt).
Proof.
  induction l as [|e l IH]; intros g; simpl; auto.
  unfold bind. now rewrite load_node_round_trip, IH.
Qed.

Lemma load_adjacencies_round_trip (l : list (string * Map Z)) : forall g,
  forEach (map json_of_adjacency l) load_adjacency g =
  (fold_left (fun g e => mkGraph (nodes g)
                (Map_set (edges g) (fst e) (Map_of_entries (snd e)))) l g,
   Returns tt).
Proof.
  induction l as [|e l IH]; intros g; simpl; auto.
  unfold bind. now rewrite load_adjacency_round_trip, IH.
Qed.

Lemma Map_get_fold_set {A B} (f : A -> B) (l : list (string * A)) k :
  forall acc, Map_ok l ->
  Map_get (fold_left (fun E e => Map_set E (fst e) (f (snd e))) l acc) k =
  match Map_get l k with
  | Some v => Some (f v)
  | None => Map_get acc k
  end.
Proof.
  induction l as [|[k0 v0] r IH]; intros acc ND; simpl; auto.
  inversion ND as [|? ? NI ND']; subst.
  rewrite IH by exact ND'. destruct (String.eqb k0 k) eqn:E; string_cases.
  - assert (Map_get r k = None) as -> by now apply Map_get_None.
    apply Map_get_set_same.
  - destruct (Map_get r k); auto. now apply Map_get_set_other.
Qed.

Lemma load_nodes_fold (l : list (string * NodeMetadata)) : forall g,
  let g' := fold_left (fun g e => mkGraph (Map_set (nodes g) (fst e) (snd e))
                                          (Map_set (edges g) (fst e) [])) l g in
  nodes g' = fold_left (fun m e => Map_set m (fst e) (snd e)) l (nodes g) /\
  edges g' = fold_left (fun E e => Map_set E (fst e) ((fun _ => []) (snd e))) l
               (edges g).
Proof.
  induction l as [|e l IH]; intros g; simpl; auto.
Qed.

Lemma load_adjacencies_fold (l : list (string * Map Z)) : forall g,
  let g' := fold_left (fun g e => mkGraph (nodes g)
              (Map_set (edges g) (fst e) (Map_of_entries (snd e)))) l g in
  nodes g' = nodes g /\
  edges g' = fold_left (fun E e => Map_set E (fst e) (Map_of_entries (snd e))) l
               (edges g).
Proof.
  induction l as [|e l IH]; intros g; simpl; auto.
  destruct (IH (mkGraph (nodes g)
                  (Map_set (edges g) (fst e) (Map_of_entries (snd e)))))
    as [H1 H2].
  split; [exact H1 | exact H2].
Qed.

(** The store that [fromJSON] builds from the text of [toJSON]. *)
Lemma fromJSON_toJSON g g0 :
  Graph_ok g ->
  exists str g',
    toJSON g = (g, Returns str) /\
    fromJSON str g0 = (g', Returns tt, []) /\
    nodes g' = nodes g /\
    forall k, Map_get (edges g') k =
      match Map_get (edges g) k with
      | Some m => Some m
      | None => if nodeExist g k then Some [] else None
      end.
Proof.
  intros (On & Oe & Oi).
  exists (JSON_stringify
            (JObj [("nodes", JArr (map json_of_node (nodes g)));
                   ("edges", JArr (map json_of_adjacency (edges g)))])).
  eexists. split; [reflexivity|].
  unfold fromJSON, fromJSON_try, bind, lift; simpl.
  rewrite load_nodes_round_trip.
  rewrite load_adjacencies_round_trip.
  split; [reflexivity|].
  match goal with |- context [fold_left ?F (edges g) ?G] =>
    destruct (load_adjacencies_fold (edges g) G) as [N2 E2]
  end.
  match goal with |- context [fold_left ?F (nodes g) ?G] =>
    destruct (load_nodes_fold (nodes g) G) as [N1 E1]
  end.
  cbv zeta in *. rewrite N2, E2.
  rewrite N1, E1. simpl. split.
  - apply (Map_of_entries_ok (nodes g) On).
  - intros k. rewrite (Map_get_fold_set Map_of_entries) by exact Oe.
    unfold Map in *.
    destruct (@Map_get (list (string * Z)) (edges g) k) as [m|] eqn:E.
    + f_equal. apply Map_of_entries_ok. exact (Oi _ _ E).
    + rewrite (Map_get_fold_set (fun _ : NodeMetadata => @nil (string * Z)))
        by exact On.
      unfold nodeExist, Map_has. destruct (Map_get (nodes g) k); reflexivity.
Qed.

Lemma reachable_run (ops : list store_op) : forall g,
  reachable g -> reachable (fold_left (fun g op => fst (call op g)) ops g).
Proof.
  induction ops as [|op ops IH]; intros g R; simpl; auto.
  apply IH. now constructor.
Qed.

(** C2. For a graph state reached through the store calls, with symmetric
    adjacency, [fromJSON] on the text of [toJSON] returns normally with
    nothing logged and leaves a graph with the same node mapping (keys,
    metadata and order), every adjacency map that was held, entry for
    entry, the same weight between every pair of keys in both directions,
    and symmetric adjacency. *)
Theorem fromJSON_toJSON_round_trip g g0 :
  reachable g -> symmetric g ->
  exists str g',
    toJSON g = (g, Returns str) /\
    fromJSON str g0 = (g', Returns tt, []) /\
    nodes g' = nodes g /\
    (forall k m, Map_get (edges g) k = Some m -> Map_get (edges g') k = Some m) /\
    (forall a b, weight g' a b = weight g a b) /\
    symmetric g'.
Proof.
  intros R S. apply reachable_ok in R.
  destruct (fromJSON_toJSON g g0 R) as (str & g' & Ht & Hf & Hn & He).
  exists str, g'. split; [exact Ht|]. split; [exact Hf|]. split; [exact Hn|].
  assert (W : forall a b, weight g' a b = weight g a b).
  { intros a b. unfold weight. rewrite He.
    destruct (Map_get (edges g) a); auto.
    destruct (nodeExist g a); reflexivity. }
  split; [|split; [exact W|]].
  - intros k m E. now rewrite He, E.
  - intros a b. now rewrite !W.
Qed.

Lemma fromJSON_toJSON_round_trip_witness :
  exists str g',
    toJSON scenario = (scenario, Returns str) /\
    fromJSON str orphan_graph = (g', Returns tt, []) /\
    nodes g' = nodes scenario /\
    (forall k m, Map_get (edges scenario) k = Some m ->
                 Map_get (edges g') k = Some m) /\
    (forall a b, weight g' a b = weight scenario a b) /\
    symmetric g'.
Proof.
  apply (fromJSON_toJSON_round_trip scenario orphan_graph).
  - exact (reachable_run
             [ OpAddNode "A" (meta 0 0 false);
               OpAddNode "B" (meta 1 0 true);
               OpAddNode "C" (meta 2 0 true);
               OpAddEdge "A" "B" 3;
               OpAddEdge "B" "C" 4;
               OpAddEdge "A" "C" 10 ] empty_graph reachable_empty).
  - now apply symmetricb_sound.
Defined.

(** ** Pathfinder: sets and the selection of the minimum *)

Lemma Set_has_In (s : JSSet) (k : string) : Set_has s k = true <-> In k s.
Proof. apply existsb_eqb_In. Qed.

Lemma Set_has_not_In (s : JSSet) (k : string) : Set_has s k = false <-> ~ In k s.
Proof.
  rewrite <- Set_has_In. destruct (Set_has s k); split; congruence.
Qed.

Lemma In_Set_delete (s : JSSet) (c v : string) :
  In v (Set_delete s c) <-> In v s /\ v <> c.
Proof.
  unfold Set_delete. rewrite filter_In, negb_true_iff, String.eqb_neq. tauto.
Qed.

Lemma NoDup_Set_delete (s : JSSet) (c : string) :
  NoDup s -> NoDup (Set_delete s c).
Proof. apply NoDup_filter. Qed.

Lemma length_Set_delete (s : JSSet) (c : string) :
  In c s -> (List.length (Set_delete s c) < List.length s)%nat.
Proof.
  unfold Set_delete. induction s as [|a s IH]; simpl; [tauto|].
  intros [->|H].
  - rewrite String.eqb_refl. simpl.
    apply Nat.lt_succ_r, filter_length_le.
  - destruct (String.eqb a c); simpl.
    + apply Nat.lt_succ_r, filter_length_le.
    + apply -> Nat.succ_lt_mono. auto.
Qed.

Lemma Set_add_In (s : JSSet) (k v : string) :
  In v (Set_add s k) <-> In v s \/ v = k.
Proof.
  unfold Set_add. destruct (Set_has s k) eqn:E.
  - apply Set_has_In in E. split; [tauto|]. intros [H| ->]; auto.
  - rewrite in_app_iff. simpl. intuition.
Qed.

Lemma Set_add_NoDup (s : JSSet) (k : string) : NoDup s -> NoDup (Set_add s k).
Proof.
  unfold Set_add. destruct (Set_has s k) eqn:E; auto.
  intros H. apply NoDup_app; auto.
  - repeat constructor. simpl. tauto.
  - intros a Ha [<-|[]]. apply Set_has_not_In in E. tauto.
Qed.

Lemma Set_of_list_spec (l : list string) :
  NoDup (Set_of_list l) /\ forall v, In v (Set_of_list l) <-> In v l.
Proof.
  unfold Set_of_list.
  assert (G : forall acc, NoDup acc ->
            NoDup (fold_left Set_add l acc) /\
            forall v, In v (fold_left Set_add l acc) <-> In v acc \/ In v l).
  { induction l as [|a l IH]; intros acc ND; simpl.
    - split; auto. intros v. tauto.
    - destruct (IH (Set_add acc a) (Set_add_NoDup _ _ ND)) as [H1 H2].
      split; auto. intros v. rewrite H2, Set_add_In. intuition. }
  destruct (G [] (NoDup_nil _)) as [H1 H2]. split; auto.
  intros v. rewrite H2. simpl. tauto.
Qed.

(** ** Pathfinder: sums of doubles *)

Lemma round_double_exact z : Z.abs z < 2 ^ 53 -> round_double z = Fin z.
Proof.
  intros H. unfold round_double.
  assert (L : Z.log2 (Z.abs z) <= 52).
  { destruct (Z.eq_dec (Z.abs z) 0) as [->|N]; [simpl; lia|].
    assert (Z.log2 (Z.abs z) < 53); [|lia].
    apply Z.log2_lt_pow2; lia. }
  destruct (Z.log2 (Z.abs z) - 52 <=? 0) eqn:E; auto.
  apply Z.leb_gt in E. lia.
Qed.

Lemma round_to_cases e b t :
  round_to e b t = (t / 2 ^ e) * 2 ^ e \/
  round_to e b t = (t / 2 ^ e + 1) * 2 ^ e.
Proof. unfold round_to. destruct (_ || _); auto. Qed.

Lemma floor_multiple e t k :
  0 <= e -> k * 2 ^ e <= t -> k * 2 ^ e <= (t / 2 ^ e) * 2 ^ e.
Proof.
  intros He H. assert (P : 0 < 2 ^ e) by (apply Z.pow_pos_nonneg; lia).
  apply Z.mul_le_mono_nonneg_r; [lia|].
  apply Z.div_le_lower_bound; lia.
Qed.

Lemma log2_bounds t : 0 < t -> 2 ^ Z.log2 t <= t < 2 ^ (Z.log2 t + 1).
Proof. intros H. pose proof (Z.log2_spec t H). rewrite <- Z.add_1_r in *. lia. Qed.

Lemma quotient_bounds t :
  0 < Z.log2 t - 52 ->
  2 ^ 52 <= t / 2 ^ (Z.log2 t - 52) < 2 ^ 53.
Proof.
  intros He. assert (Ht : 0 < t).
  { destruct (Z_lt_le_dec 0 t); auto. rewrite Z.log2_nonpos in He; lia. }
  pose proof (log2_bounds t Ht) as [L U].
  set (e := Z.log2 t - 52) in *.
  assert (P : 0 < 2 ^ e) by (apply Z.pow_pos_nonneg; lia).
  assert (E1 : 2 ^ Z.log2 t = 2 ^ 52 * 2 ^ e).
  { rewrite <- Z.pow_add_r by lia. f_equal. lia. }
  assert (E2 : 2 ^ (Z.log2 t + 1) = 2 ^ 53 * 2 ^ e).
  { rewrite <- Z.pow_add_r by lia. f_equal. lia. }
  split.
  - apply Z.div_le_lower_bound; lia.
  - apply Z.div_lt_upper_bound; lia.
Qed.

(** A double below the value is below what the value is rounded to. *)
Lemma round_to_above x t b :
  0 <= x <= t -> representable x -> 0 < Z.log2 t - 52 ->
  x <= round_to (Z.log2 t - 52) b t.
Proof.
  intros [Hx Hxt] Rx He.
  assert (Ht : 0 < t).
  { destruct (Z_lt_le_dec 0 t); auto. rewrite Z.log2_nonpos in He; lia. }
  set (e := Z.log2 t - 52) in *.
  assert (P : 0 < 2 ^ e) by (apply Z.pow_pos_nonneg; lia).
  assert (F : x <= (t / 2 ^ e) * 2 ^ e).
  { destruct (Z_lt_le_dec x (2 ^ Z.log2 t)) as [Lt|Ge].
    - pose proof (log2_bounds t Ht) as [L _].
      assert (E1 : 2 ^ Z.log2 t = 2 ^ 52 * 2 ^ e).
      { rewrite <- Z.pow_add_r by lia. f_equal. lia. }
      pose proof (floor_multiple e t (2 ^ 52)). lia.
    - assert (Hx0 : 0 < x).
      { assert (0 < 2 ^ Z.log2 t) by (apply Z.pow_pos_nonneg; [lia | apply Z.log2_nonneg]). lia. }
      assert (Lx : Z.log2 x = Z.log2 t).
      { apply Z.le_antisymm; [now apply Z.log2_le_mono|].
        apply Z.log2_le_pow2; auto. }
      unfold representable in Rx. rewrite Lx in Rx. fold e in Rx.
      specialize (Rx He).
      pose proof (Z.div_mod x (2 ^ e)) as D.
      assert (Ex : x = (x / 2 ^ e) * 2 ^ e) by lia.
      rewrite Ex at 1. apply floor_multiple; lia. }
  destruct (round_to_cases e b t) as [-> | ->]; lia.
Qed.

Lemma representable_small x : x < 2 ^ 53 -> representable x.
Proof.
  intros H He. exfalso.
  destruct (Z_lt_le_dec 0 x) as [P|N].
  - assert (Z.log2 x < 53) by (apply Z.log2_lt_pow2; lia). lia.
  - rewrite Z.log2_nonpos in He; lia.
Qed.

Lemma round_to_representable t b :
  0 < Z.log2 t - 52 -> representable (round_to (Z.log2 t - 52) b t).
Proof.
  intros He.
  pose proof (quotient_bounds t He) as [Q1 Q2].
  set (e := Z.log2 t - 52) in *.
  assert (P : 0 < 2 ^ e) by (apply Z.pow_pos_nonneg; lia).
  assert (G : forall q, 2 ^ 52 <= q <= 2 ^ 53 -> representable (q * 2 ^ e)).
  { intros q [Hq1 Hq2] H.
    assert (Lq : Z.log2 (q * 2 ^ e) = e + Z.log2 q).
    { apply Z.log2_mul_pow2; lia. }
    assert (L52 : 52 <= Z.log2 q) by (apply Z.log2_le_pow2; lia).
    rewrite Lq.
    replace (e + Z.log2 q - 52) with (e + (Z.log2 q - 52)) by lia.
    rewrite Z.pow_add_r by lia.
    destruct (Z.eq_dec (Z.log2 q) 52) as [E52|N52].
    - rewrite E52. simpl (2 ^ (52 - 52)). rewrite Z.mul_1_r.
      apply Z.mod_mul. lia.
    - assert (q = 2 ^ 53) as ->.
      { assert (Z.log2 q <= 53).
        { assert (Z.log2 q <= Z.log2 (2 ^ 53)) by (apply Z.log2_le_mono; lia).
          rewrite Z.log2_pow2 in *; lia. }
        assert (Z.log2 q = 53) by lia.
        assert (2 ^ 53 <= q); [|lia].
        apply Z.log2_le_pow2; lia. }
      rewrite Z.log2_pow2 by lia. simpl (2 ^ (53 - 52)).
      change (2 ^ 53) with (2 ^ 52 * 2).
      replace (2 ^ 52 * 2 * 2 ^ e) with (2 ^ 52 * (2 ^ e * 2)) by ring.
      apply Z.mod_mul. lia. }
  destruct (round_to_cases e b t) as [-> | ->]; apply G; lia.
Qed.

(** The sum of a non-negative double and a non-negative weight is not
    below the double. *)
Lemma round_double_step x w :
  0 <= x -> representable x -> 0 <= w ->
  round_double (x + w) = Infinity \/
  exists y, round_double (x + w) = Fin y /\ x <= y /\ representable y.
Proof.
  intros Hx Rx Hw. unfold round_double.
  rewrite Z.abs_eq by lia.
  destruct (Z.log2 (x + w) - 52 <=? 0) eqn:E.
  - right. exists (x + w). split; auto. split; [lia|].
    apply Z.leb_le in E. intros H. lia.
  - apply Z.leb_gt in E.
    destruct (2 ^ 1024 <=? _) eqn:O.
    + left. destruct (x + w <? 0) eqn:S; auto. apply Z.ltb_lt in S. lia.
    + right. assert (P : 0 < x + w).
      { destruct (Z_lt_le_dec 0 (x + w)); auto. rewrite Z.log2_nonpos in E; lia. }
      rewrite Z.sgn_pos by lia. rewrite Z.mul_1_l.
      eexists. split; [reflexivity|]. split.
      * apply round_to_above; auto. lia.
      * now apply round_to_representable.
Qed.

Lemma round_double_above x z y :
  0 <= x <= z -> representable x -> round_double z = Fin y -> x <= y.
Proof.
  intros [Hx Hz] Rx. unfold round_double. rewrite Z.abs_eq by lia.
  destruct (Z.log2 z - 52 <=? 0) eqn:E.
  - intros [= <-]. exact Hz.
  - apply Z.leb_gt in E. destruct (2 ^ 1024 <=? _); [destruct (z <? 0); discriminate|].
    intros [= <-].
    assert (P : 0 < z).
    { destruct (Z_lt_le_dec 0 z); auto. rewrite Z.log2_nonpos in E; lia. }
    rewrite Z.sgn_pos by lia. rewrite Z.mul_1_l.
    apply round_to_above; auto.
Qed.

Lemma round_double_nonzero z y : z <> 0 -> round_double z = Fin y -> y <> 0.
Proof.
  intros Hz. unfold round_double.
  destruct (Z.log2 (Z.abs z) - 52 <=? 0) eqn:E.
  - intros [= <-]. exact Hz.
  - apply Z.leb_gt in E. destruct (2 ^ 1024 <=? _); [destruct (z <? 0); discriminate|].
    intros [= <-].
    assert (1 <= round_to (Z.log2 (Z.abs z) - 52) false (Z.abs z)).
    { apply round_to_above; auto; [lia|]. apply representable_small. reflexivity. }
    destruct (Z.sgn_spec z) as [[? ->]|[[? ->]|[? ->]]]; lia.
Qed.

(** ** Pathfinder: the selection of the closest key *)

Lemma js_lt_irrefl a : js_lt a a = false.
Proof. destruct a as [[p| |]|]; simpl; auto. apply Z.ltb_irrefl. Qed.

Lemma js_lt_trans a b c :
  js_lt a b = true -> js_lt b c = true -> js_lt a c = true.
Proof.
  destruct a as [[p| |]|], b as [[q| |]|], c as [[r| |]|]; simpl; try congruence.
  rewrite !Z.ltb_lt. lia.
Qed.

(** If [u] is not below [m], and [n] is below [m], then [u] is not below
    [n] either. *)
Lemma js_lt_keeps_min u m n :
  js_lt u m = false -> js_lt n m = true -> js_lt u n = false.
Proof.
  intros H1 H2. destruct (js_lt u n) eqn:E; auto.
  rewrite (js_lt_trans _ _ _ E H2) in H1. discriminate.
Qed.

(** [minNode] selects a key of the set that no key of the set is below. *)
Lemma minNode_spec (d : Map num) (u : JSSet) c :
  minNode d u = Some c ->
  In c u /\ forall v, In v u -> js_lt (Map_get d v) (Map_get d c) = false.
Proof.
  destruct u as [|k r]; simpl; [discriminate|]. intros [= <-].
  assert (G : forall (l : list string) acc seen,
             In acc seen ->
             (forall v, In v seen -> js_lt (Map_get d v) (Map_get d acc) = false) ->
             let m := fold_left
               (fun minNode node =>
                  if js_lt (Map_get d node) (Map_get d minNode)
                  then node else minNode) l acc in
             In m (seen ++ l) /\
             forall v, In v (seen ++ l) -> js_lt (Map_get d v) (Map_get d m) = false).
  { induction l as [|n l IH]; intros acc seen Ha Hm; simpl.
    - rewrite app_nil_r. auto.
    - replace (seen ++ n :: l) with ((seen ++ [n]) ++ l)
        by (rewrite <- app_assoc; reflexivity).
      destruct (js_lt (Map_get d n) (Map_get d acc)) eqn:E; apply IH.
      + apply in_or_app. right. now left.
      + intros v Hv. apply in_app_or in Hv. destruct Hv as [Hv|[<-|[]]].
        * eapply js_lt_keeps_min; eauto.
        * apply js_lt_irrefl.
      + apply in_or_app. now left.
      + intros v Hv. apply in_app_or in Hv. destruct Hv as [Hv|[<-|[]]]; auto. }
  apply (G r k [k]).
  - now left.
  - intros v [<-|[]]. apply js_lt_irrefl.
Qed.

Lemma minNode_nonempty (d : Map num) (u : JSSet) :
  u <> [] -> exists c, minNode d u = Some c.
Proof. destruct u; [congruence|]. simpl. eauto. Qed.

(** ** Pathfinder: walks and paths *)

Lemma walk_start_node g s v l c : walk g s v l c -> nodeExist g s = true.
Proof. induction 1; auto. Qed.

Lemma walk_end_node g s v l c : walk g s v l c -> nodeExist g v = true.
Proof. induction 1; auto. Qed.

Lemma walk_nonnegative g s v l c : nonnegative g -> walk g s v l c -> 0 <= c.
Proof.
  intros N. induction 1 as [|u v l c w _ IH _ Hw]; [lia|].
  specialize (N _ _ _ Hw). lia.
Qed.

Lemma walk_shape g s v l c :
  walk g s v l c -> hd_error l = Some s /\ exists l', l = l' ++ [v].
Proof.
  induction 1 as [|u v l c w _ [IH _] _ _].
  - split; auto. now exists [].
  - split; [|eauto]. destruct l; [discriminate|]. exact IH.
Qed.

Lemma walk_in g s v l c : walk g s v l c -> In v l /\ In s l.
Proof.
  intros W. destruct (walk_shape _ _ _ _ _ W) as [H [l' ->]].
  split; [apply in_or_app; right; now left|].
  destruct (l' ++ [v]); [discriminate|]. inversion H. now left.
Qed.

Lemma last_default {A} (l : list A) (d d' : A) : l <> [] -> last l d = last l d'.
Proof.
  induction l as [|a [|b l] IH]; intros N; simpl; auto; [congruence|].
  apply IH. discriminate.
Qed.

Lemma path_cost_cons g a b r :
  path_cost g (a :: b :: r) =
  if nodeExist g a then
    match weight g a b, path_cost g (b :: r) with
    | Some w, Some c => Some (w + c)
    | _, _ => None
    end
  else None.
Proof. reflexivity. Qed.

Lemma path_cost_snoc g (l : list string) : forall c u v w d,
  path_cost g l = Some c -> last l d = u ->
  nodeExist g v = true -> weight g u v = Some w ->
  path_cost g (l ++ [v]) = Some (c + w).
Proof.
  induction l as [|a r IH]; intros c u v w d Hc Hl Hv Hw; [discriminate|].
  destruct r as [|b r'].
  - simpl in Hl. subst a. simpl in Hc. simpl.
    destruct (nodeExist g u); [|discriminate].
    inversion Hc; subst. rewrite Hw, Hv. f_equal. lia.
  - change ((a :: b :: r') ++ [v]) with (a :: b :: (r' ++ [v])).
    rewrite path_cost_cons in *.
    destruct (nodeExist g a); [|discriminate].
    destruct (weight g a b) as [w0|]; [|discriminate].
    destruct (path_cost g (b :: r')) as [c0|] eqn:E; [|discriminate].
    inversion Hc; subst.
    change (b :: r' ++ [v]) with ((b :: r') ++ [v]).
    rewrite (IH c0 (last (a :: b :: r') d) v w d eq_refl eq_refl Hv Hw).
    f_equal. lia.
Qed.

Lemma walk_is_path g s v l c : walk g s v l c -> is_path g s v l c.
Proof.
  induction 1 as [Hs|u v l c w W (Hh & Hl & Hc) Hv Hw].
  - repeat split; simpl; auto. now rewrite Hs.
  - repeat split.
    + destruct l; [discriminate|]. exact Hh.
    + apply last_last.
    + eapply path_cost_snoc; eauto.
Qed.

Lemma walk_cons g a b v r c w :
  nodeExist g a = true -> weight g a b = Some w ->
  walk g b v r c -> walk g a v (a :: r) (w + c).
Proof.
  intros Ha Hw. induction 1 as [Hb|u v l c w' W IH Hv Hw'].
  - replace (w + 0) with (0 + w) by lia.
    apply (walk_step g a a b [a] 0 w); auto. now constructor.
  - replace (w + (c + w')) with ((w + c) + w') by lia.
    change (a :: l ++ [v]) with ((a :: l) ++ [v]).
    eapply walk_step; eauto.
Qed.

Lemma is_path_walk g s v l c : is_path g s v l c -> walk g s v l c.
Proof.
  intros (Hh & Hl & Hc). revert s v c Hh Hl Hc.
  induction l as [|a r IH]; intros s v c Hh Hl Hc; [discriminate|].
  simpl in Hh. inversion Hh; subst a. simpl in Hc.
  destruct (nodeExist g s) eqn:Hs; [|discriminate].
  destruct r as [|b r'].
  - simpl in Hl. subst v. inversion Hc; subst. now constructor.
  - destruct (weight g s b) as [w|] eqn:Hw; [|discriminate].
    destruct (path_cost g (b :: r')) as [c0|] eqn:E; [|discriminate].
    inversion Hc; subst. apply (walk_cons g s b); auto.
    apply IH; auto.
    change (last (s :: b :: r') s) with (last (b :: r') s).
    apply last_default. discriminate.
Qed.

(** ** Pathfinder: the invariants of the search *)

Section Search.
Variable g : WeightedGraph.
Variable bound : Z.
Variable start : string.
Hypothesis g_ok : Graph_ok g.
Hypothesis g_nonneg : nonnegative g.
Hypothesis g_below : weights_below g bound.

Lemma le_fin_mono o c c' : le_fin o c -> c <= c' -> le_fin o c'.
Proof. intros (x & H & L) L'. exists x. split; auto. lia. Qed.

(** No path from [start] is cheaper than the tentative distance of its end
    when that is visited, nor than some tentative distance of an unvisited
    key otherwise. *)
Lemma lower_bound s v l c :
  search_inv g bound start s -> walk g start v l c ->
  (~ In v (unvisited s) -> le_fin (Map_get (distances s) v) c) /\
  (In v (unvisited s) ->
   exists u, In u (unvisited s) /\ le_fin (Map_get (distances s) u) c).
Proof.
  intros I. induction 1 as [Hs|u v l c w W [IHv IHu] Hv Hw].
  - split; intros H.
    + exists 0. split; [apply (inv_start _ _ _ _ I) | lia].
    + exists start. split; auto. exists 0. split; [apply (inv_start _ _ _ _ I) | lia].
  - pose proof (g_nonneg _ _ _ Hw) as Pw.
    destruct (in_dec string_dec u (unvisited s)) as [Uu|Vu].
    + destruct (IHu Uu) as (u' & Hu' & Lu').
      split; intros H.
      * destruct Lu' as (x' & Ex' & Lx').
        apply le_fin_mono with x'; [|lia].
        apply (inv_front _ _ _ _ I v u' x'); auto. split; auto.
      * exists u'. split; auto. apply le_fin_mono with c; auto. lia.
    + destruct (IHv Vu) as (x & Ex & Lx).
      assert (L : le_fin (Map_get (distances s) v) (c + w)).
      { apply le_fin_mono with (x + w); [|lia].
        apply (inv_closed _ _ _ _ I u v w x); auto.
        split; auto. eapply walk_end_node; eauto. }
      split; intros H; auto. exists v. auto.
Qed.

(** The selected key is at most every unvisited key. *)
Lemma minNode_front s c :
  search_inv g bound start s -> minNode (distances s) (unvisited s) = Some c ->
  In c (unvisited s) /\
  forall v y, In v (unvisited s) -> Map_get (distances s) v = Some (Fin y) ->
              le_fin (Map_get (distances s) c) y.
Proof.
  intros I Hm. destruct (minNode_spec _ _ _ Hm) as [Hc Hmin]. split; auto.
  intros v y Hv Ey. specialize (Hmin v Hv). rewrite Ey in Hmin.
  pose proof (inv_dist _ _ _ _ I c (inv_nodes _ _ _ _ I c Hc)) as D.
  pose proof (inv_noneg _ _ _ _ I c) as N.
  destruct (Map_get (distances s) c) as [[x| |]|]; simpl in Hmin;
    try congruence.
  exists x. split; auto. apply Z.ltb_ge in Hmin. exact Hmin.
Qed.

Lemma relax_inv_init s c :
  search_inv g bound start s ->
  minNode (distances s) (unvisited s) = Some c ->
  relax_inv g bound start c s s [].
Proof.
  intros I Hm. destruct (minNode_front s c I Hm) as [Hc Hf].
  constructor; auto.
  - intros v y E. exists y. split; auto. lia.
  - apply (inv_sound _ _ _ _ I).
  - intros n w x [].
  - intros v y E. pose proof (inv_bound _ _ _ _ I v y E).
    destruct g_below as (W0 & _). nia.
  - apply (inv_noneg _ _ _ _ I).
Qed.

(** A state that is left as it is when an entry is read. *)
Lemma relax_inv_skip c s0 s done n w :
  relax_inv g bound start c s0 s done ->
  (forall x, In n (unvisited s0) ->
     Map_get (distances s0) c = Some (Fin x) ->
     le_fin (Map_get (distances s) n) (x + w)) ->
  relax_inv g bound start c s0 s ((n, w) :: done).
Proof.
  intros R H. destruct R. constructor; auto.
  intros n' w' x [E|Hin] Hn Hx.
  - inversion E; subst. auto.
  - eauto.
Qed.

Lemma relax_keeps_inv c s0 s done n w :
  search_inv g bound start s0 -> In c (unvisited s0) ->
  weight g c n = Some w ->
  relax_inv g bound start c s0 s done ->
  relax_inv g bound start c s0 (relax c s (n, w)) ((n, w) :: done).
Proof.
  intros I Hc Hw R.
  pose proof (g_nonneg _ _ _ Hw) as Pw.
  destruct g_below as (W0 & Wmax & Wsafe). pose proof (Wmax _ _ _ Hw) as Lw.
  assert (L1 : 1 <= Z.of_nat (List.length (unvisited s0))).
  { destruct (unvisited s0); [destruct Hc | simpl List.length; lia]. }
  unfold relax. rewrite (rel_unvisited _ _ _ _ _ _ _ R).
  destruct (Set_has (unvisited s0) n) eqn:En.
  2:{ apply Set_has_not_In in En. apply relax_inv_skip; auto. tauto. }
  apply Set_has_In in En.
  rewrite (rel_cur _ _ _ _ _ _ _ R).
  assert (Dn : Map_get (distances s) n <> None).
  { apply (rel_defined _ _ _ _ _ _ _ R), (inv_dist _ _ _ _ I),
      (inv_nodes _ _ _ _ I), En. }
  pose proof (rel_noneg _ _ _ _ _ _ _ R n) as Nn.
  pose proof (inv_noneg _ _ _ _ I c) as Ncur.
  destruct (Map_get (distances s0) c) as [[x| |]|] eqn:Ec;
    unfold js_add, js_gt;
    [| replace (js_lt (Some Infinity) (Map_get (distances s) n)) with false
         by (now destruct (Map_get (distances s) n) as [[?| |]|])
     | congruence
     | replace (js_lt None (Map_get (distances s) n)) with false
         by (now destruct (Map_get (distances s) n) as [[?| |]|]) ].
  - (* no sum is rounded below the bound *)
    assert (Px : 0 <= x).
    { destruct (inv_sound _ _ _ _ I c x Ec) as [l Wl].
      eapply walk_nonnegative; eauto. }
    pose proof (inv_bound _ _ _ _ I c x Ec) as Bx.
    assert (Ex : round_double (x + w) = Fin (x + w)).
    { apply round_double_exact. rewrite Z.abs_eq by lia. nia. }
    rewrite Ex.
    destruct (js_lt (Some (Fin (x + w))) (Map_get (distances s) n)) eqn:G.
    + (* the distance of [n] is lowered to [x + w] *)
      assert (Nc : n <> c).
      { intros ->. rewrite (rel_cur _ _ _ _ _ _ _ R), Ec in G. simpl in G.
        apply Z.ltb_lt in G. lia. }
      assert (Low : forall y, le_fin (Map_get (distances s) n) y -> x + w <= y).
      { intros y (y' & Ey & Ly). rewrite Ey in G. simpl in G.
        apply Z.ltb_lt in G. lia. }
      destruct R. constructor; simpl.
      * reflexivity.
      * now rewrite Map_get_set_other.
      * intros v Hv. rewrite Map_get_set_other; auto. congruence.
      * intros v Hv. destruct (string_dec n v) as [<-|N].
        -- rewrite Map_get_set_same. discriminate.
        -- rewrite Map_get_set_other; auto.
      * intros v y Ey. destruct (string_dec n v) as [<-|N].
        -- rewrite Map_get_set_same. exists (x + w). split; auto.
        -- rewrite Map_get_set_other; auto.
      * intros v x'. destruct (string_dec n v) as [<-|N].
        -- rewrite Map_get_set_same. intros [= <-].
           destruct (inv_sound _ _ _ _ I c x Ec) as [l Wl].
           exists (l ++ [n]). eapply walk_step; eauto.
           apply (inv_nodes _ _ _ _ I), En.
        -- rewrite Map_get_set_other; auto.
      * intros n' w' x' Hin Hn' Ex'. assert (x' = x) as -> by congruence.
        destruct (string_dec n n') as [<-|N].
        -- rewrite Map_get_set_same. exists (x + w). split; auto.
           destruct Hin as [E|Hin]; [inversion E; lia|].
           apply Low. eapply rel_done0; eauto.
        -- rewrite Map_get_set_other; auto.
           destruct Hin as [E|Hin]; [inversion E; congruence|].
           eapply rel_done0; eauto.
      * intros v y Hv. destruct (string_dec n v) as [<-|N].
        -- rewrite Map_get_set_same. intros [= <-]. exists x. split; auto. lia.
        -- rewrite Map_get_set_other; auto. intros E.
           exact (rel_front0 v y Hv E).
      * intros v y. destruct (string_dec n v) as [<-|N].
        -- rewrite Map_get_set_same. intros [= <-]. nia.
        -- rewrite Map_get_set_other by exact N. intros E.
           exact (rel_bound0 v y E).
      * intros v. destruct (string_dec n v) as [<-|N].
        -- rewrite Map_get_set_same. discriminate.
        -- rewrite Map_get_set_other by exact N. exact (rel_noneg0 v).
    + apply relax_inv_skip; auto. intros x' _ Ex'.
      assert (x' = x) as -> by congruence.
      destruct (Map_get (distances s) n) as [[y| |]|]; simpl in G; try congruence.
      exists y. split; auto. apply Z.ltb_ge in G. exact G.
  - apply relax_inv_skip; auto. intros x' _ Ex'. congruence.
  - apply relax_inv_skip; auto. intros x' _ Ex'. congruence.
Qed.

Lemma relax_fold_inv c s0 (adj : list (string * Z)) :
  search_inv g bound start s0 -> In c (unvisited s0) ->
  (forall n w, In (n, w) adj -> weight g c n = Some w) ->
  forall done s,
    relax_inv g bound start c s0 s done ->
    relax_inv g bound start c s0 (fold_left (relax c) adj s) (rev adj ++ done).
Proof.
  intros I Hc. induction adj as [|[n w] r IH]; intros Hadj done s R; simpl; auto.
  rewrite <- app_assoc. simpl. apply IH.
  - intros n' w' H. apply Hadj. now right.
  - apply relax_keeps_inv; auto. apply Hadj. now left.
Qed.

Lemma adjacency_entry c adj n w :
  Map_get (edges g) c = Some adj -> In (n, w) adj -> weight g c n = Some w.
Proof.
  intros E H. unfold weight. rewrite E. apply In_Map_get; auto.
  eapply Graph_ok_inner; eauto.
Qed.

(** One turn of the loop of [findClosestNReady] keeps the invariant. *)
Lemma search_step s c adj :
  search_inv g bound start s ->
  minNode (distances s) (unvisited s) = Some c ->
  Map_get (edges g) c = Some adj ->
  let s' := fold_left (relax c) adj s in
  search_inv g bound start
    (mkSearch (Set_delete (unvisited s') c) (distances s')).
Proof.
  intros I Hm Ea s'.
  destruct (minNode_front s c I Hm) as [Hc Hf].
  assert (R : relax_inv g bound start c s s' (rev adj ++ [])).
  { apply relax_fold_inv; auto.
    - intros n w. now apply adjacency_entry.
    - now apply relax_inv_init. }
  pose proof (rel_unvisited _ _ _ _ _ _ _ R) as EU.
  constructor; unfold visited; simpl; rewrite ?EU.
  - apply NoDup_Set_delete, (inv_nodup _ _ _ _ I).
  - intros v Hv. apply In_Set_delete in Hv. apply (inv_nodes _ _ _ _ I), Hv.
  - intros v Hv. apply (rel_defined _ _ _ _ _ _ _ R), (inv_dist _ _ _ _ I), Hv.
  - destruct (rel_decrease _ _ _ _ _ _ _ R start 0 (inv_start _ _ _ _ I))
      as (x & Ex & Lx).
    destruct (rel_sound _ _ _ _ _ _ _ R start x Ex) as [l W].
    pose proof (walk_nonnegative _ _ _ _ _ g_nonneg W).
    rewrite Ex. do 2 f_equal. lia.
  - apply (rel_sound _ _ _ _ _ _ _ R).
  - intros u v w x [Nu Vu] Nv Hw Eu.
    pose proof (g_nonneg _ _ _ Hw) as Pw.
    rewrite In_Set_delete in Vu.
    destruct (string_dec u c) as [->|Nc].
    + rewrite (rel_cur _ _ _ _ _ _ _ R) in Eu.
      destruct (in_dec string_dec v (unvisited s)) as [Uv|Vv].
      * apply (rel_done _ _ _ _ _ _ _ R v w x); auto.
        apply in_or_app. left. apply -> in_rev.
        unfold weight in Hw. rewrite Ea in Hw. now apply Map_get_In.
      * rewrite (rel_visited _ _ _ _ _ _ _ R v Vv).
        apply le_fin_mono with x; [|lia].
        apply (inv_front _ _ _ _ I v c x); auto. split; auto.
    + assert (Vu' : ~ In u (unvisited s)) by tauto.
      rewrite (rel_visited _ _ _ _ _ _ _ R u Vu') in Eu.
      destruct (inv_closed _ _ _ _ I u v w x) as (y & Ey & Ly); auto.
      { split; auto. }
      apply le_fin_mono with y; auto.
      apply (rel_decrease _ _ _ _ _ _ _ R v y Ey).
  - intros u v y [Nu Vu] Hv Ev.
    rewrite In_Set_delete in Vu, Hv. destruct Hv as [Hv Nvc].
    destruct (rel_front _ _ _ _ _ _ _ R v y Hv Ev) as (x & Ex & Lx).
    destruct (string_dec u c) as [->|Nc].
    + rewrite (rel_cur _ _ _ _ _ _ _ R). exists x. auto.
    + assert (Vu' : ~ In u (unvisited s)) by tauto.
      rewrite (rel_visited _ _ _ _ _ _ _ R u Vu').
      apply le_fin_mono with x; auto.
      apply (inv_front _ _ _ _ I u c x); auto. split; auto.
  - intros v x Ev. pose proof (rel_bound _ _ _ _ _ _ _ R v x Ev) as Bv.
    pose proof (length_Set_delete _ _ Hc) as Ld.
    destruct g_below as (W0 & _). nia.
  - apply (rel_noneg _ _ _ _ _ _ _ R).
Qed.

Lemma Map_get_all_Infinity {V} (l : Map V) v :
  Map_get (map (fun e => (fst e, Infinity)) l) v =
  if Map_has l v then Some Infinity else None.
Proof.
  unfold Map_has. induction l as [|[k m] r IH]; simpl; auto.
  destruct (String.eqb k v); auto.
Qed.

(** The locals on entry satisfy the invariant. *)
Lemma initial_search_inv :
  nodeExist g start = true -> search_inv g bound start (initial_search g start).
Proof.
  intros Hs. destruct g_ok as (On & _ & _).
  destruct (Set_of_list_spec (Map_keys (nodes g))) as [ND HIn].
  assert (E : Map_of_entries (map (fun e => (fst e, Infinity)) (nodes g))
              = map (fun e => (fst e, Infinity)) (nodes g)).
  { apply Map_of_entries_ok. rewrite map_map. exact On. }
  assert (All : forall v, nodeExist g v = true ->
                  In v (unvisited (initial_search g start))).
  { intros v Hv. apply HIn. now apply Map_has_In. }
  constructor; unfold visited; simpl; rewrite ?E.
  - exact ND.
  - intros v Hv. apply HIn in Hv. now apply Map_has_In.
  - intros v Hv. destruct (string_dec start v) as [<-|N].
    + rewrite Map_get_set_same. discriminate.
    + rewrite Map_get_set_other by exact N. rewrite Map_get_all_Infinity.
      unfold nodeExist in Hv. rewrite Hv. discriminate.
  - apply Map_get_set_same.
  - intros v x. destruct (string_dec start v) as [<-|N].
    + rewrite Map_get_set_same. intros [= <-]. exists [start]. now constructor.
    + rewrite Map_get_set_other by exact N. rewrite Map_get_all_Infinity.
      destruct (Map_has (nodes g) v); discriminate.
  - intros u v w x [Nu Vu]. exfalso. apply Vu, All, Nu.
  - intros u v y [Nu Vu]. exfalso. apply Vu, All, Nu.
  - intros v x. destruct g_below as (W0 & _).
    assert (Ln : (List.length (Set_of_list (Map_keys (nodes g)))
                  <= List.length (nodes g))%nat).
    { rewrite <- (length_map fst (nodes g)).
      apply NoDup_incl_length; [exact ND|]. intros k Hk. now apply HIn. }
    destruct (string_dec start v) as [<-|N].
    + rewrite Map_get_set_same. intros [= <-]. nia.
    + rewrite Map_get_set_other by exact N. rewrite Map_get_all_Infinity.
      destruct (Map_has (nodes g) v); discriminate.
  - intros v. destruct (string_dec start v) as [<-|N].
    + rewrite Map_get_set_same. discriminate.
    + rewrite Map_get_set_other by exact N. rewrite Map_get_all_Infinity.
      destruct (Map_has (nodes g) v); discriminate.
Qed.

(** The tentative distance of a visited key is its shortest-path
    distance. *)
Lemma visited_distance s v :
  search_inv g bound start s -> visited g s v ->
  exists d, Map_get (distances s) v = Some d /\ shortest g start v d.
Proof.
  intros I [Nv Vv].
  pose proof (inv_dist _ _ _ _ I v Nv) as D.
  assert (LB : forall l c, is_path g start v l c ->
                 le_fin (Map_get (distances s) v) c).
  { intros l c P. apply is_path_walk in P.
    now apply (lower_bound s v l c I P). }
  pose proof (inv_noneg _ _ _ _ I v) as Nn.
  destruct (Map_get (distances s) v) as [[x| |]|] eqn:E;
    [| |congruence|congruence].
  - exists (Fin x). split; auto. split.
    + destruct (inv_sound _ _ _ _ I v x E) as [l W].
      exists l. now apply walk_is_path.
    + intros l c P. destruct (LB l c P) as (x' & Ex' & Lx'). congruence.
  - exists Infinity. split; auto. intros l c P.
    destruct (LB l c P) as (x' & Ex' & Lx'). congruence.
Qed.

Hypothesis g_total : adjacency_total g.

(** The loop of [findClosestNReady] ends: it returns with every key
    visited. *)
Lemma closest_loop_returns (fuel : nat) : forall s,
  search_inv g bound start s ->
  (List.length (unvisited s) <= fuel)%nat ->
  exists s', closest_loop g fuel s = Returns s' /\
             search_inv g bound start s' /\ unvisited s' = [].
Proof.
  induction fuel as [|fuel IH]; intros s I L.
  - destruct (unvisited s) eqn:E; simpl in L; [|lia].
    exists s. simpl. rewrite E. auto.
  - simpl. destruct (unvisited s) as [|k r] eqn:E.
    + exists s. auto.
    + rewrite <- E in *.
      destruct (minNode_nonempty (distances s) (unvisited s)) as [c Hm].
      { rewrite E. discriminate. }
      rewrite Hm. destruct (minNode_front s c I Hm) as [Hc _].
      pose proof (g_total c (inv_nodes _ _ _ _ I c Hc)) as T.
      unfold Map_has in T.
      destruct (Map_get (edges g) c) as [adj|] eqn:Ea; [|discriminate].
      pose proof (search_step s c adj I Hm Ea) as I'. simpl in I'.
      apply IH; auto. simpl.
      assert (R : relax_inv g bound start c s (fold_left (relax c) adj s) (rev adj ++ [])).
      { apply relax_fold_inv; auto.
        - intros n w. now apply adjacency_entry.
        - now apply relax_inv_init. }
      rewrite (rel_unvisited _ _ _ _ _ _ _ R).
      pose proof (length_Set_delete _ _ Hc). lia.
Qed.
End Search.

(** ** Pathfinder: the sort of the candidates *)

Lemma num_le_refl a : num_le a a.
Proof. destruct a; simpl; auto. lia. Qed.

Lemma num_le_trans a b c : num_le a b -> num_le b c -> num_le a c.
Proof. destruct a, b, c; simpl; auto; try tauto. lia. Qed.

Lemma js_sub_sign_opp a b : js_sub_sign b a = - js_sub_sign a b.
Proof.
  destruct a as [[p| |]|], b as [[q| |]|]; simpl; auto.
  replace (q - p) with (- (p - q)) by lia. apply Z.sgn_opp.
Qed.

(** On keys that have a distance the comparator orders as [num_le]. *)
Lemma js_sub_sign_le d a b :
  Map_get d a <> None -> Map_get d b <> None ->
  (js_sub_sign (Map_get d a) (Map_get d b) <= 0
   <-> num_le (dist_of d a) (dist_of d b)).
Proof.
  unfold dist_of. intros Ha Hb.
  destruct (Map_get d a) as [[p| |]|], (Map_get d b) as [[q| |]|];
    simpl; try congruence; try lia; try tauto.
Qed.

Lemma js_sub_sign_diag a : js_sub_sign a a = 0.
Proof.
  destruct a as [[p| |]|]; simpl; auto. now rewrite Z.sub_diag.
Qed.

Lemma entry_eq_dec (a b : string * NodeMetadata) : {a = b} + {a <> b}.
Proof.
  repeat decide equality; try apply Z.eq_dec; try apply bool_dec.
Qed.

Section Sort.
Variable d : Map num.

Lemma insert_by_In a l e : In e (insert_by d a l) <-> e = a \/ In e l.
Proof.
  induction l as [|b r IH]; simpl.
  - intuition.
  - destruct (js_sub_sign _ _ <=? 0); simpl; rewrite ?IH; intuition.
Qed.

Lemma sort_by_In l e : In e (sort_by d l) <-> In e l.
Proof.
  induction l as [|a r IH]; simpl; [tauto|].
  rewrite insert_by_In, IH. intuition.
Qed.

Lemma insert_by_length a l :
  List.length (insert_by d a l) = S (List.length l).
Proof.
  induction l as [|b r IH]; simpl; auto.
  destruct (js_sub_sign _ _ <=? 0); simpl; auto.
Qed.

Lemma insert_by_sorted a l :
  (forall e, In e (a :: l) -> Map_get d (fst e) <> None) ->
  Sorted (entry_le d) l -> Sorted (entry_le d) (insert_by d a l).
Proof.
  intros D S. induction S as [|b r S IH H]; simpl.
  - repeat constructor.
  - assert (Da : Map_get d (fst a) <> None) by (apply D; now left).
    assert (Db : Map_get d (fst b) <> None) by (apply D; right; now left).
    destruct (js_sub_sign _ _ <=? 0) eqn:E.
    + apply Z.leb_le in E. constructor; [constructor; auto|].
      constructor. now apply js_sub_sign_le.
    + apply Z.leb_gt in E.
      assert (Rba : entry_le d b a).
      { apply js_sub_sign_le; auto. rewrite js_sub_sign_opp. lia. }
      constructor.
      * apply IH. intros e [Ee|He]; apply D; [left; exact Ee | right; right; exact He].
      * destruct r as [|c r']; simpl.
        -- now constructor.
        -- destruct (js_sub_sign _ _ <=? 0); constructor; auto.
           now inversion H.
Qed.

Lemma sort_by_sorted l :
  (forall e, In e l -> Map_get d (fst e) <> None) ->
  StronglySorted (entry_le d) (sort_by d l).
Proof.
  intros D. apply Sorted_StronglySorted.
  - intros a b c. apply num_le_trans.
  - induction l as [|a r IH]; simpl; [constructor|].
    apply insert_by_sorted.
    + intros e [E|He]; [subst e; apply D; left; reflexivity|].
      apply (proj1 (sort_by_In _ _)) in He. apply D. right. exact He.
    + apply IH. intros e He. apply D. now right.
Qed.

(** A candidate strictly below all others comes first. *)
Lemma sort_by_head l a :
  In a l ->
  (forall b, In b l -> b <> a ->
     js_sub_sign (Map_get d (fst a)) (Map_get d (fst b)) < 0) ->
  exists t, sort_by d l = a :: t.
Proof.
  intros Ha Hlt. induction l as [|x r IH]; [destruct Ha|]. simpl.
  destruct (entry_eq_dec x a) as [->|N].
  - destruct (sort_by d r) as [|b t] eqn:Es; simpl; [eauto|].
    assert (Hb : In b r) by (apply sort_by_In; rewrite Es; now left).
    assert (L : js_sub_sign (Map_get d (fst a)) (Map_get d (fst b)) <= 0).
    { destruct (entry_eq_dec b a) as [->|N].
      - rewrite js_sub_sign_diag. lia.
      - specialize (Hlt b (or_intror Hb) N). lia. }
    apply Z.leb_le in L. rewrite L. eauto.
  - destruct Ha as [->|Ha]; [congruence|].
    destruct IH as [t ->]; auto.
    { intros b Hb. apply Hlt. now right. }
    simpl. specialize (Hlt x (or_introl eq_refl) N).
    rewrite js_sub_sign_opp.
    destruct (- js_sub_sign _ _ <=? 0) eqn:E; [|eauto].
    apply Z.leb_le in E. lia.
Qed.
End Sort.

(** ** Pathfinder: [findClosestNReady] *)

Lemma nonnegativeb_sound g : nonnegativeb g = true -> nonnegative g.
Proof.
  unfold nonnegativeb. rewrite forallb_forall. intros H a b w Hw.
  unfold weight in Hw.
  destruct (Map_get (edges g) a) as [m|] eqn:Ea; [|discriminate].
  apply Map_get_In in Ea. apply Map_get_In in Hw.
  specialize (H _ Ea). simpl in H. rewrite forallb_forall in H.
  specialize (H _ Hw). simpl in H. now apply Z.leb_le.
Qed.

Lemma positiveb_sound g : positiveb g = true -> positive g.
Proof.
  unfold positiveb. rewrite forallb_forall. intros H a b w Hw.
  unfold weight in Hw.
  destruct (Map_get (edges g) a) as [m|] eqn:Ea; [|discriminate].
  apply Map_get_In in Ea. apply Map_get_In in Hw.
  specialize (H _ Ea). simpl in H. rewrite forallb_forall in H.
  specialize (H _ Hw). simpl in H. now apply Z.ltb_lt.
Qed.

Lemma positive_nonnegative g : positive g -> nonnegative g.
Proof. intros P a b w H. specialize (P a b w H). lia. Qed.

Lemma walk_positive g s v l c :
  positive g -> walk g s v l c -> v <> s -> 0 < c.
Proof.
  intros P W. destruct W as [|u v l c w W Hv Hw]; [congruence|].
  intros _. pose proof (walk_nonnegative _ _ _ _ _ (positive_nonnegative _ P) W).
  specialize (P _ _ _ Hw). lia.
Qed.

Lemma StronglySorted_map {A B} (f : A -> B) (R : B -> B -> Prop) (l : list A) :
  StronglySorted (fun a b => R (f a) (f b)) l -> StronglySorted R (map f l).
Proof.
  induction 1 as [|a l S IH F]; simpl; constructor; auto.
  rewrite Forall_forall in *. intros b Hb. apply in_map_iff in Hb.
  destruct Hb as (a' & <- & Ha'). auto.
Qed.

Lemma In_firstn {A} (n : nat) (l : list A) a : In a (firstn n l) -> In a l.
Proof.
  revert n. induction l as [|x l IH]; intros [|n] H; simpl in *; try tauto.
  destruct H; eauto.
Qed.

Lemma StronglySorted_firstn {A} (R : A -> A -> Prop) (n : nat) (l : list A) :
  StronglySorted R l -> StronglySorted R (firstn n l).
Proof.
  intros S. revert n. induction S as [|a l S IH F]; intros [|n]; simpl;
    try constructor; auto.
  rewrite Forall_forall in *. intros b Hb. apply F.
  eapply In_firstn; eauto.
Qed.

Lemma Forall2_map_self {A B} (P : A -> B -> Prop) (f : A -> B) (l : list A) :
  (forall a, In a l -> P a (f a)) -> Forall2 P l (map f l).
Proof.
  induction l as [|a l IH]; intros H; simpl; constructor.
  - apply H. now left.
  - apply IH. intros b Hb. apply H. now right.
Qed.

(** The start is at distance 0 of itself. *)
Lemma shortest_start g start :
  nonnegative g -> nodeExist g start = true -> shortest g start start (Fin 0).
Proof.
  intros N Hs. split.
  - exists [start]. apply walk_is_path. now constructor.
  - intros l c P. apply is_path_walk in P.
    eapply walk_nonnegative; eauto.
Qed.

Lemma weights_leb_sound W g : weights_leb W g = true -> weights_below g W.
Proof.
  unfold weights_leb. rewrite !andb_true_iff, forallb_forall.
  intros [[H0 H] Hn]. split; [now apply Z.leb_le|]. split; [|now apply Z.ltb_lt].
  intros a b w Hw. unfold weight in Hw.
  destruct (Map_get (edges g) a) as [m|] eqn:Ea; [|discriminate].
  apply Map_get_In in Ea. apply Map_get_In in Hw.
  specialize (H _ Ea). simpl in H. rewrite forallb_forall in H.
  specialize (H _ Hw). simpl in H. now apply Z.leb_le.
Qed.

(** A potential is a lower bound of the weight of every path. *)
Lemma potentialb_sound d g s v l c :
  potentialb d g = true -> walk g s v l c ->
  potential d v <= potential d s + c.
Proof.
  unfold potentialb. rewrite forallb_forall. intros H.
  induction 1 as [|u v l c w _ IH _ Hw]; [lia|].
  unfold weight in Hw.
  destruct (Map_get (edges g) u) as [m|] eqn:Eu; [|discriminate].
  apply Map_get_In in Eu. apply Map_get_In in Hw.
  specialize (H _ Eu). simpl in H. rewrite forallb_forall in H.
  specialize (H _ Hw). simpl in H. apply Z.leb_le in H. lia.
Qed.

Lemma slice0_count {A} (n : nat) (l : list A) :
  slice0 (Z.of_nat n) l = firstn n l.
Proof.
  unfold slice0. destruct (Z.of_nat n <? 0) eqn:E.
  - apply Z.ltb_lt in E. lia.
  - now rewrite Nat2Z.id.
Qed.

(** C6 (as stated) fails, in three ways.  The two ready nodes of
    [tie_graph] are both at distance 0 of the start "S", and "B", which
    comes first in the node mapping, is returned before the start; with
    [n = 1] the start is not returned at all.  With [n = -1] the call
    returns one key, which is more than [n].  In [far_graph] the ready node
    "X" is farther from "S" than "Y" is, yet it is returned first: its
    distance [1 + 2 ^ 53] is rounded to [2 ^ 53], the distance of "Y". *)
Lemma findClosestNReady_tie :
  (nonnegative tie_graph /\
   (exists m, Map_get (nodes tie_graph) "S" = Some m /\ ready m = true) /\
   shortest tie_graph "S" "S" (Fin 0) /\
   shortest tie_graph "S" "B" (Fin 0) /\
   findClosestNReady "S" (Some 2) tie_graph
     = (tie_graph, Returns (Some ["B"; "S"])) /\
   findClosestNReady "S" (Some 1) tie_graph
     = (tie_graph, Returns (Some ["B"]))) /\
  findClosestNReady "S" (Some (-1)) tie_graph
    = (tie_graph, Returns (Some ["B"])) /\
  (positive far_graph /\
   shortest far_graph "S" "X" (Fin (2 ^ 53 + 1)) /\
   shortest far_graph "S" "Y" (Fin (2 ^ 53)) /\
   findClosestNReady "S" (Some 2) far_graph
     = (far_graph, Returns (Some ["X"; "Y"]))).
Proof.
  assert (N : nonnegative tie_graph) by now apply nonnegativeb_sound.
  split; [|split; [reflexivity|]].
  - split; [exact N|]. split; [eexists; split; reflexivity|].
    split; [now apply shortest_start|]. split; [|split; reflexivity].
    split.
    + exists ["S"; "B"]. repeat split.
    + intros l c P. apply is_path_walk in P. eapply walk_nonnegative; eauto.
  - assert (D : forall v l c, walk far_graph "S" v l c ->
                  potential [("M", 1); ("X", 2 ^ 53 + 1); ("Y", 2 ^ 53)] v <= c).
    { intros v l c Wl.
      exact (potentialb_sound
               [("M", 1); ("X", 2 ^ 53 + 1); ("Y", 2 ^ 53)]
               far_graph "S" v l c eq_refl Wl). }
    split; [now apply positiveb_sound|]. split; [|split; [|reflexivity]].
    + split.
      * exists ["S"; "M"; "X"]. repeat split.
      * intros l c P. apply is_path_walk in P. exact (D _ _ _ P).
    + split.
      * exists ["S"; "Y"]. repeat split.
      * intros l c P. apply is_path_walk in P. exact (D _ _ _ P).
Qed.

(** C6 (amended). On a graph with non-negative weights that are small
    enough for no sum along a path to be rounded, in which every node has
    an adjacency map, [findClosestNReady(start, n)] on an existing [start]
    and for a count [n] returns the first [n] of the candidates, hence at
    most [n] keys; the candidates are exactly the keys whose metadata is
    ready, ordered by non-decreasing shortest-path distance from [start];
    [start] is at distance 0 and is a candidate when it is ready; it comes
    first when every weight is positive. *)
Theorem findClosestNReady_nearest g start (n : nat) :
  Graph_ok g -> adjacency_total g -> nonnegative g -> exact_sums g ->
  nodeExist g start = true ->
  exists cands,
    findClosestNReady start (Some (Z.of_nat n)) g
      = (g, Returns (Some (firstn n cands))) /\
    (List.length (firstn n cands) <= n)%nat /\
    (forall k, In k cands <->
       exists m, Map_get (nodes g) k = Some m /\ ready m = true) /\
    (exists ds, Forall2 (shortest g start) cands ds /\
                StronglySorted num_le ds) /\
    (exists ds, Forall2 (shortest g start) (firstn n cands) ds /\
                StronglySorted num_le ds) /\
    shortest g start start (Fin 0) /\
    (positive g -> In start cands -> hd_error cands = Some start).
Proof.
  intros Ok Tot Nn (W & Hb) Hs.
  pose proof (initial_search_inv g W start Ok Hb Hs) as I0.
  destruct (closest_loop_returns g W start Ok Nn Hb Tot
              (List.length (unvisited (initial_search g start)))
              (initial_search g start) I0 (le_n _)) as (s & El & I & Eu).
  set (d := distances s).
  set (ready_entries := filter (fun e => ready (snd e)) (nodes g)).
  exists (map fst (sort_by d ready_entries)).
  assert (Hin : forall k, In k (map fst (sort_by d ready_entries)) <->
                  exists m, Map_get (nodes g) k = Some m /\ ready m = true).
  { intros k. rewrite in_map_iff. split.
    - intros ([k' m] & <- & H). apply sort_by_In in H.
      apply filter_In in H. destruct H as [H R]. exists m. split; auto.
      apply In_Map_get; auto. apply Ok.
    - intros (m & E & R). exists (k, m). split; auto.
      apply sort_by_In. apply filter_In. split; auto. now apply Map_get_In. }
  assert (Node : forall k, In k (map fst (sort_by d ready_entries)) ->
                   nodeExist g k = true).
  { intros k Hk. apply Hin in Hk. destruct Hk as (m & E & _).
    unfold nodeExist, Map_has. now rewrite E. }
  assert (Short : forall k, In k (map fst (sort_by d ready_entries)) ->
                    shortest g start k (dist_of d k)).
  { intros k Hk.
    destruct (visited_distance g W start Nn s k I) as (x & Ex & Sx).
    - split; [now apply Node|]. rewrite Eu. tauto.
    - unfold dist_of, d. now rewrite Ex. }
  assert (Sorted : StronglySorted num_le
                     (map (dist_of d) (map fst (sort_by d ready_entries)))).
  { apply StronglySorted_map, StronglySorted_map.
    apply sort_by_sorted. intros e He.
    apply (inv_dist _ _ _ _ I). apply Node. rewrite in_map_iff.
    exists e. split; auto. now apply sort_by_In. }
  split; [|split; [|split; [exact Hin|split; [|split; [|split]]]]].
  - unfold findClosestNReady, bind, get_graph, lift, ret.
    rewrite Hs. simpl negb. cbv iota. rewrite El.
    now rewrite slice0_count, firstn_map.
  - apply firstn_le_length.
  - exists (map (dist_of d) (map fst (sort_by d ready_entries))).
    split; [|exact Sorted]. now apply Forall2_map_self.
  - exists (map (dist_of d) (firstn n (map fst (sort_by d ready_entries)))).
    split.
    + apply Forall2_map_self. intros k Hk. apply Short. eapply In_firstn; eauto.
    + rewrite <- firstn_map. now apply StronglySorted_firstn.
  - now apply shortest_start.
  - intros Pos Hstart. apply Hin in Hstart. destruct Hstart as (m & Em & Rm).
    destruct (sort_by_head d ready_entries (start, m)) as [t Et].
    + apply filter_In. split; auto. now apply Map_get_In.
    + intros [k m'] Hb' Nb. apply filter_In in Hb'. destruct Hb' as [Hb' _].
      simpl.
      assert (Nk : k <> start).
      { intros ->. apply Nb. f_equal.
        apply In_Map_get in Hb'; [|apply Ok]. congruence. }
      fold d. unfold d at 1. rewrite (inv_start _ _ _ _ I).
      assert (Dk : Map_get d k <> None).
      { apply (inv_dist _ _ _ _ I). unfold nodeExist. apply Map_has_In.
        apply (in_map fst) in Hb'. exact Hb'. }
      pose proof (inv_noneg _ _ _ _ I k) as Nk'. fold d in Nk'.
      destruct (Map_get d k) as [[x| |]|] eqn:Ek;
        [| simpl; lia | congruence | congruence].
      destruct (inv_sound _ _ _ _ I k x Ek) as [l Wl].
      pose proof (walk_positive _ _ _ _ _ Pos Wl Nk). simpl.
      rewrite Z.sgn_neg; lia.
    + rewrite Et. reflexivity.
Qed.

Lemma scenario_exact : exact_sums scenario.
Proof. exists 10. now apply weights_leb_sound. Qed.

Lemma findClosestNReady_nearest_witness :
  exists cands,
    findClosestNReady "A" (Some 1) scenario
      = (scenario, Returns (Some (firstn 1 cands))) /\
    hd_error cands = Some "B".
Proof.
  assert (Ok : Graph_ok scenario).
  { apply reachable_ok.
    exact (reachable_run
             [ OpAddNode "A" (meta 0 0 false);
               OpAddNode "B" (meta 1 0 true);
               OpAddNode "C" (meta 2 0 true);
               OpAddEdge "A" "B" 3;
               OpAddEdge "B" "C" 4;
               OpAddEdge "A" "C" 10 ] empty_graph reachable_empty). }
  assert (Tot : adjacency_total scenario).
  { intros k Hk. apply Map_has_In in Hk. apply Map_has_In. exact Hk. }
  assert (Nn : nonnegative scenario) by now apply nonnegativeb_sound.
  destruct (findClosestNReady_nearest scenario "A" 1%nat Ok Tot Nn
              scenario_exact eq_refl)
    as (cands & E & _).
  exists cands. split; [exact E|].
  assert (F : firstn 1 cands = ["B"]).
  { assert (C : findClosestNReady "A" (Some 1) scenario
                = (scenario, Returns (Some ["B"]))) by reflexivity.
    change (Z.of_nat 1) with 1 in E.
    rewrite C in E. now inversion E. }
  destruct cands as [|k r]; [discriminate|]. simpl in F. now inversion F.
Defined.

(** ** Pathfinder: predecessors *)

Lemma relax_previous_fst c s p e :
  fst (relax_previous c (s, p) e) = relax c s e.
Proof.
  destruct e as [n w]. unfold relax_previous, relax.
  destruct (Set_has (unvisited s) n); auto.
  destruct (js_gt _ _); auto.
  destruct (js_add _ _); auto.
Qed.

Lemma chain_set_other previous n c v l :
  chain previous v l -> ~ In n l -> chain (Map_set previous n c) v l.
Proof.
  induction 1 as [v E|v u l E C IH]; intros N.
  - constructor. rewrite Map_get_set_other; auto.
    intros ->. apply N. now left.
  - rewrite in_app_iff in N. constructor 2 with u.
    + rewrite Map_get_set_other; auto. intros ->. apply N. right. now left.
    + apply IH. tauto.
Qed.

Lemma chain_keys previous v l :
  chain previous v l ->
  exists r rest, l = r :: rest /\ forall u, In u rest -> In u (Map_keys previous).
Proof.
  induction 1 as [v E|v u l E C (r & rest & -> & IH)].
  - exists v, []. split; auto. intros u [].
  - exists r, (rest ++ [v]). split; auto.
    intros u' H. apply in_app_or in H. destruct H as [H|[<-|[]]]; auto.
    apply Map_has_In. unfold Map_has. now rewrite E.
Qed.

Lemma chain_length previous v l :
  chain previous v l -> NoDup l -> (List.length l <= S (List.length previous))%nat.
Proof.
  intros C ND. destruct (chain_keys _ _ _ C) as (r & rest & -> & H).
  inversion ND as [|? ? _ ND']; subst. simpl. apply le_n_S.
  unfold Map_keys in H. rewrite <- (length_map fst previous).
  apply NoDup_incl_length; auto.
Qed.

(** The walk along the predecessors collects the chain, last key first. *)
Lemma walk_back_chain previous v l :
  chain previous v l ->
  forall fuel path, (List.length l <= fuel)%nat ->
    walk_back previous fuel (Some v) path = Returns (path ++ rev l).
Proof.
  induction 1 as [v E|v u l E C IH]; intros fuel path L.
  - destruct fuel as [|fuel]; simpl in *; [lia|]. rewrite E.
    destruct fuel; reflexivity.
  - rewrite length_app in L. simpl in L.
    destruct fuel as [|fuel]; [lia|]. simpl. rewrite E.
    rewrite IH by lia. rewrite rev_app_distr. simpl.
    now rewrite <- app_assoc.
Qed.

Section Previous.
Variable g : WeightedGraph.
Variable R : Z -> Z -> Prop.
Variable start : string.
Hypothesis g_ok : Graph_ok g.
Hypothesis R_start : R 0 0.

Lemma previous_inv_init :
  nodeExist g start = true ->
  previous_inv g R start None (initial_search g start) [].
Proof.
  intros Hs. constructor.
  - intros v x E.
    assert (v = start /\ x = 0) as [-> ->].
    { revert E. simpl. destruct (string_dec start v) as [<-|N].
      - rewrite Map_get_set_same. intros [= <-]. auto.
      - rewrite Map_get_set_other by exact N.
        destruct g_ok as (On & _ & _).
        rewrite Map_of_entries_ok by (rewrite map_map; exact On).
        rewrite Map_get_all_Infinity.
        destruct (Map_has (nodes g) v); discriminate. }
    exists [start], 0. split; [now constructor|]. split; [now constructor|].
    split; [exact R_start|].
    split; [repeat constructor; simpl; tauto|].
    intros u [<-|[]] N. congruence.
  - intros v u E. discriminate.
Qed.

Lemma previous_inv_weaken c s p :
  previous_inv g R start None s p -> previous_inv g R start (Some c) s p.
Proof.
  intros [Hc Hf]. constructor; auto.
  intros v x E. destruct (Hc v x E) as (l & x' & C & W & Rx & ND & O).
  exists l, x'. repeat (split; [assumption|]).
  intros u Hu N. destruct (O u Hu N) as [H|H]; [now left|discriminate].
Qed.

(** One entry of the adjacency map of [c], when the sum is not below the
    distance of [c] and [R] follows it. *)
Lemma relax_previous_keeps_inv c s p n w :
  (forall v, In v (unvisited s) -> nodeExist g v = true) ->
  weight g c n = Some w ->
  Map_get (distances s) c <> Some NegInfinity ->
  (forall x, Map_get (distances s) c = Some (Fin x) ->
     round_double (x + w) = Infinity \/
     exists y, round_double (x + w) = Fin y /\ x <= y /\
               forall x', R x x' -> R y (x' + w)) ->
  previous_inv g R start (Some c) s p ->
  previous_inv g R start (Some c)
    (fst (relax_previous c (s, p) (n, w)))
    (snd (relax_previous c (s, p) (n, w))).
Proof.
  intros Hnodes Hw Nneg Hadd P.
  unfold relax_previous.
  destruct (Set_has (unvisited s) n) eqn:En; [|exact P].
  apply Set_has_In in En.
  destruct (Map_get (distances s) c) as [[x| |]|] eqn:Ec;
    unfold js_add, js_gt;
    [| replace (js_lt (Some Infinity) (Map_get (distances s) n)) with false
         by (now destruct (Map_get (distances s) n) as [[?| |]|]); exact P
     | congruence
     | replace (js_lt None (Map_get (distances s) n)) with false
         by (now destruct (Map_get (distances s) n) as [[?| |]|]); exact P ].
  destruct (Hadd x eq_refl) as [Ei|(y & Ey & Lxy & HR)].
  { rewrite Ei.
    replace (js_lt (Some Infinity) (Map_get (distances s) n)) with false
      by (now destruct (Map_get (distances s) n) as [[?| |]|]).
    exact P. }
  rewrite Ey.
  destruct (js_lt (Some (Fin y)) (Map_get (distances s) n)) eqn:G;
    [|exact P].
  assert (Nc : n <> c).
  { intros ->. rewrite Ec in G. simpl in G. apply Z.ltb_lt in G. lia. }
  destruct P as [Pc Pf].
  destruct (Pc c x Ec) as (lc & xc & Cc & Wc & Rc & NDc & Oc).
  assert (Nlc : ~ In n lc).
  { intros H. destruct (string_dec n c) as [->|N]; [congruence|].
    destruct (Oc n H N) as [V|V]; [tauto|congruence]. }
  constructor; simpl.
  - intros v x'. destruct (string_dec n v) as [<-|N].
    + rewrite Map_get_set_same. intros [= <-].
      exists (lc ++ [n]), (xc + w). split; [|split; [|split; [|split]]].
      * constructor 2 with c; [apply Map_get_set_same|].
        now apply chain_set_other.
      * eapply walk_step; eauto.
      * now apply HR.
      * apply NoDup_app; auto.
        -- repeat constructor. simpl. tauto.
        -- intros a Ha [<-|[]]. tauto.
      * intros u Hu Nu. apply in_app_or in Hu.
        destruct Hu as [Hu|[<-|[]]]; [|congruence].
        destruct (string_dec u c) as [->|Nuc]; [now right|].
        exact (Oc u Hu Nuc).
    + rewrite Map_get_set_other by exact N. intros E.
      destruct (Pc v x' E) as (l & xv & C & W & Rv & ND & O).
      exists l, xv.
      split; [|split; [exact W|split; [exact Rv|split; [exact ND|exact O]]]].
      apply chain_set_other; auto.
      intros H. destruct (O n H N) as [V|V]; [tauto|congruence].
  - intros v u. destruct (string_dec n v) as [<-|N].
    + rewrite !Map_get_set_same. eauto.
    + rewrite !Map_get_set_other by exact N. apply Pf.
Qed.

Lemma previous_inv_close c s p :
  previous_inv g R start (Some c) s p ->
  previous_inv g R start None
    (mkSearch (Set_delete (unvisited s) c) (distances s)) p.
Proof.
  intros [Hc Hf]. constructor; simpl; auto.
  intros v x E. destruct (Hc v x E) as (l & x' & C & W & Rx & ND & O).
  exists l, x'. repeat (split; [assumption|]).
  intros u Hu N. left. rewrite In_Set_delete.
  destruct (O u Hu N) as [H|H]; [tauto|]. inversion H. tauto.
Qed.
End Previous.

(** *** Where no sum is rounded: the chain weighs what the distance says *)

Section Exact.
Variable g : WeightedGraph.
Variable bound : Z.
Variable start : string.
Hypothesis g_ok : Graph_ok g.
Hypothesis g_nonneg : nonnegative g.
Hypothesis g_below : weights_below g bound.

Lemma relax_previous_fold c s0 (adj : list (string * Z)) :
  search_inv g bound start s0 -> In c (unvisited s0) ->
  (forall n w, In (n, w) adj -> weight g c n = Some w) ->
  forall done s p,
    relax_inv g bound start c s0 s done ->
    previous_inv g eq start (Some c) s p ->
    fst (fold_left (relax_previous c) adj (s, p)) = fold_left (relax c) adj s /\
    previous_inv g eq start (Some c)
      (fst (fold_left (relax_previous c) adj (s, p)))
      (snd (fold_left (relax_previous c) adj (s, p))).
Proof.
  intros I Hc. induction adj as [|[n w] r IH]; intros Hadj done s p R P.
  { simpl. auto. }
  assert (Hw : weight g c n = Some w) by (apply Hadj; now left).
  assert (P' : previous_inv g eq start (Some c)
                 (fst (relax_previous c (s, p) (n, w)))
                 (snd (relax_previous c (s, p) (n, w)))).
  { apply relax_previous_keeps_inv; auto.
    - intros v Hv. apply (inv_nodes _ _ _ _ I).
      now rewrite <- (rel_unvisited _ _ _ _ _ _ _ R).
    - apply (rel_noneg _ _ _ _ _ _ _ R).
    - intros x Ex. right. exists (x + w).
      rewrite (rel_cur _ _ _ _ _ _ _ R) in Ex.
      pose proof (g_nonneg _ _ _ Hw) as Pw.
      destruct g_below as (W0 & Wmax & Wsafe).
      pose proof (Wmax _ _ _ Hw) as Lw.
      assert (L1 : 1 <= Z.of_nat (List.length (unvisited s0))).
      { destruct (unvisited s0); [destruct Hc | simpl List.length; lia]. }
      assert (Px : 0 <= x).
      { destruct (inv_sound _ _ _ _ I c x Ex) as [l Wl].
        eapply walk_nonnegative; eauto. }
      pose proof (inv_bound _ _ _ _ I c x Ex) as Bx.
      split; [|split; [lia | intros x' ->; reflexivity]].
      apply round_double_exact. rewrite Z.abs_eq by lia. nia. }
  pose proof (relax_keeps_inv g bound start g_nonneg g_below
                c s0 s done n w I Hc Hw R) as R'.
  pose proof (relax_previous_fst c s p (n, w)) as Q.
  cbn [fold_left].
  destruct (relax_previous c (s, p) (n, w)) as [s1 p1].
  cbn [fst snd] in P', Q. rewrite <- Q in R'. rewrite <- Q.
  exact (IH (fun n' w' H => Hadj n' w' (or_intror H)) _ s1 p1 R' P').
Qed.

Hypothesis g_total : adjacency_total g.

(** The loop of [findCheapestPath] ends: it returns, with the destination
    visited or selected. *)
Lemma cheapest_loop_returns end_ (fuel : nat) : forall s p,
  search_inv g bound start s -> previous_inv g eq start None s p ->
  (List.length (unvisited s) <= fuel)%nat ->
  exists s' p',
    cheapest_loop g end_ fuel (s, p) = Returns (s', p') /\
    search_inv g bound start s' /\ previous_inv g eq start None s' p' /\
    (~ In end_ (unvisited s') \/
     minNode (distances s') (unvisited s') = Some end_).
Proof.
  induction fuel as [|fuel IH]; intros s p I P L.
  - destruct (unvisited s) eqn:E; simpl in L; [|lia].
    exists s, p. simpl. rewrite E.
    split; [reflexivity|]. split; [exact I|]. split; [exact P|].
    left. rewrite ?E. simpl. tauto.
  - cbn [cheapest_loop fst]. destruct (unvisited s) as [|k r] eqn:E.
    + exists s, p.
      split; [reflexivity|]. split; [exact I|]. split; [exact P|].
      left. rewrite ?E. simpl. tauto.
    + rewrite <- E in *.
      destruct (minNode_nonempty (distances s) (unvisited s)) as [c Hm].
      { rewrite E. discriminate. }
      rewrite Hm. destruct (minNode_front g bound start s c I Hm) as [Hc _].
      destruct (String.eqb c end_) eqn:Ee.
      { string_cases. exists s, p.
        split; [reflexivity|]. split; [exact I|]. split; [exact P|].
        right. exact Hm. }
      pose proof (g_total c (inv_nodes _ _ _ _ I c Hc)) as T.
      unfold Map_has in T.
      destruct (Map_get (edges g) c) as [adj|] eqn:Ea; [|discriminate].
      assert (R0 : relax_inv g bound start c s s []).
      { now apply relax_inv_init. }
      assert (Hadj : forall n w, In (n, w) adj -> weight g c n = Some w).
      { intros n w. now apply (adjacency_entry g g_ok c adj). }
      destruct (relax_previous_fold c s adj I Hc Hadj [] s p R0
                  (previous_inv_weaken g eq start c s p P)) as [F1 F2].
      pose proof (search_step g bound start g_ok g_nonneg g_below
                    s c adj I Hm Ea) as I'.
      cbv zeta in I'. rewrite <- F1 in I'.
      pose proof (relax_fold_inv g bound start g_nonneg g_below
                    c s adj I Hc Hadj [] s R0) as R.
      rewrite <- F1 in R.
      destruct (fold_left (relax_previous c) adj (s, p)) as [s1 p1].
      cbn [fst snd] in *.
      apply IH; auto.
      * now apply previous_inv_close.
      * simpl. rewrite (rel_unvisited _ _ _ _ _ _ _ R).
        pose proof (length_Set_delete _ _ Hc). lia.
Qed.

(** When the loop has returned, the tentative distance of the destination
    is a lower bound of the weight of every path to it. *)
Lemma destination_bound end_ s l c :
  search_inv g bound start s ->
  (~ In end_ (unvisited s) \/
   minNode (distances s) (unvisited s) = Some end_) ->
  walk g start end_ l c ->
  le_fin (Map_get (distances s) end_) c.
Proof.
  intros I H W.
  destruct (lower_bound g bound start g_nonneg s end_ l c I W) as [V U].
  destruct (in_dec string_dec end_ (unvisited s)) as [Hin|Hout]; auto.
  destruct H as [H|H]; [tauto|].
  destruct (U Hin) as (u & Hu & (y & Ey & Ly)).
  destruct (minNode_front g bound start s end_ I H) as [_ F].
  apply le_fin_mono with y; auto. eapply F; eauto.
Qed.
End Exact.

(** *** Whatever the sums round to: the searches end, and the chain is a
    path *)

Section Shape.
Variable g : WeightedGraph.
Variable start : string.
Hypothesis g_ok : Graph_ok g.
Hypothesis g_nonneg : nonnegative g.

Lemma relax_unvisited c s e : unvisited (relax c s e) = unvisited s.
Proof.
  destruct e as [n w]. unfold relax.
  destruct (Set_has (unvisited s) n); auto.
  destruct (js_gt _ _); auto.
  destruct (js_add _ _); auto.
Qed.

Lemma relax_fold_unvisited c adj : forall s,
  unvisited (fold_left (relax c) adj s) = unvisited s.
Proof.
  induction adj as [|e r IH]; intros s; simpl; auto.
  now rewrite IH, relax_unvisited.
Qed.

Lemma relax_keeps_shape c s n w :
  0 <= w -> shape_inv g s -> shape_inv g (relax c s (n, w)).
Proof.
  intros Pw S. unfold relax.
  destruct (Set_has (unvisited s) n); auto.
  destruct (Map_get (distances s) c) as [[x| |]|] eqn:Ec;
    unfold js_add, js_gt;
    [| replace (js_lt (Some Infinity) (Map_get (distances s) n)) with false
         by (now destruct (Map_get (distances s) n) as [[?| |]|]); exact S
     | exfalso; exact (sh_noneg _ _ S c Ec)
     | replace (js_lt None (Map_get (distances s) n)) with false
         by (now destruct (Map_get (distances s) n) as [[?| |]|]); exact S ].
  destruct (sh_fin _ _ S c x Ec) as [Px Rx].
  destruct (round_double_step x w Px Rx Pw) as [Ei|(y & Ey & Lxy & Ry)].
  { rewrite Ei.
    replace (js_lt (Some Infinity) (Map_get (distances s) n)) with false
      by (now destruct (Map_get (distances s) n) as [[?| |]|]).
    exact S. }
  rewrite Ey. destruct (js_lt _ _); [|exact S].
  destruct S as [S1 S2 S3 S4]. constructor; simpl; auto.
  - intros v Hv. destruct (string_dec n v) as [<-|N].
    + rewrite Map_get_set_same. discriminate.
    + rewrite Map_get_set_other by exact N. auto.
  - intros v x'. destruct (string_dec n v) as [<-|N].
    + rewrite Map_get_set_same. intros [= <-]. split; [lia|exact Ry].
    + rewrite Map_get_set_other by exact N. apply S3.
  - intros v. destruct (string_dec n v) as [<-|N].
    + rewrite Map_get_set_same. discriminate.
    + rewrite Map_get_set_other by exact N. apply S4.
Qed.

Lemma shape_inv_close c s :
  shape_inv g s ->
  shape_inv g (mkSearch (Set_delete (unvisited s) c) (distances s)).
Proof.
  intros [S1 S2 S3 S4]. constructor; simpl; auto.
  intros v Hv. apply In_Set_delete in Hv. apply S1, Hv.
Qed.

Lemma initial_shape :
  nodeExist g start = true -> shape_inv g (initial_search g start).
Proof.
  intros Hs. destruct g_ok as (On & _ & _).
  destruct (Set_of_list_spec (Map_keys (nodes g))) as [ND HIn].
  assert (E : Map_of_entries (map (fun e => (fst e, Infinity)) (nodes g))
              = map (fun e => (fst e, Infinity)) (nodes g)).
  { apply Map_of_entries_ok. rewrite map_map. exact On. }
  constructor; simpl; rewrite ?E.
  - intros v Hv. apply HIn in Hv. now apply Map_has_In.
  - intros v Hv. destruct (string_dec start v) as [<-|N].
    + rewrite Map_get_set_same. discriminate.
    + rewrite Map_get_set_other by exact N. rewrite Map_get_all_Infinity.
      unfold nodeExist in Hv. rewrite Hv. discriminate.
  - intros v x. destruct (string_dec start v) as [<-|N].
    + rewrite Map_get_set_same. intros [= <-]. split; [lia|].
      apply representable_small. reflexivity.
    + rewrite Map_get_set_other by exact N. rewrite Map_get_all_Infinity.
      destruct (Map_has (nodes g) v); discriminate.
  - intros v. destruct (string_dec start v) as [<-|N].
    + rewrite Map_get_set_same. discriminate.
    + rewrite Map_get_set_other by exact N. rewrite Map_get_all_Infinity.
      destruct (Map_has (nodes g) v); discriminate.
Qed.

Lemma relax_previous_fold_shape c (adj : list (string * Z)) :
  (forall n w, In (n, w) adj -> weight g c n = Some w) ->
  forall s p,
    shape_inv g s ->
    previous_inv g any_cost start (Some c) s p ->
    shape_inv g (fst (fold_left (relax_previous c) adj (s, p))) /\
    previous_inv g any_cost start (Some c)
      (fst (fold_left (relax_previous c) adj (s, p)))
      (snd (fold_left (relax_previous c) adj (s, p))) /\
    unvisited (fst (fold_left (relax_previous c) adj (s, p))) = unvisited s.
Proof.
  induction adj as [|[n w] r IH]; intros Hadj s p S P.
  { simpl. auto. }
  assert (Hw : weight g c n = Some w) by (apply Hadj; now left).
  pose proof (g_nonneg _ _ _ Hw) as Pw.
  assert (P' : previous_inv g any_cost start (Some c)
                 (fst (relax_previous c (s, p) (n, w)))
                 (snd (relax_previous c (s, p) (n, w)))).
  { apply relax_previous_keeps_inv; auto.
    - apply (sh_nodes _ _ S).
    - apply (sh_noneg _ _ S).
    - intros x Ex. destruct (sh_fin _ _ S c x Ex) as [Px Rx].
      destruct (round_double_step x w Px Rx Pw) as [Ei|(y & Ey & Lxy & _)];
        [now left|].
      right. exists y. repeat split; auto. }
  pose proof (relax_keeps_shape c s n w Pw S) as S'.
  pose proof (relax_previous_fst c s p (n, w)) as Q.
  pose proof (relax_unvisited c s (n, w)) as U.
  cbn [fold_left].
  destruct (relax_previous c (s, p) (n, w)) as [s1 p1].
  cbn [fst snd] in P', Q. rewrite <- Q in S', U.
  destruct (IH (fun n' w' H => Hadj n' w' (or_intror H)) s1 p1 S' P')
    as (A & B & C).
  split; [exact A|]. split; [exact B|]. congruence.
Qed.

Hypothesis g_total : adjacency_total g.

(** The loop of [findCheapestPath] ends, for all non-negative weights. *)
Lemma cheapest_loop_total end_ (fuel : nat) : forall s p,
  shape_inv g s -> previous_inv g any_cost start None s p ->
  (List.length (unvisited s) <= fuel)%nat ->
  exists s' p',
    cheapest_loop g end_ fuel (s, p) = Returns (s', p') /\
    shape_inv g s' /\ previous_inv g any_cost start None s' p'.
Proof.
  induction fuel as [|fuel IH]; intros s p S P L.
  - destruct (unvisited s) eqn:E; simpl in L; [|lia].
    exists s, p. simpl. rewrite E. auto.
  - cbn [cheapest_loop fst]. destruct (unvisited s) as [|k r] eqn:E.
    + exists s, p. auto.
    + rewrite <- E in *.
      destruct (minNode_nonempty (distances s) (unvisited s)) as [c Hm].
      { rewrite E. discriminate. }
      rewrite Hm. destruct (minNode_spec _ _ _ Hm) as [Hc _].
      destruct (String.eqb c end_); [exists s, p; auto|].
      pose proof (g_total c (sh_nodes _ _ S c Hc)) as T.
      unfold Map_has in T.
      destruct (Map_get (edges g) c) as [adj|] eqn:Ea; [|discriminate].
      assert (Hadj : forall n w, In (n, w) adj -> weight g c n = Some w).
      { intros n w. now apply (adjacency_entry g g_ok c adj). }
      destruct (relax_previous_fold_shape c adj Hadj s p S
                  (previous_inv_weaken g any_cost start c s p P))
        as (S' & P' & U).
      destruct (fold_left (relax_previous c) adj (s, p)) as [s1 p1].
      cbn [fst snd] in *.
      apply IH.
      * now apply shape_inv_close.
      * now apply previous_inv_close.
      * simpl. rewrite U. pose proof (length_Set_delete _ _ Hc). lia.
Qed.

(** The loop of [findClosestNReady] ends, whatever the weights are. *)
Lemma closest_loop_total (fuel : nat) : forall s,
  (forall v, In v (unvisited s) -> nodeExist g v = true) ->
  (List.length (unvisited s) <= fuel)%nat ->
  exists s', closest_loop g fuel s = Returns s'.
Proof.
  induction fuel as [|fuel IH]; intros s S L.
  - destruct (unvisited s) eqn:E; simpl in L; [|lia].
    exists s. simpl. now rewrite E.
  - simpl. destruct (unvisited s) as [|k r] eqn:E; [eauto|].
    rewrite <- E in *.
    destruct (minNode_nonempty (distances s) (unvisited s)) as [c Hm].
    { rewrite E. discriminate. }
    rewrite Hm. destruct (minNode_spec _ _ _ Hm) as [Hc _].
    pose proof (g_total c (S c Hc)) as T. unfold Map_has in T.
    destruct (Map_get (edges g) c) as [adj|] eqn:Ea; [|discriminate].
    apply IH; simpl; rewrite relax_fold_unvisited.
    + intros v Hv. apply In_Set_delete in Hv. apply S, Hv.
    + pose proof (length_Set_delete _ _ Hc). lia.
Qed.
End Shape.

(** ** Pathfinder: [findCheapestPath] *)

Lemma no_entries_sound g : no_entries g = true -> forall a b, weight g a b = None.
Proof.
  unfold no_entries. rewrite forallb_forall. intros H a b. unfold weight.
  destruct (Map_get (edges g) a) as [m|] eqn:E; auto.
  apply Map_get_In in E. specialize (H _ E). simpl in H.
  destruct m; [reflexivity|discriminate].
Qed.

Lemma no_entries_unreachable g s e :
  no_entries g = true -> s <> e -> ~ reachable_from g s e.
Proof.
  intros H N (l & c & P). apply is_path_walk in P.
  destruct P as [|u v l c w _ _ Hw]; [congruence|].
  rewrite (no_entries_sound g H) in Hw. discriminate.
Qed.

(** On a graph with non-negative weights in which every node has an
    adjacency map, an unreachable destination gives the sequence of the
    destination alone. *)
Lemma findCheapestPath_unreachable g start end_ :
  Graph_ok g -> adjacency_total g -> nonnegative g ->
  nodeExist g start = true -> nodeExist g end_ = true ->
  ~ reachable_from g start end_ ->
  findCheapestPath start end_ g = (g, Returns (Some [end_])).
Proof.
  intros Ok Tot Nn Hs He Un.
  pose proof (initial_shape g start Ok Hs) as S0.
  pose proof (previous_inv_init g any_cost start Ok I Hs) as P0.
  destruct (cheapest_loop_total g start Ok Nn Tot end_
              (List.length (unvisited (initial_search g start)))
              (initial_search g start) [] S0 P0 (le_n _))
    as (s & p & El & S & P).
  unfold findCheapestPath, bind, get_graph, lift, ret.
  rewrite Hs, He. cbn [negb orb]. cbv zeta.
  unfold Map in El |- *. rewrite El. cbn [snd].
  assert (Ep : Map_get p end_ = None).
  { destruct (Map_get p end_) as [u|] eqn:E; auto.
    destruct (prev_finite _ _ _ _ _ _ P end_ u E) as [x Ex].
    destruct (prev_chain _ _ _ _ _ _ P end_ x Ex) as (l & x' & _ & W & _).
    exfalso. apply Un. exists l, x'. now apply walk_is_path. }
  cbn [walk_back]. rewrite Ep. destruct (List.length p); reflexivity.
Qed.

(** C8 (as the code behaves). In [island_graph] both keys exist and "B" is
    unreachable from "A", yet the call does not return the sequence of "B"
    alone: after "A" the loop selects "Z", which has no adjacency map, and
    [this.edges.get(curNode).forEach] throws a [TypeError]. *)
Theorem findCheapestPath_throws_without_adjacency_map :
  nodeExist island_graph "A" = true /\
  nodeExist island_graph "B" = true /\
  ~ reachable_from island_graph "A" "B" /\
  findCheapestPath "A" "B" island_graph = (island_graph, Throws TypeError).
Proof.
  split; [reflexivity|]. split; [reflexivity|]. split; [|reflexivity].
  apply no_entries_unreachable; [reflexivity | discriminate].
Qed.

(** C1 (as stated) fails, in two ways.  [apart_graph] has two nodes, no
    negative weight and no path from "A" to "B"; the call returns the
    sequence of "B" alone, which is not a path from "A" to "B", so its
    weight is not the minimum over such paths.  In [detour_graph], of four
    nodes, the call returns the path over "B", of weight [1 + 2 ^ 53],
    although the path over "D" weighs [2 ^ 53]: the sum [1 + 2 ^ 53] is
    rounded to [2 ^ 53], which the later sum [2 ^ 52 + 2 ^ 52] is not
    below. *)
Lemma findCheapestPath_not_a_path :
  ((List.length (nodes apart_graph) <= 8)%nat /\
   nonnegative apart_graph /\
   nodeExist apart_graph "A" = true /\
   nodeExist apart_graph "B" = true /\
   findCheapestPath "A" "B" apart_graph = (apart_graph, Returns (Some ["B"])) /\
   ~ cheapest_path apart_graph "A" "B" ["B"]) /\
  ((List.length (nodes detour_graph) <= 8)%nat /\
   nonnegative detour_graph /\
   findCheapestPath "A" "C" detour_graph
     = (detour_graph, Returns (Some ["A"; "B"; "C"])) /\
   is_path detour_graph "A" "C" ["A"; "B"; "C"] (2 ^ 53 + 1) /\
   is_path detour_graph "A" "C" ["A"; "D"; "C"] (2 ^ 53) /\
   ~ cheapest_path detour_graph "A" "C" ["A"; "B"; "C"]).
Proof.
  split.
  - split; [simpl; lia|]. split; [now apply nonnegativeb_sound|].
    split; [reflexivity|]. split; [reflexivity|]. split; [reflexivity|].
    intros (c & (H & _) & _). discriminate H.
  - assert (P1 : is_path detour_graph "A" "C" ["A"; "B"; "C"] (2 ^ 53 + 1))
      by (repeat split).
    assert (P2 : is_path detour_graph "A" "C" ["A"; "D"; "C"] (2 ^ 53))
      by (repeat split).
    split; [simpl; lia|]. split; [now apply nonnegativeb_sound|].
    split; [reflexivity|]. split; [exact P1|]. split; [exact P2|].
    intros (c & (_ & _ & Hc) & Hmin).
    specialize (Hmin _ _ P2).
    assert (c = 2 ^ 53 + 1).
    { destruct P1 as (_ & _ & Hc'). rewrite Hc in Hc'. now inversion Hc'. }
    subst c. revert Hmin. apply Z.lt_nge. reflexivity.
Qed.

(** C1 (amended). On a graph of any size (so also of at most 8 nodes) with
    non-negative weights that are small enough for no sum along a path to
    be rounded, in which every node has an adjacency map, for existing keys
    [start] and [end_] with [end_] reachable from [start],
    [findCheapestPath] returns a path from [start] to [end_] whose total
    weight is the minimum over all paths from [start] to [end_]; on the
    graph of the scenario, [findCheapestPath(A, C)] returns [A, B, C] and
    [findClosestNReady(A, 1)] returns [B]. *)
Theorem findCheapestPath_cheapest :
  (forall g start end_,
     Graph_ok g -> adjacency_total g -> nonnegative g -> exact_sums g ->
     nodeExist g start = true -> nodeExist g end_ = true ->
     reachable_from g start end_ ->
     exists l, findCheapestPath start end_ g = (g, Returns (Some l)) /\
               cheapest_path g start end_ l) /\
  findCheapestPath "A" "C" scenario
    = (scenario, Returns (Some ["A"; "B"; "C"])) /\
  findClosestNReady "A" (Some 1) scenario
    = (scenario, Returns (Some ["B"])).
Proof.
  split; [|split; reflexivity].
  intros g start end_ Ok Tot Nn (W & Hb) Hs He (l0 & c0 & P0').
  pose proof (initial_search_inv g W start Ok Hb Hs) as I0.
  pose proof (previous_inv_init g eq start Ok eq_refl Hs) as P0.
  destruct (cheapest_loop_returns g W start Ok Nn Hb Tot end_
              (List.length (unvisited (initial_search g start)))
              (initial_search g start) [] I0 P0 (le_n _))
    as (s & p & El & I & P & Hend).
  assert (LB : forall l c, is_path g start end_ l c ->
                 le_fin (Map_get (distances s) end_) c).
  { intros l c Pl. apply is_path_walk in Pl.
    now apply (destination_bound g W start Nn end_ s l c). }
  destruct (LB l0 c0 P0') as (x & Ex & _).
  destruct (prev_chain _ _ _ _ _ _ P end_ x Ex) as (l & x' & C & Wl & <- & ND & _).
  exists l. split.
  - unfold findCheapestPath, bind, get_graph, lift, ret.
    rewrite Hs, He. cbn [negb orb]. cbv zeta.
    unfold Map in El |- *. rewrite El. cbn [snd].
    rewrite (walk_back_chain p end_ l C)
      by (apply (chain_length p end_ l); assumption).
    simpl. now rewrite rev_involutive.
  - exists x. split; [now apply walk_is_path|].
    intros l' c' Pl. destruct (LB l' c' Pl) as (y & Ey & Ly). congruence.
Qed.

Lemma findCheapestPath_cheapest_witness :
  exists l, findCheapestPath "A" "C" scenario = (scenario, Returns (Some l)) /\
            cheapest_path scenario "A" "C" l.
Proof.
  apply (proj1 findCheapestPath_cheapest scenario "A" "C").
  - apply reachable_ok.
    exact (reachable_run
             [ OpAddNode "A" (meta 0 0 false);
               OpAddNode "B" (meta 1 0 true);
               OpAddNode "C" (meta 2 0 true);
               OpAddEdge "A" "B" 3;
               OpAddEdge "B" "C" 4;
               OpAddEdge "A" "C" 10 ] empty_graph reachable_empty).
  - intros k Hk. apply Map_has_In in Hk. apply Map_has_In. exact Hk.
  - now apply nonnegativeb_sound.
  - exists 10. now apply weights_leb_sound.
  - reflexivity.
  - reflexivity.
  - exists ["A"; "C"], 10. repeat split.
Defined.

(** ** The store under guarded use *)

Lemma Map_delete_absent {V} (m : Map V) k :
  Map_has m k = false -> Map_delete m k = m.
Proof.
  unfold Map_has, Map_delete. induction m as [|[k' v] r IH]; simpl; auto.
  destruct (String.eqb k' k) eqn:E; simpl; [discriminate|].
  intros H. now rewrite IH.
Qed.

Lemma Map_has_keys {V W} (m : Map V) (m' : Map W) k :
  Map_keys m = Map_keys m' -> Map_has m k = Map_has m' k.
Proof.
  intros E. destruct (Map_has m' k) eqn:H.
  - apply Map_has_In. rewrite E. now apply Map_has_In.
  - destruct (Map_has m k) eqn:H'; auto.
    apply Map_has_In in H'. rewrite E in H'. apply Map_has_In in H'. congruence.
Qed.

Lemma weight_edges_only g ns a b : weight (mkGraph ns (edges g)) a b = weight g a b.
Proof. reflexivity. Qed.

Lemma adjacency_delete_opt_keys ks ns k n :
  preserves (fun g => Map_keys (edges g) = ks /\ nodes g = ns)
            (adjacency_delete_opt k n).
Proof.
  intros g [Hk Hn]. unfold adjacency_delete_opt, bind, get_graph, set_edges, ret.
  destruct (Map_get (edges g) k) as [m|] eqn:E; simpl; auto.
  split; auto. rewrite Map_keys_set_has; auto.
  unfold Map_has. now rewrite E.
Qed.

Lemma adjacency_set_keys ks ns k n w :
  preserves (fun g => Map_keys (edges g) = ks /\ nodes g = ns)
            (adjacency_set k n w).
Proof.
  intros g [Hk Hn]. destruct (Map_get (edges g) k) as [m|] eqn:E.
  - rewrite (adjacency_set_returns _ _ _ _ _ E). simpl. split; auto.
    rewrite Map_keys_set_has; auto. unfold Map_has. now rewrite E.
  - rewrite adjacency_set_throws; auto.
Qed.

Lemma adjacency_delete_keys ks ns k n :
  preserves (fun g => Map_keys (edges g) = ks /\ nodes g = ns)
            (adjacency_delete k n).
Proof.
  intros g [Hk Hn]. destruct (Map_get (edges g) k) as [m|] eqn:E.
  - rewrite (adjacency_delete_returns _ _ _ _ E). simpl. split; auto.
    rewrite Map_keys_set_has; auto. unfold Map_has. now rewrite E.
  - rewrite adjacency_delete_throws; auto.
Qed.

Lemma edge_call_preserves_keys ks ns c :
  preserves (fun g => Map_keys (edges g) = ks /\ nodes g = ns)
            (run_edge_call c).
Proof.
  set (P := fun g => Map_keys (edges g) = ks /\ nodes g = ns).
  destruct c as [a b w|a b]; simpl.
  - unfold addEdge. apply (preserves_read P). intros g Hg.
    destruct (negb (nodeExist g a) || negb (nodeExist g b)); [exact Hg|].
    revert g Hg.
    apply (preserves_bind P (adjacency_set a b w)
             (fun _ => adjacency_set b a w)); [|intros _];
      apply adjacency_set_keys.
  - unfold deleteEdge. apply (preserves_read P). intros g Hg.
    destruct (negb (nodeExist g a) || negb (nodeExist g b)); [exact Hg|].
    revert g Hg.
    apply (preserves_bind P (adjacency_delete a b)
             (fun _ => adjacency_delete b a)); [|intros _];
      apply adjacency_delete_keys.
Qed.

(** The edge calls never add or remove a node or an adjacency map. *)
Lemma edge_call_keys g c :
  Map_keys (edges (fst (run_edge_call c g))) = Map_keys (edges g) /\
  nodes (fst (run_edge_call c g)) = nodes g.
Proof.
  exact (edge_call_preserves_keys (Map_keys (edges g)) (nodes g) c g
           (conj eq_refl eq_refl)).
Qed.

Lemma deleteNode_unfold g K :
  nodeExist g K = true ->
  deleteNode K g =
  match Map_get (edges g) K with
  | Some adj =>
      let g1 := fst (forEach (Map_keys adj)
                       (fun neighbor => adjacency_delete_opt neighbor K) g) in
      (mkGraph (Map_delete (nodes g1) K) (Map_delete (edges g1) K), Returns tt)
  | None => (mkGraph (Map_delete (nodes g) K) (edges g), Returns tt)
  end.
Proof.
  intros Hx. unfold deleteNode, bind at 1, get_graph. rewrite Hx. simpl.
  destruct (Map_get (edges g) K) as [adj|] eqn:Ea; [|reflexivity].
  destruct (purge_neighbours K (Map_keys adj) g) as (g1 & E1 & _).
  unfold bind, get_graph, set_edges, set_nodes. now rewrite E1.
Qed.

(** What [deleteNode] does on a node: the node and its adjacency map are
    removed, the weights between other keys stay. *)
Lemma deleteNode_effect g K :
  nodeExist g K = true ->
  let g' := fst (deleteNode K g) in
  snd (deleteNode K g) = Returns tt /\
  nodes g' = Map_delete (nodes g) K /\
  Map_keys (edges g') = Map_keys (Map_delete (edges g) K) /\
  (forall a b, a <> K -> b <> K -> weight g' a b = weight g a b) /\
  (forall b, weight g' K b = None).
Proof.
  intros Hx. cbv zeta. rewrite (deleteNode_unfold g K Hx).
  destruct (Map_get (edges g) K) as [adj|] eqn:Ea.
  - destruct (purge_neighbours K (Map_keys adj) g) as (g1 & E1 & N1 & W1).
    pose proof (preserves_forEach
                  (fun g' => Map_keys (edges g') = Map_keys (edges g) /\
                             nodes g' = nodes g) (Map_keys adj)
                  (fun neighbor => adjacency_delete_opt neighbor K)
                  (fun n => adjacency_delete_opt_keys
                              (Map_keys (edges g)) (nodes g) n K)
                  g (conj eq_refl eq_refl)) as [K1 _].
    rewrite E1 in *. cbn [fst snd nodes edges] in *.
    split; [reflexivity|].
    split; [now rewrite N1|]. split; [now rewrite !Map_keys_delete, K1|]. split.
    + intros a b Na Nb. unfold weight at 1. cbn [edges].
      rewrite Map_get_delete_other by congruence.
      specialize (W1 a b). unfold weight at 1 in W1. rewrite W1.
      apply String.eqb_neq in Nb. rewrite Nb. now rewrite andb_false_r.
    + intros b. unfold weight. cbn [edges]. now rewrite Map_get_delete_same.
  - cbn [fst snd nodes edges].
    split; [reflexivity|]. split; [reflexivity|]. split.
    + rewrite Map_delete_absent; auto. unfold Map_has. now rewrite Ea.
    + split; [reflexivity|]. intros b. unfold weight. cbn [edges]. now rewrite Ea.
Qed.

Lemma well_formed_total g : well_formed g -> adjacency_total g.
Proof.
  intros (_ & K & _) k Hk. unfold nodeExist in Hk.
  now rewrite (Map_has_keys (edges g) (nodes g) k K).
Qed.

Lemma nodeExist_same_nodes g g' k :
  nodes g' = nodes g -> nodeExist g' k = nodeExist g k.
Proof. unfold nodeExist. now intros ->. Qed.

Lemma edge_call_well_formed g c :
  well_formed g ->
  snd (run_edge_call c g) = Returns tt /\ well_formed (fst (run_edge_call c g)).
Proof.
  intros W. pose proof (well_formed_total g W) as T.
  destruct W as (Ok & K & S & D).
  destruct (edge_call_keeps_symmetry g c T S) as (R & Hn & T' & S').
  destruct (edge_call_keys g c) as [Hk _].
  split; [exact R|]. split; [|split; [congruence|split; [exact S'|]]].
  - destruct c; simpl; [now apply addEdge_ok | now apply deleteEdge_ok].
  - intros a b w Hw. rewrite (nodeExist_same_nodes _ _ _ Hn).
    destruct c as [s e w0|s e]; simpl in *.
    + destruct (nodeExist g s) eqn:Hs; [destruct (nodeExist g e) eqn:He|].
      * destruct (addEdge_sets_both g s e w0 Hs He (T _ Hs) (T _ He))
          as (g' & E & _ & _ & Hw').
        rewrite E in Hw. simpl in Hw. rewrite Hw' in Hw.
        destruct (String.eqb a s && String.eqb b e) eqn:E1.
        { apply andb_true_iff in E1. destruct E1 as [_ E1]. string_cases. exact He. }
        destruct (String.eqb a e && String.eqb b s) eqn:E2.
        { apply andb_true_iff in E2. destruct E2 as [_ E2]. string_cases. exact Hs. }
        simpl in Hw. eapply D; eauto.
      * rewrite addEdge_absent in Hw by auto. eapply D; eauto.
      * rewrite addEdge_absent in Hw by auto. eapply D; eauto.
    + destruct (nodeExist g s) eqn:Hs; [destruct (nodeExist g e) eqn:He|].
      * destruct (deleteEdge_removes_both g s e Hs He (T _ Hs) (T _ He))
          as (g' & E & _ & _ & Hw').
        rewrite E in Hw. simpl in Hw. rewrite Hw' in Hw.
        destruct ((String.eqb a s && String.eqb b e)
                  || (String.eqb a e && String.eqb b s)); [discriminate|].
        eapply D; eauto.
      * rewrite deleteEdge_absent in Hw by auto. eapply D; eauto.
      * rewrite deleteEdge_absent in Hw by auto. eapply D; eauto.
Qed.

Lemma addNode_new_well_formed g key metadata :
  well_formed g -> nodeExist g key = false ->
  well_formed (fst (addNode key metadata g)).
Proof.
  intros (Ok & K & S & D) Hx.
  assert (He : Map_has (edges g) key = false).
  { now rewrite (Map_has_keys (edges g) (nodes g) key K). }
  assert (Wt : forall a b,
             weight (fst (addNode key metadata g)) a b =
             if String.eqb a key then None else weight g a b).
  { intros a b. simpl. rewrite weight_replace.
    destruct (String.eqb a key); reflexivity. }
  assert (Nk : forall a, weight g a key = None).
  { intros a. destruct (weight g a key) eqn:E; auto.
    apply D in E. congruence. }
  split; [now apply addNode_ok|]. split; [|split].
  - simpl. rewrite !Map_keys_set_new; auto. now rewrite K.
  - intros a b. rewrite !Wt.
    destruct (String.eqb a key) eqn:Ea, (String.eqb b key) eqn:Eb;
      string_cases; auto.
  - intros a b w. rewrite Wt. destruct (String.eqb a key); [discriminate|].
    intros Hw. apply D in Hw. simpl. unfold nodeExist in *. simpl.
    now apply Map_has_set_keeps.
Qed.

Lemma updateNode_well_formed g key metadata :
  well_formed g -> nodeExist g key = true ->
  well_formed (fst (updateNode key metadata g)).
Proof.
  intros (Ok & K & S & D) Hx.
  split; [now apply updateNode_ok|]. split; [|split].
  - simpl. now rewrite Map_keys_set_has.
  - exact S.
  - intros a b w Hw. simpl in *. unfold nodeExist. simpl.
    apply Map_has_set_keeps. eapply D; eauto.
Qed.

Lemma deleteNode_well_formed g K :
  well_formed g -> well_formed (fst (deleteNode K g)).
Proof.
  intros W. destruct (nodeExist g K) eqn:Hx.
  2:{ destruct (deleteNode_spec g K) as (g' & E & Hno & _).
      rewrite E. simpl. now rewrite (Hno Hx). }
  destruct (deleteNode_effect g K Hx) as (_ & Hn & Hk & Hw & HK).
  destruct W as (Ok & K0 & S & D).
  assert (HwK : forall a, weight (fst (deleteNode K g)) a K = None).
  { intros a. destruct (deleteNode_spec g K) as (g' & E & _ & _ & Hs).
    rewrite E. simpl. rewrite (Hs Hx a).
    destruct (Map_get (edges g) K) as [adj|] eqn:Ea.
    - destruct (String.eqb a K) eqn:Ek; simpl; auto.
      destruct (existsb (String.eqb a) (Map_keys adj)) eqn:Ex; auto.
      rewrite (S a K). unfold weight. rewrite Ea.
      apply Map_get_None. intros I. apply existsb_eqb_In in I. congruence.
    - rewrite (S a K). unfold weight. now rewrite Ea. }
  split; [now apply deleteNode_ok|]. split; [|split].
  - rewrite Hk, Hn, !Map_keys_delete. now rewrite K0.
  - intros a b.
    destruct (string_dec a K) as [->|Na]; [now rewrite HK, HwK|].
    destruct (string_dec b K) as [->|Nb]; [now rewrite HK, HwK|].
    rewrite !Hw by auto. apply S.
  - intros a b w Hw'.
    destruct (string_dec a K) as [->|Na]; [rewrite HK in Hw'; discriminate|].
    destruct (string_dec b K) as [->|Nb]; [rewrite HwK in Hw'; discriminate|].
    rewrite Hw in Hw' by auto. apply D in Hw'.
    unfold nodeExist in *. rewrite Hn. unfold Map_has.
    now rewrite Map_get_delete_other by congruence.
Qed.

(** X1. Used as the handlers use it ([addNode] only on a key that is not a
    node, [updateNode] only on one that is), a call of the store on a
    well-formed graph returns without throwing and leaves a well-formed
    graph. *)
Theorem guarded_call_well_formed g op :
  well_formed g -> guarded g op ->
  snd (call op g) = Returns tt /\ well_formed (fst (call op g)).
Proof.
  intros W G. destruct op as [k m|a b w|a b|k|k m]; simpl in *.
  - split; [reflexivity|]. now apply addNode_new_well_formed.
  - exact (edge_call_well_formed g (CallAddEdge a b w) W).
  - exact (edge_call_well_formed g (CallDeleteEdge a b) W).
  - split; [|now apply deleteNode_well_formed].
    destruct (deleteNode_spec g k) as (g' & E & _). now rewrite E.
  - split; [reflexivity|]. now apply updateNode_well_formed.
Qed.

Lemma no_danglingb_sound g : no_danglingb g = true -> no_dangling g.
Proof.
  unfold no_danglingb. rewrite forallb_forall. intros H a b w Hw.
  unfold weight in Hw.
  destruct (Map_get (edges g) a) as [m|] eqn:Ea; [|discriminate].
  apply Map_get_In in Ea. apply Map_get_In in Hw.
  specialize (H _ Ea). simpl in H. rewrite forallb_forall in H.
  exact (H _ Hw).
Qed.

Lemma scenario_reachable : reachable scenario.
Proof.
  exact (reachable_run
           [ OpAddNode "A" (meta 0 0 false);
             OpAddNode "B" (meta 1 0 true);
             OpAddNode "C" (meta 2 0 true);
             OpAddEdge "A" "B" 3;
             OpAddEdge "B" "C" 4;
             OpAddEdge "A" "C" 10 ] empty_graph reachable_empty).
Qed.

Lemma scenario_well_formed : well_formed scenario.
Proof.
  split; [apply reachable_ok, scenario_reachable|].
  split; [reflexivity|].
  split; [now apply symmetricb_sound | now apply no_danglingb_sound].
Qed.

Lemma guarded_call_well_formed_witness :
  snd (call (OpDeleteNode "B") scenario) = Returns tt /\
  well_formed (fst (call (OpDeleteNode "B") scenario)).
Proof.
  apply (guarded_call_well_formed scenario (OpDeleteNode "B")).
  - exact scenario_well_formed.
  - exact I.
Defined.

(** ** The store: how the calls compose *)

(** X2. [deleteNode] on a node returns, removes that node from the node
    mapping and nothing else of it (the other nodes keep their metadata and
    their order), and leaves the weight between any two other keys as it
    was. *)
Theorem deleteNode_frame g K :
  nodeExist g K = true ->
  let g' := fst (deleteNode K g) in
  snd (deleteNode K g) = Returns tt /\
  nodes g' = Map_delete (nodes g) K /\
  (forall k, k <> K -> Map_get (nodes g') k = Map_get (nodes g) k) /\
  (forall a b, a <> K -> b <> K -> weight g' a b = weight g a b) /\
  (forall b, weight g' K b = None).
Proof.
  intros Hx. destruct (deleteNode_effect g K Hx) as (R & Hn & _ & Hw & HK).
  cbv zeta. split; [exact R|]. split; [exact Hn|]. split; [|split; assumption].
  intros k N. rewrite Hn. apply Map_get_delete_other. congruence.
Qed.

Lemma deleteNode_frame_witness :
  nodes (fst (deleteNode "B" scenario)) = Map_delete (nodes scenario) "B" /\
  weight (fst (deleteNode "B" scenario)) "A" "C" = Some 10.
Proof.
  destruct (deleteNode_frame scenario "B" eq_refl) as (_ & Hn & _ & Hw & _).
  split; [exact Hn|]. rewrite Hw; [reflexivity| discriminate | discriminate].
Defined.

Lemma Map_delete_appended {V} (m : Map V) k v :
  Map_has m k = false -> Map_delete (m ++ [(k, v)]) k = m.
Proof.
  intros H. unfold Map_delete. rewrite filter_app. simpl.
  rewrite String.eqb_refl. simpl. rewrite app_nil_r.
  now apply Map_delete_absent.
Qed.

Lemma Map_get_appended {V} (m : Map V) k v :
  Map_has m k = false -> Map_get (m ++ [(k, v)]) k = Some v.
Proof.
  unfold Map_has. induction m as [|[k' v'] r IH]; simpl.
  - now rewrite String.eqb_refl.
  - destruct (String.eqb k' k); [discriminate|]. exact IH.
Qed.

(** X3. [deleteNode] undoes [addNode] of a new key: on a graph that has
    neither the node nor an adjacency map for the key, adding the node and
    deleting it again gives back the same graph, entry for entry. *)
Theorem deleteNode_undoes_addNode g key metadata :
  nodeExist g key = false -> Map_has (edges g) key = false ->
  deleteNode key (fst (addNode key metadata g)) = (g, Returns tt).
Proof.
  intros Hn He.
  assert (E : fst (addNode key metadata g) =
              mkGraph (nodes g ++ [(key, metadata)]) (edges g ++ [(key, [])])).
  { simpl. now rewrite !Map_set_new. }
  rewrite E. rewrite deleteNode_unfold.
  - cbn [edges nodes].
    match goal with |- match ?X with _ => _ end = _ =>
      assert (G : X = Some []) by (apply Map_get_appended; exact He);
      rewrite G
    end.
    simpl. rewrite !Map_delete_appended by assumption. now destruct g.
  - unfold nodeExist, Map_has. cbn [nodes].
    now rewrite (Map_get_appended (nodes g) key metadata Hn).
Qed.

Lemma deleteNode_undoes_addNode_witness :
  deleteNode "D" (fst (addNode "D" (meta 4 4 true) scenario))
  = (scenario, Returns tt).
Proof.
  apply (deleteNode_undoes_addNode scenario "D" (meta 4 4 true));
    reflexivity.
Defined.

(** X4. [deleteEdge] after [addEdge]: between two nodes that have adjacency
    maps both calls return, no entry is left between the pair in either
    direction whatever was there before, and every other weight is as it
    was before the two calls. *)
Theorem deleteEdge_after_addEdge g a b w :
  nodeExist g a = true -> nodeExist g b = true ->
  Map_has (edges g) a = true -> Map_has (edges g) b = true ->
  exists g1 g2,
    addEdge a b w g = (g1, Returns tt) /\
    deleteEdge a b g1 = (g2, Returns tt) /\
    nodes g2 = nodes g /\
    weight g2 a b = None /\ weight g2 b a = None /\
    forall x y, ~ (x = a /\ y = b) -> ~ (x = b /\ y = a) ->
                weight g2 x y = weight g x y.
Proof.
  intros Ha Hb Ma Mb.
  destruct (addEdge_sets_both g a b w Ha Hb Ma Mb) as (g1 & E1 & N1 & K1 & W1).
  assert (Ha1 : nodeExist g1 a = true) by now rewrite (nodeExist_same_nodes _ _ _ N1).
  assert (Hb1 : nodeExist g1 b = true) by now rewrite (nodeExist_same_nodes _ _ _ N1).
  destruct (deleteEdge_removes_both g1 a b Ha1 Hb1 (K1 _ Ma) (K1 _ Mb))
    as (g2 & E2 & N2 & _ & W2).
  exists g1, g2. split; [exact E1|]. split; [exact E2|]. split; [congruence|].
  split; [|split].
  - rewrite W2, !String.eqb_refl. reflexivity.
  - rewrite W2, !String.eqb_refl. simpl. now rewrite orb_true_r.
  - intros x y N1' N2'. rewrite W2, W1.
    destruct (String.eqb x a) eqn:Exa, (String.eqb y b) eqn:Eyb,
      (String.eqb x b) eqn:Exb, (String.eqb y a) eqn:Eya;
      string_cases; simpl; try reflexivity; tauto.
Qed.

Lemma deleteEdge_after_addEdge_witness :
  exists g1 g2,
    addEdge "A" "C" 2 scenario = (g1, Returns tt) /\
    deleteEdge "A" "C" g1 = (g2, Returns tt) /\
    weight g2 "A" "C" = None /\ weight g2 "A" "B" = Some 3.
Proof.
  destruct (deleteEdge_after_addEdge scenario "A" "C" 2
              eq_refl eq_refl eq_refl eq_refl)
    as (g1 & g2 & E1 & E2 & _ & W & _ & F).
  exists g1, g2. split; [exact E1|]. split; [exact E2|]. split; [exact W|].
  rewrite F; [reflexivity | |]; intros [_ H]; discriminate H.
Defined.

(** X5. [addEdge] is undirected and overwrites: between two nodes that have
    adjacency maps, [addEdge(a, b, w)] and [addEdge(b, a, w)] leave the same
    weight between every pair of keys, and a second [addEdge] on the pair
    leaves the weights of that second call alone. *)
Theorem addEdge_undirected_overwrites g a b w w' :
  nodeExist g a = true -> nodeExist g b = true ->
  Map_has (edges g) a = true -> Map_has (edges g) b = true ->
  (forall x y, weight (fst (addEdge a b w g)) x y
               = weight (fst (addEdge b a w g)) x y) /\
  (forall x y, weight (fst (addEdge a b w' (fst (addEdge a b w g)))) x y
               = weight (fst (addEdge a b w' g)) x y) /\
  snd (addEdge a b w' (fst (addEdge a b w g))) = Returns tt.
Proof.
  intros Ha Hb Ma Mb.
  destruct (addEdge_sets_both g a b w Ha Hb Ma Mb) as (g1 & E1 & N1 & K1 & W1).
  destruct (addEdge_sets_both g b a w Hb Ha Mb Ma) as (g2 & E2 & _ & _ & W2).
  destruct (addEdge_sets_both g a b w' Ha Hb Ma Mb) as (g3 & E3 & _ & _ & W3).
  assert (Ha1 : nodeExist g1 a = true) by now rewrite (nodeExist_same_nodes _ _ _ N1).
  assert (Hb1 : nodeExist g1 b = true) by now rewrite (nodeExist_same_nodes _ _ _ N1).
  destruct (addEdge_sets_both g1 a b w' Ha1 Hb1 (K1 _ Ma) (K1 _ Mb))
    as (g4 & E4 & _ & _ & W4).
  rewrite E1, E2, E3. cbn [fst]. rewrite E4. cbn [fst snd].
  split; [|split; [|reflexivity]]; intros x y.
  - rewrite W1, W2.
    destruct (String.eqb x a && String.eqb y b),
      (String.eqb x b && String.eqb y a); reflexivity.
  - rewrite W4, W3, W1.
    destruct ((String.eqb x a && String.eqb y b)
              || (String.eqb x b && String.eqb y a)); reflexivity.
Qed.

Lemma addEdge_undirected_overwrites_witness :
  weight (fst (addEdge "A" "B" 7 (fst (addEdge "A" "B" 5 scenario)))) "B" "A"
  = weight (fst (addEdge "A" "B" 7 scenario)) "B" "A".
Proof.
  destruct (addEdge_undirected_overwrites scenario "A" "B" 5 7
              eq_refl eq_refl eq_refl eq_refl) as (_ & H & _).
  apply H.
Defined.

Lemma Map_set_set {V} (m : Map V) k v v' :
  Map_set (Map_set m k v) k v' = Map_set m k v'.
Proof.
  induction m as [|[k0 v0] r IH]; simpl.
  - now rewrite String.eqb_refl.
  - destruct (String.eqb k0 k) eqn:E; simpl; rewrite E; auto.
    now rewrite IH.
Qed.

Lemma Map_set_same {V} (m : Map V) k v :
  Map_get m k = Some v -> Map_set m k v = m.
Proof.
  induction m as [|[k0 v0] r IH]; simpl; [discriminate|].
  destruct (String.eqb k0 k) eqn:E.
  - now intros [= ->].
  - intros H. now rewrite IH.
Qed.

(** X6. The toggle of the "k" key is its own inverse: on a node whose
    metadata has the flag, [updateNode] with the negated flag flips
    [isReadyForPickup] and keeps the coordinates, the order of the nodes and
    every adjacency map; doing it again gives back the same graph. *)
Theorem updateNode_toggle_twice g key node r :
  Map_get (nodes g) key = Some node -> isReadyForPickup node = Some r ->
  let g1 := fst (updateNode key (toggled node) g) in
  exists node1,
    Map_get (nodes g1) key = Some node1 /\
    node1 = mkMeta (x node) (y node) (Some (negb r)) /\
    Map_keys (nodes g1) = Map_keys (nodes g) /\
    edges g1 = edges g /\
    updateNode key (toggled node1) g1 = (g, Returns tt).
Proof.
  intros Hg Hr. cbv zeta.
  assert (R : ready node = r) by (unfold ready; rewrite Hr; now destruct r).
  exists (mkMeta (x node) (y node) (Some (negb r))).
  unfold updateNode, bind, get_graph, set_nodes. cbn [fst snd nodes edges].
  rewrite Hg. unfold toggled at 1 2. rewrite R. cbn [spread x y isReadyForPickup].
  rewrite !Map_get_set_same.
  split; [reflexivity|]. split; [reflexivity|]. split.
  { apply Map_keys_set_has. unfold Map_has. now rewrite Hg. }
  split; [reflexivity|].
  rewrite Map_set_set. unfold toggled, ready. cbn [spread x y isReadyForPickup].
  replace (negb (if negb r then true else false)) with r by now destruct r.
  rewrite Map_set_same; [now destruct g|].
  rewrite Hg. f_equal. destruct node as [px py pr]. simpl in *. now subst.
Qed.

Lemma updateNode_toggle_twice_witness :
  exists node1,
    Map_get (nodes (fst (updateNode "B" (toggled (meta 1 0 true)) scenario))) "B"
      = Some node1 /\
    updateNode "B" (toggled node1)
      (fst (updateNode "B" (toggled (meta 1 0 true)) scenario))
    = (scenario, Returns tt).
Proof.
  destruct (updateNode_toggle_twice scenario "B" (meta 1 0 true) true
              eq_refl eq_refl) as (node1 & H1 & _ & _ & _ & H2).
  exists node1. split; [exact H1 | exact H2].
Defined.

(** ** Pathfinder: the first selection *)

Lemma Map_of_entries_Infinity {V} (l : Map V) v :
  Map_get (Map_of_entries (map (fun e => (fst e, Infinity)) l)) v =
  if Map_has l v then Some Infinity else None.
Proof.
  unfold Map_of_entries.
  assert (G : forall (acc : Map num),
             (forall k, Map_get acc k = None \/ Map_get acc k = Some Infinity) ->
             Map_get
               (fold_left (fun m e => Map_set m (fst e) (snd e))
                          (map (fun e => (fst e, Infinity)) l) acc) v =
             if Map_has l v then Some Infinity else Map_get acc v).
  { induction l as [|[k m] r IH]; intros acc Hacc; simpl; auto.
    rewrite IH.
    - unfold Map_has. simpl. destruct (String.eqb k v) eqn:E; string_cases.
      + destruct (Map_get r v); auto. apply Map_get_set_same.
      + destruct (Map_get r v); auto. now apply Map_get_set_other.
    - intros k'. destruct (String.eqb k k') eqn:E; string_cases.
      + right. apply Map_get_set_same.
      + rewrite Map_get_set_other by exact E. apply Hacc. }
  rewrite G; [destruct (Map_has l v); reflexivity|]. intros k. now left.
Qed.

(** A key at a finite distance among keys at [Infinity] is the one
    selected. *)
Lemma minNode_finite (d : Map num) (u : JSSet) c z :
  In c u -> Map_get d c = Some (Fin z) ->
  (forall v, In v u -> v <> c -> Map_get d v = Some Infinity) ->
  minNode d u = Some c.
Proof.
  intros Hc Dc Hinf.
  set (f := fun minNode node =>
              if js_lt (Map_get d node) (Map_get d minNode)
              then node else minNode).
  assert (A : forall l, (forall v, In v l -> v <> c -> Map_get d v = Some Infinity) ->
                fold_left f l c = c).
  { induction l as [|n l IH]; intros H; simpl; auto.
    unfold f at 2. destruct (string_dec n c) as [->|N].
    - rewrite js_lt_irrefl. apply IH. intros v Hv. apply H. now right.
    - rewrite (H n (or_introl eq_refl) N), Dc. simpl.
      apply IH. intros v Hv. apply H. now right. }
  assert (B : forall l acc,
                Map_get d acc = Some Infinity -> In c l ->
                (forall v, In v l -> v <> c -> Map_get d v = Some Infinity) ->
                fold_left f l acc = c).
  { induction l as [|n l IH]; intros acc Da Hin H; [destruct Hin|]. simpl.
    unfold f at 2. destruct (string_dec n c) as [->|N].
    - rewrite Dc, Da. simpl. apply A. intros v Hv. apply H. now right.
    - rewrite (H n (or_introl eq_refl) N), Da. simpl.
      destruct Hin as [->|Hin]; [congruence|].
      apply IH; auto. intros v Hv. apply H. now right. }
  destruct u as [|k r]; [destruct Hc|]. simpl. f_equal. fold f.
  destruct (string_dec k c) as [->|N].
  - apply A. intros v Hv. apply Hinf. now right.
  - destruct Hc as [->|Hc]; [congruence|].
    apply B; auto.
    + apply Hinf; [now left | exact N].
    + intros v Hv. apply Hinf. now right.
Qed.

(** On entry of either loop the start is the key selected. *)
Lemma initial_minNode g start :
  nodeExist g start = true ->
  In start (unvisited (initial_search g start)) /\
  minNode (distances (initial_search g start))
          (unvisited (initial_search g start)) = Some start.
Proof.
  intros Hs. destruct (Set_of_list_spec (Map_keys (nodes g))) as [_ HIn].
  assert (Hin : In start (unvisited (initial_search g start))).
  { apply HIn. now apply Map_has_In. }
  split; [exact Hin|].
  apply minNode_finite with 0; auto.
  - apply Map_get_set_same.
  - intros v Hv N. simpl. rewrite Map_get_set_other by congruence.
    rewrite Map_of_entries_Infinity.
    apply HIn in Hv. apply Map_has_In in Hv. now rewrite Hv.
Qed.

(** X8. For every graph and every existing key, the cheapest path from the
    key to itself is the sequence of that key alone: the loop stops at its
    first selection, before any adjacency map is read. *)
Theorem findCheapestPath_to_itself g start :
  nodeExist g start = true ->
  findCheapestPath start start g = (g, Returns (Some [start])).
Proof.
  intros Hs. destruct (initial_minNode g start Hs) as [Hin Hm].
  unfold findCheapestPath, bind, get_graph, lift, ret.
  rewrite Hs. cbn [negb orb]. cbv zeta.
  destruct (unvisited (initial_search g start)) as [|k r] eqn:E; [destruct Hin|].
  cbn [List.length cheapest_loop fst]. rewrite E, Hm, String.eqb_refl.
  reflexivity.
Qed.

Lemma findCheapestPath_to_itself_witness :
  findCheapestPath "Z" "Z" orphan_graph = (orphan_graph, Returns (Some ["Z"])).
Proof. apply (findCheapestPath_to_itself orphan_graph "Z"). reflexivity. Defined.

(** X7. [updateNode] on a key that is not a node makes it a node with
    exactly the metadata given, creates no adjacency map and touches
    nothing else.  When the graph held no adjacency map for the key, every
    search that starts from that key then throws a [TypeError]:
    [findClosestNReady] always, [findCheapestPath] for every other
    destination that exists. *)
Theorem updateNode_absent_key g key metadata :
  nodeExist g key = false ->
  let g' := fst (updateNode key metadata g) in
  snd (updateNode key metadata g) = Returns tt /\
  nodes g' = nodes g ++ [(key, metadata)] /\
  edges g' = edges g /\
  (Map_has (edges g) key = false ->
   (forall n, findClosestNReady key n g' = (g', Throws TypeError)) /\
   (forall end_, end_ <> key -> nodeExist g' end_ = true ->
      findCheapestPath key end_ g' = (g', Throws TypeError))).
Proof.
  intros Hn. cbv zeta.
  assert (E : fst (updateNode key metadata g) =
              mkGraph (nodes g ++ [(key, metadata)]) (edges g)).
  { assert (Gn : Map_get (nodes g) key = None).
    { unfold nodeExist, Map_has in Hn.
      destruct (Map_get (nodes g) key); [discriminate | reflexivity]. }
    unfold updateNode, bind, get_graph, set_nodes. cbn [fst].
    rewrite Gn. cbn [spread]. now rewrite Map_set_new by exact Hn. }
  rewrite E. set (g' := mkGraph (nodes g ++ [(key, metadata)]) (edges g)).
  assert (Hx : nodeExist g' key = true).
  { unfold nodeExist, Map_has, g'. cbn [nodes].
    now rewrite (Map_get_appended (nodes g) key metadata Hn). }
  split; [reflexivity|]. split; [reflexivity|]. split; [reflexivity|].
  intros He.
  assert (Ha : Map_get (edges g') key = None).
  { unfold Map_has in He. cbn [edges g'].
    destruct (Map_get (edges g) key); [discriminate | reflexivity]. }
  destruct (initial_minNode g' key Hx) as [Hin Hm].
  split.
  - intros n. unfold findClosestNReady, bind, get_graph, lift, ret.
    rewrite Hx. cbn [negb]. cbv zeta.
    destruct (unvisited (initial_search g' key)) as [|k r] eqn:Eu; [destruct Hin|].
    cbn [List.length closest_loop]. rewrite Eu, Hm, Ha. reflexivity.
  - intros end_ Ne Hend. unfold findCheapestPath, bind, get_graph, lift, ret.
    rewrite Hx, Hend. cbn [negb orb]. cbv zeta.
    destruct (unvisited (initial_search g' key)) as [|k r] eqn:Eu; [destruct Hin|].
    cbn [List.length cheapest_loop fst]. rewrite Eu, Hm.
    assert (Q : String.eqb key end_ = false) by (apply String.eqb_neq; congruence).
    rewrite Q, Ha. reflexivity.
Qed.

Lemma updateNode_absent_key_witness :
  findClosestNReady "Q" (Some 3)
    (fst (updateNode "Q" (meta 3 3 true) scenario))
  = (fst (updateNode "Q" (meta 3 3 true) scenario), Throws TypeError).
Proof.
  destruct (updateNode_absent_key scenario "Q" (meta 3 3 true) eq_refl)
    as (_ & _ & _ & H).
  destruct (H eq_refl) as [H1 _]. apply H1.
Defined.

(** ** Pathfinder: what the queries return *)

Lemma walk_nodes g s v l c :
  walk g s v l c -> forall k, In k l -> nodeExist g k = true.
Proof.
  induction 1 as [Hs|u v l c w W IH Hv Hw]; intros k Hk.
  - destruct Hk as [<-|[]]. exact Hs.
  - apply in_app_or in Hk. destruct Hk as [Hk|[<-|[]]]; auto.
Qed.

Lemma findCheapestPath_total g start end_ :
  Graph_ok g -> adjacency_total g -> nonnegative g ->
  exists r,
    findCheapestPath start end_ g = (g, Returns r) /\
    (r = None <-> nodeExist g start = false \/ nodeExist g end_ = false) /\
    forall l, r = Some l ->
      NoDup l /\ last l start = end_ /\
      (forall k, In k l -> nodeExist g k = true) /\
      (l = [end_] \/ exists c, is_path g start end_ l c).
Proof.
  intros Ok Tot Nn.
  destruct (nodeExist g start) eqn:Hs; [destruct (nodeExist g end_) eqn:He|].
  2,3: exists None; unfold findCheapestPath, bind, get_graph, lift, ret;
       rewrite ?Hs, ?He; cbn [negb orb]; rewrite ?orb_true_r;
       (split; [reflexivity|]); (split; [tauto|]); intros l H; discriminate H.
  pose proof (initial_shape g start Ok Hs) as S0.
  pose proof (previous_inv_init g any_cost start Ok I Hs) as P0.
  destruct (cheapest_loop_total g start Ok Nn Tot end_
              (List.length (unvisited (initial_search g start)))
              (initial_search g start) [] S0 P0 (le_n _))
    as (s & p & El & Sh & P).
  assert (Unf : forall path,
            walk_back p (S (List.length p)) (Some end_) [] = Returns path ->
            findCheapestPath start end_ g = (g, Returns (Some (rev path)))).
  { intros path Hp. unfold findCheapestPath, bind, get_graph, lift, ret.
    rewrite Hs, He. cbn [negb orb]. cbv zeta.
    unfold Map in El |- *. rewrite El. cbn [snd].
    unfold Map in Hp. now rewrite Hp. }
  destruct (Map_get (distances s) end_) as [[z| |]|] eqn:Ed.
  - destruct (prev_chain _ _ _ _ _ _ P end_ z Ed)
      as (l & z' & C & W & _ & ND & _).
    exists (Some l). split.
    + rewrite <- (rev_involutive l). apply Unf.
      rewrite (walk_back_chain p end_ l C)
        by (apply (chain_length p end_ l); assumption).
      reflexivity.
    + split; [split; [discriminate | intros [H|H]; discriminate H]|].
      intros l' [= <-]. split; [exact ND|].
      pose proof (walk_is_path _ _ _ _ _ W) as Pth.
      split; [apply Pth|]. split; [eapply walk_nodes; eauto|].
      right. now exists z'.
  - assert (Ep : Map_get p end_ = None).
    { destruct (Map_get p end_) as [u|] eqn:E; auto.
      destruct (prev_finite _ _ _ _ _ _ P end_ u E) as [z Ez]. congruence. }
    exists (Some [end_]). split.
    + apply (Unf [end_]). cbn [walk_back]. rewrite Ep.
      destruct (List.length p); reflexivity.
    + split; [split; [discriminate | intros [H|H]; discriminate H]|].
      intros l' [= <-]. split; [repeat constructor; simpl; tauto|].
      split; [reflexivity|]. split; [|now left].
      intros k [<-|[]]. exact He.
  - exfalso. exact (sh_noneg _ _ Sh end_ Ed).
  - exfalso. exact (sh_dist _ _ Sh end_ He Ed).
Qed.

(** X9. On a graph with non-negative weights in which every node has an
    adjacency map, [findCheapestPath] always returns: [undefined] exactly
    when a key is missing, and otherwise a sequence of distinct node keys
    that ends with the destination and is either the destination alone or a
    path from [start] to it. *)
Theorem findCheapestPath_returns g start end_ :
  Graph_ok g -> adjacency_total g -> nonnegative g ->
  exists r,
    findCheapestPath start end_ g = (g, Returns r) /\
    (r = None <-> nodeExist g start = false \/ nodeExist g end_ = false) /\
    forall l, r = Some l ->
      NoDup l /\ last l start = end_ /\
      (forall k, In k l -> nodeExist g k = true) /\
      (l = [end_] \/ exists c, is_path g start end_ l c).
Proof. apply findCheapestPath_total. Qed.

Lemma findCheapestPath_returns_witness :
  exists r, findCheapestPath "C" "A" scenario = (scenario, Returns r) /\
            (r = None <-> nodeExist scenario "C" = false
                          \/ nodeExist scenario "A" = false).
Proof.
  destruct (findCheapestPath_returns scenario "C" "A") as (r & H1 & H2 & _).
  - apply reachable_ok, scenario_reachable.
  - apply well_formed_total, scenario_well_formed.
  - now apply nonnegativeb_sound.
  - exists r. split; [exact H1 | exact H2].
Defined.

(** X10. Asking [findClosestNReady] for fewer keys gives a prefix: if the
    call with [m] returns [l], the call with [n <= m] returns the first [n]
    keys of [l]. *)
Theorem findClosestNReady_prefix g start (n m : nat) l :
  (n <= m)%nat ->
  findClosestNReady start (Some (Z.of_nat m)) g = (g, Returns (Some l)) ->
  findClosestNReady start (Some (Z.of_nat n)) g
  = (g, Returns (Some (firstn n l))).
Proof.
  intros L. unfold findClosestNReady, bind, get_graph, lift, ret.
  destruct (negb (nodeExist g start)); [discriminate|].
  destruct (closest_loop _ _ _) as [s| | |]; try discriminate.
  rewrite !slice0_count.
  intros [= <-]. do 3 f_equal.
  rewrite !firstn_map, firstn_firstn. now rewrite Nat.min_l.
Qed.

Lemma findClosestNReady_prefix_witness :
  findClosestNReady "A" (Some (Z.of_nat 1)) scenario
  = (scenario, Returns (Some (firstn 1 ["B"; "C"]))).
Proof.
  apply (findClosestNReady_prefix scenario "A" 1 2 ["B"; "C"]).
  - repeat constructor.
  - reflexivity.
Defined.

Lemma insert_by_Permutation d a l : Permutation (insert_by d a l) (a :: l).
Proof.
  induction l as [|b r IH]; simpl; auto.
  destruct (js_sub_sign _ _ <=? 0); auto.
  rewrite IH. apply perm_swap.
Qed.

Lemma sort_by_Permutation d l : Permutation (sort_by d l) l.
Proof.
  induction l as [|a r IH]; simpl; auto.
  rewrite insert_by_Permutation. now constructor.
Qed.

Lemma NoDup_keys_filter {V} (f : string * V -> bool) (l : Map V) :
  NoDup (map fst l) -> NoDup (map fst (filter f l)).
Proof.
  induction l as [|a r IH]; simpl; auto.
  intros ND. inversion ND as [|? ? NI ND']; subst.
  destruct (f a); simpl; auto. constructor; auto.
  intros H. apply NI. apply in_map_iff in H. destruct H as (e & E & He).
  apply filter_In in He. apply in_map_iff. exists e. tauto.
Qed.

Lemma NoDup_firstn {A} (n : nat) (l : list A) : NoDup l -> NoDup (firstn n l).
Proof.
  intros ND. revert n. induction ND as [|a l NI ND IH]; intros [|n]; simpl;
    try constructor; auto.
  intros H. apply NI. eapply In_firstn; eauto.
Qed.

(** X11. On a graph with non-negative weights in which every node has an
    adjacency map, [findClosestNReady(start, n)] on an existing [start]
    returns distinct keys, and exactly as many as there are ready nodes, up
    to [n]. *)
Theorem findClosestNReady_count g start (n : nat) :
  Graph_ok g -> adjacency_total g -> nonnegative g ->
  nodeExist g start = true ->
  exists l,
    findClosestNReady start (Some (Z.of_nat n)) g
      = (g, Returns (Some l)) /\
    NoDup l /\
    List.length l
      = Nat.min n (List.length (filter (fun e => ready (snd e)) (nodes g))).
Proof.
  intros Ok Tot Nn Hs.
  destruct (closest_loop_total g Tot
              (List.length (unvisited (initial_search g start)))
              (initial_search g start)
              (sh_nodes _ _ (initial_shape g start Ok Hs)) (le_n _))
    as (s & El).
  eexists. split; [|split].
  - unfold findClosestNReady, bind, get_graph, lift, ret.
    rewrite Hs. cbn [negb]. cbv zeta. rewrite El, slice0_count. reflexivity.
  - rewrite <- firstn_map. apply NoDup_firstn.
    apply (Permutation_NoDup
             (l := map fst (filter (fun e => ready (snd e)) (nodes g)))).
    + apply Permutation_map. symmetry. apply sort_by_Permutation.
    + apply NoDup_keys_filter. apply Ok.
  - rewrite length_map, length_firstn.
    now rewrite (Permutation_length (sort_by_Permutation _ _)).
Qed.

Lemma findClosestNReady_count_witness :
  exists l,
    findClosestNReady "A" (Some (Z.of_nat 5)) scenario
      = (scenario, Returns (Some l)) /\
    NoDup l /\ List.length l = 2%nat.
Proof.
  apply (findClosestNReady_count scenario "A" 5).
  - apply reachable_ok, scenario_reachable.
  - apply well_formed_total, scenario_well_formed.
  - now apply nonnegativeb_sound.
  - reflexivity.
Defined.

(** ** Codec: what a load leaves *)

Lemma Map_ext {V} (m1 : Map V) : forall m2 : Map V,
  Map_ok m1 -> Map_keys m1 = Map_keys m2 ->
  (forall k, Map_get m1 k = Map_get m2 k) -> m1 = m2.
Proof.
  induction m1 as [|[k v] r IH]; intros [|[k' v'] r'] Ok K G; simpl in *;
    try discriminate; auto.
  inversion K; subst k'. inversion Ok as [|? ? NI Ok']; subst.
  pose proof (G k) as Gk. simpl in Gk. rewrite String.eqb_refl in Gk.
  inversion Gk; subst v'. f_equal. apply IH; auto.
  intros k0. specialize (G k0). simpl in G.
  destruct (String.eqb k k0) eqn:E; auto. string_cases.
  assert (Map_get r k0 = None) as -> by now apply Map_get_None.
  symmetry. apply Map_get_None. now rewrite <- H1.
Qed.

Lemma fold_set_keys_new {A B} (c : A -> B) (l : list (string * A)) :
  forall acc : Map B,
    NoDup (Map_keys acc ++ map fst l) ->
    Map_keys (fold_left (fun E e => Map_set E (fst e) (c (snd e))) l acc)
    = Map_keys acc ++ map fst l.
Proof.
  induction l as [|[k a] r IH]; intros acc ND; simpl.
  - now rewrite app_nil_r.
  - assert (H : Map_has acc k = false).
    { destruct (Map_has acc k) eqn:E; auto. apply Map_has_In in E.
      apply NoDup_remove_2 in ND. exfalso. apply ND.
      apply in_or_app. now left. }
    rewrite IH; rewrite (Map_keys_set_new acc k (c a) H), <- app_assoc; auto.
Qed.

Lemma fold_set_keys_held {A B} (c : A -> B) (l : list (string * A)) :
  forall acc : Map B,
    (forall e, In e l -> Map_has acc (fst e) = true) ->
    Map_keys (fold_left (fun E e => Map_set E (fst e) (c (snd e))) l acc)
    = Map_keys acc.
Proof.
  induction l as [|[k a] r IH]; intros acc H; simpl; auto.
  rewrite IH.
  - apply Map_keys_set_has. apply (H (k, a)). now left.
  - intros e He. apply Map_has_set_keeps. apply H. now right.
Qed.

(** The store [fromJSON] builds from the text of [toJSON], whatever the
    graph. *)
Lemma fromJSON_toJSON_explicit g g0 :
  exists str G,
    toJSON g = (g, Returns str) /\
    fromJSON str g0 = (G, Returns tt, []) /\
    nodes G = fold_left (fun m e => Map_set m (fst e) (snd e)) (nodes g) [] /\
    edges G =
      fold_left (fun E e => Map_set E (fst e) (Map_of_entries (snd e)))
        (edges g)
        (fold_left (fun E e => Map_set E (fst e) ((fun _ => []) (snd e)))
           (nodes g) []).
Proof.
  exists (JSON_stringify
            (JObj [("nodes", JArr (map json_of_node (nodes g)));
                   ("edges", JArr (map json_of_adjacency (edges g)))])).
  eexists. split; [reflexivity|].
  unfold fromJSON, fromJSON_try, bind, lift; simpl.
  rewrite load_nodes_round_trip.
  rewrite load_adjacencies_round_trip.
  split; [reflexivity|].
  match goal with |- context [fold_left ?F (edges g) ?G] =>
    destruct (load_adjacencies_fold (edges g) G) as [N2 E2]
  end.
  match goal with |- context [fold_left ?F (nodes g) ?G] =>
    destruct (load_nodes_fold (nodes g) G) as [N1 E1]
  end.
  cbv zeta in *. rewrite N2, E2, N1, E1. split; reflexivity.
Qed.

Lemma fromJSON_toJSON_exact g g0 :
  Graph_ok g -> Map_keys (edges g) = Map_keys (nodes g) ->
  exists str,
    toJSON g = (g, Returns str) /\
    fromJSON str g0 = (g, Returns tt, []).
Proof.
  intros (On & Oe & Oi) K.
  destruct (fromJSON_toJSON_explicit g g0) as (str & G & Ht & Hf & HN & HE).
  exists str. split; [exact Ht|]. rewrite Hf. do 2 f_equal.
  destruct G as [Gn Ge]. cbn [nodes edges] in HN, HE. subst Gn Ge.
  assert (N : fold_left (fun m e => Map_set m (fst e) (snd e)) (nodes g) []
              = nodes g) by apply (Map_of_entries_ok (nodes g) On).
  assert (K1 : Map_keys
                 (fold_left (fun E e => Map_set E (fst e)
                                          ((fun _ => @nil (string * Z)) (snd e)))
                    (nodes g) []) = Map_keys (nodes g)).
  { rewrite (fold_set_keys_new (fun _ : NodeMetadata => @nil (string * Z)));
      simpl; auto. }
  rewrite N. destruct g as [ns es]. simpl in *. f_equal.
  symmetry. apply Map_ext; auto.
  - rewrite (fold_set_keys_held Map_of_entries).
    + exact (eq_trans K (eq_sym K1)).
    + intros e He. apply Map_has_In.
      pose proof (in_map fst _ _ He) as Hin.
      change (In (fst e) (Map_keys es)) in Hin.
      rewrite K, <- K1 in Hin. exact Hin.
  - intros k. rewrite (Map_get_fold_set Map_of_entries) by exact Oe.
    unfold Map in *.
    destruct (@Map_get (list (string * Z)) es k) as [m|] eqn:E.
    + rewrite Map_of_entries_ok by exact (Oi _ _ E). reflexivity.
    + rewrite (Map_get_fold_set (fun _ : NodeMetadata => @nil (string * Z)))
        by exact On.
      destruct (Map_get ns k) eqn:E'; auto.
      exfalso. apply Map_get_None in E. apply E. rewrite K.
      apply Map_has_In. unfold Map_has. now rewrite E'.
Qed.

(** X12. On a graph made of proper maps whose adjacency maps are those of
    its nodes, in the same order (as the store keeps them under guarded
    use), [fromJSON] on the text of [toJSON] gives back the same graph,
    entry for entry and in the same order, whatever graph it is called
    on. *)
Theorem fromJSON_toJSON_identity g g0 :
  Graph_ok g -> Map_keys (edges g) = Map_keys (nodes g) ->
  exists str,
    toJSON g = (g, Returns str) /\
    fromJSON str g0 = (g, Returns tt, []).
Proof. apply fromJSON_toJSON_exact. Qed.

Lemma fromJSON_toJSON_identity_witness :
  exists str,
    toJSON scenario = (scenario, Returns str) /\
    fromJSON str tie_graph = (scenario, Returns tt, []).
Proof.
  apply (fromJSON_toJSON_identity scenario tie_graph).
  - apply reachable_ok, scenario_reachable.
  - reflexivity.
Defined.

(** X13. A load whose text passes the validation (top-level [nodes] and
    [edges] are arrays) does not depend on the graph it is called on: the
    store it leaves, what it returns and what it logs are the same for any
    two previous graphs, also when the rebuild stops half-way. *)
Theorem fromJSON_forgets_previous data g0 g1 :
  is_array_field data "nodes" = true ->
  is_array_field data "edges" = true ->
  fromJSON (Stringified data) g0 = fromJSON (Stringified data) g1.
Proof.
  unfold is_array_field. destruct data; try discriminate.
  intros Hn He.
  unfold fromJSON, fromJSON_try, bind, lift, JSON_parse, property.
  destruct (Map_get (rev fields) "nodes") as [[| | | | ln |]|]; try discriminate.
  destruct (Map_get (rev fields) "edges") as [[| | | | le |]|]; try discriminate.
  reflexivity.
Qed.

Lemma fromJSON_forgets_previous_witness :
  fromJSON dangling_text scenario = fromJSON dangling_text tie_graph.
Proof.
  apply (fromJSON_forgets_previous
           (JObj [("nodes", JArr [JArr [JStr "A"; JObj [("x", JNum 0); ("y", JNum 0)]]]);
                  ("edges", JArr [JArr [JStr "A"; JArr [JArr [JStr "K"; JNum 1]]];
                                  JArr [JStr "K"; JArr [JArr [JStr "A"; JNum 1]]]])]));
    reflexivity.
Defined.

Lemma forEach_app {A} (l1 l2 : list A) (f : A -> M unit) g g1 :
  forEach l1 f g = (g1, Returns tt) ->
  forEach (l1 ++ l2) f g = forEach l2 f g1.
Proof.
  revert g. induction l1 as [|a l1 IH]; intros g; simpl.
  - unfold ret. now intros [= ->].
  - unfold bind. destruct (f a g) as [g' [[]| | |]]; try discriminate.
    apply IH.
Qed.

Lemma run_addNode_fold (l : list (string * NodeMetadata)) : forall g,
  fold_left (fun g e => mkGraph (Map_set (nodes g) (fst e) (snd e))
                                (Map_set (edges g) (fst e) [])) l g
  = run_ops (map (fun e => addNode (fst e) (snd e)) l) g.
Proof.
  unfold run_ops. induction l as [|e l IH]; intros g; simpl; auto.
Qed.

(** X14. The rebuild is not atomic: when the text passes the validation
    and an entry of [nodes] is not iterable ([null], a boolean, a number,
    an object), [fromJSON] has already cleared the graph; it leaves the
    nodes of the entries before the bad one, each with an empty adjacency
    map, loads no adjacency map, logs a [TypeError] and returns normally. *)
Theorem fromJSON_partial_rebuild g0 good bad rest edges_ :
  destructure bad = Throws TypeError ->
  fromJSON
    (Stringified
       (JObj [("nodes", JArr (map json_of_node good ++ bad :: rest));
              ("edges", JArr edges_)])) g0
  = (run_ops (map (fun e => addNode (fst e) (snd e)) good) empty_graph,
     Returns tt, [TypeError]).
Proof.
  intros Hb. unfold fromJSON, fromJSON_try, bind at 1 2 3 4 5, lift; simpl.
  unfold bind at 1 2. simpl.
  unfold bind at 1.
  rewrite (forEach_app (map json_of_node good) (bad :: rest) load_node _ _
             (load_nodes_round_trip good _)).
  simpl. unfold bind at 1. unfold load_node at 1. unfold bind at 1, lift.
  rewrite Hb. rewrite run_addNode_fold. reflexivity.
Qed.

Lemma fromJSON_partial_rebuild_witness :
  fromJSON
    (Stringified
       (JObj [("nodes", JArr (map json_of_node [("A", meta 0 0 false)]
                              ++ JNull :: [json_of_node ("B", meta 1 0 true)]));
              ("edges", JArr [])])) scenario
  = (run_ops [addNode "A" (meta 0 0 false)] empty_graph,
     Returns tt, [TypeError]).
Proof.
  apply (fromJSON_partial_rebuild scenario [("A", meta 0 0 false)] JNull
           [json_of_node ("B", meta 1 0 true)] []).
  reflexivity.
Defined.

(** ** The application: [calculateWeight] *)

Lemma sqrt_sum_squares a b :
  0 <= a -> 0 <= b ->
  Z.max a b <= Z.sqrt (a * a + b * b) <= a + b /\
  (Z.sqrt (a * a + b * b) = 0 <-> a = 0 /\ b = 0).
Proof.
  intros Ha Hb.
  assert (Hn : 0 <= a * a + b * b) by nia.
  pose proof (Z.sqrt_spec _ Hn) as S. cbv zeta in S.
  pose proof (Z.sqrt_nonneg (a * a + b * b)) as P.
  set (s := Z.sqrt (a * a + b * b)) in *.
  split; [split|split].
  - apply Z.max_lub; nia.
  - nia.
  - intros E. rewrite E in S. nia.
  - intros [-> ->]. subst s. reflexivity.
Qed.

Lemma scaled_sqrt_above n s :
  0 <= s -> s * s <= n -> s * 2 ^ 60 <= Z.sqrt (n * 2 ^ 120).
Proof.
  intros Hs H. apply Z.sqrt_le_square; lia.
Qed.

Lemma scaled_sqrt_log2 n : 1 <= n -> 0 < Z.log2 (Z.sqrt (n * 2 ^ 120)) - 52.
Proof.
  intros H. pose proof (scaled_sqrt_above n 1 ltac:(lia) ltac:(lia)) as L.
  rewrite Z.mul_1_l in L.
  assert (60 <= Z.log2 (Z.sqrt (n * 2 ^ 120))); [|lia].
  apply Z.log2_le_pow2; lia.
Qed.

Lemma sqrt_floor_positive n : 1 <= n -> 1 <= sqrt_floor n.
Proof.
  intros H. unfold sqrt_floor.
  destruct (n <=? 0) eqn:E; [apply Z.leb_le in E; lia|].
  pose proof (scaled_sqrt_above n 1 ltac:(lia) ltac:(lia)) as L.
  rewrite Z.mul_1_l in L.
  apply Z.div_le_lower_bound; [reflexivity|]. rewrite Z.mul_1_r.
  apply round_to_above.
  - lia.
  - intros _. reflexivity.
  - now apply scaled_sqrt_log2.
Qed.

Lemma representable_shift s k :
  0 < s < 2 ^ 53 -> 0 <= k -> representable (s * 2 ^ k).
Proof.
  intros [Hs Hb] Hk He.
  rewrite Z.log2_mul_pow2 in * by lia.
  assert (Z.log2 s < 53) by (apply Z.log2_lt_pow2; lia).
  assert (E : 2 ^ k = 2 ^ (52 - Z.log2 s) * 2 ^ (k + Z.log2 s - 52)).
  { rewrite <- Z.pow_add_r by lia. f_equal. lia. }
  rewrite E, Z.mul_assoc. apply Z.mod_mul.
  assert (0 < 2 ^ (k + Z.log2 s - 52)) by (apply Z.pow_pos_nonneg; lia). lia.
Qed.

Lemma sqrt_floor_small n : 0 <= n < 2 ^ 52 -> sqrt_floor n = Z.sqrt n.
Proof.
  intros [Hn Hb]. unfold sqrt_floor.
  destruct (n <=? 0) eqn:E.
  { apply Z.leb_le in E. assert (n = 0) as -> by lia. reflexivity. }
  apply Z.leb_gt in E.
  pose proof (Z.sqrt_spec n Hn) as [S1 S2].
  set (s := Z.sqrt n) in *.
  assert (Hs : 1 <= s).
  { destruct (Z_lt_le_dec s 1); auto.
    assert (0 <= s) by apply Z.sqrt_nonneg. assert (s = 0) by lia. nia. }
  assert (Hs26 : s < 2 ^ 26).
  { destruct (Z_lt_le_dec s (2 ^ 26)); auto.
    assert (2 ^ 26 * 2 ^ 26 <= s * s) by nia.
    change (2 ^ 26 * 2 ^ 26) with (2 ^ 52) in *. lia. }
  set (t := Z.sqrt (n * 2 ^ 120)).
  pose proof (scaled_sqrt_log2 n ltac:(lia)) as He. fold t in He.
  pose proof (scaled_sqrt_above n s ltac:(lia) S1) as Lo. fold t in Lo.
  assert (Ht : 0 < t) by lia.
  pose proof (Z.sqrt_spec (n * 2 ^ 120) ltac:(lia)) as [T1 T2]. fold t in T1, T2.
  (* t < (s+1) 2^60 - 2^33 *)
  assert (Up : t + 2 ^ 33 < (s + 1) * 2 ^ 60).
  { set (A := (s + 1) * 2 ^ 60 - 2 ^ 33).
    assert (HA : 0 <= A) by (unfold A; lia).
    assert (n * 2 ^ 120 < A * A).
    { unfold A. change (2 ^ 120) with (2 ^ 60 * 2 ^ 60).
      assert (n + 1 <= (s + 1) * (s + 1)) by (unfold Z.succ in S2; lia).
      nia. }
    assert (t < A); [|unfold A in *; lia].
    destruct (Z_lt_le_dec t A); auto. nia. }
  assert (He33 : Z.log2 t - 52 <= 33).
  { assert (Z.log2 t < 86); [|lia]. apply Z.log2_lt_pow2; [lia|].
    change (2 ^ 86) with (2 ^ 26 * 2 ^ 60). nia. }
  set (e := Z.log2 t - 52) in *.
  set (v := round_to e (negb (t * t =? n * 2 ^ 120)) t).
  assert (Pe : 0 < 2 ^ e) by (apply Z.pow_pos_nonneg; lia).
  assert (V1 : s * 2 ^ 60 <= v).
  { unfold v, e. apply round_to_above;
      [lia | apply representable_shift; lia | exact He]. }
  assert (V2 : v < (s + 1) * 2 ^ 60).
  { assert (v <= t + 2 ^ e).
    { pose proof (Z.div_mod t (2 ^ e) ltac:(lia)).
      pose proof (Z.mod_pos_bound t (2 ^ e) Pe).
      unfold v. destruct (round_to_cases e (negb (t * t =? n * 2 ^ 120)) t)
        as [-> | ->]; lia. }
    assert (2 ^ e <= 2 ^ 33) by (apply Z.pow_le_mono_r; lia). lia. }
  symmetry. apply Z.div_unique with (r := v - s * 2 ^ 60); lia.
Qed.

(** Between cells less than [2 ^ 25] apart nothing is rounded. *)
Lemma calculateWeight_small s e sx sy ex ey :
  x s = Some sx -> y s = Some sy -> x e = Some ex -> y e = Some ey ->
  Z.abs (sx - ex) < 2 ^ 25 -> Z.abs (sy - ey) < 2 ^ 25 ->
  calculateWeight (Some s) (Some e)
  = Returns (Z.sqrt (Z.abs (sx - ex) * Z.abs (sx - ex)
                     + Z.abs (sy - ey) * Z.abs (sy - ey))).
Proof.
  intros Hsx Hsy Hex Hey Bx By. unfold calculateWeight.
  rewrite Hsx, Hsy, Hex, Hey.
  set (a := Z.abs (sx - ex)) in *. set (b := Z.abs (sy - ey)) in *.
  assert (Pa : 0 <= a) by apply Z.abs_nonneg.
  assert (Pb : 0 <= b) by apply Z.abs_nonneg.
  assert (Sa : a * a < 2 ^ 50).
  { change (2 ^ 50) with (2 ^ 25 * 2 ^ 25). nia. }
  assert (Sb : b * b < 2 ^ 50).
  { change (2 ^ 50) with (2 ^ 25 * 2 ^ 25). nia. }
  assert (P50 : 2 ^ 50 + 2 ^ 50 < 2 ^ 52) by reflexivity.
  assert (P52 : 2 ^ 52 < 2 ^ 53) by reflexivity.
  assert (P25 : 2 ^ 25 < 2 ^ 53) by reflexivity.
  rewrite (round_double_exact (sx - ex)) by (fold a; lia).
  rewrite (round_double_exact (sy - ey)) by (fold b; lia).
  cbv zeta. fold a b.
  rewrite (round_double_exact (a * a)) by (rewrite Z.abs_eq; nia).
  rewrite (round_double_exact (b * b)) by (rewrite Z.abs_eq; nia).
  rewrite (round_double_exact (a * a + b * b)) by (rewrite Z.abs_eq; nia).
  rewrite sqrt_floor_small by nia. reflexivity.
Qed.

(** X15. Between two nodes whose integer coordinates differ by less than
    [2 ^ 25], [calculateWeight] returns the same weight whichever node
    comes first; the weight lies between the larger and the sum of the two
    coordinate differences, and is 0 only for two nodes of the same cell. *)
Theorem calculateWeight_bounds s e sx sy ex ey :
  x s = Some sx -> y s = Some sy -> x e = Some ex -> y e = Some ey ->
  Z.abs (sx - ex) < 2 ^ 25 -> Z.abs (sy - ey) < 2 ^ 25 ->
  exists w,
    calculateWeight (Some s) (Some e) = Returns w /\
    calculateWeight (Some e) (Some s) = Returns w /\
    Z.max (Z.abs (sx - ex)) (Z.abs (sy - ey)) <= w
      <= Z.abs (sx - ex) + Z.abs (sy - ey) /\
    (w = 0 <-> sx = ex /\ sy = ey).
Proof.
  intros Hsx Hsy Hex Hey Bx By.
  exists (Z.sqrt (Z.abs (sx - ex) * Z.abs (sx - ex)
                  + Z.abs (sy - ey) * Z.abs (sy - ey))).
  split; [now apply calculateWeight_small|]. split.
  - rewrite (calculateWeight_small e s ex ey sx sy) by (auto; lia).
    replace (Z.abs (ex - sx)) with (Z.abs (sx - ex)) by lia.
    replace (Z.abs (ey - sy)) with (Z.abs (sy - ey)) by lia.
    reflexivity.
  - destruct (sqrt_sum_squares (Z.abs (sx - ex)) (Z.abs (sy - ey))
                (Z.abs_nonneg _) (Z.abs_nonneg _)) as [B Z0].
    split; [exact B|]. rewrite Z0. lia.
Qed.

Lemma calculateWeight_bounds_witness :
  exists w,
    calculateWeight (Some (meta 0 0 false)) (Some (meta 3 4 true)) = Returns w /\
    calculateWeight (Some (meta 3 4 true)) (Some (meta 0 0 false)) = Returns w /\
    4 <= w <= 7.
Proof.
  destruct (calculateWeight_bounds (meta 0 0 false) (meta 3 4 true) 0 0 3 4
              eq_refl eq_refl eq_refl eq_refl eq_refl eq_refl)
    as (w & H1 & H2 & H3 & _).
  exists w. split; [exact H1|]. split; [exact H2|]. simpl in H3. lia.
Defined.

(** A weight that [calculateWeight] returns for two different cells is at
    least 1, however far apart the cells are. *)
Lemma calculateWeight_positive s e sx sy ex ey w :
  x s = Some sx -> y s = Some sy -> x e = Some ex -> y e = Some ey ->
  sx <> ex \/ sy <> ey ->
  calculateWeight (Some s) (Some e) = Returns w -> 1 <= w.
Proof.
  intros Hsx Hsy Hex Hey D. unfold calculateWeight.
  rewrite Hsx, Hsy, Hex, Hey.
  destruct (round_double (sx - ex)) as [dx| |] eqn:Ex; try discriminate.
  destruct (round_double (sy - ey)) as [dy| |] eqn:Ey; try discriminate.
  cbv zeta.
  destruct (round_double (Z.abs dx * Z.abs dx)) as [aa| |] eqn:Ea;
    try discriminate.
  destruct (round_double (Z.abs dy * Z.abs dy)) as [bb| |] eqn:Eb;
    try discriminate.
  destruct (round_double (aa + bb)) as [n| |] eqn:En; try discriminate.
  intros [= <-].
  assert (R0 : representable 0) by (apply representable_small; reflexivity).
  assert (R1 : representable 1) by (apply representable_small; reflexivity).
  assert (Pa : 0 <= aa).
  { apply (round_double_above 0 (Z.abs dx * Z.abs dx) aa); auto. nia. }
  assert (Pb : 0 <= bb).
  { apply (round_double_above 0 (Z.abs dy * Z.abs dy) bb); auto. nia. }
  assert (One : 1 <= aa \/ 1 <= bb).
  { destruct D as [D|D].
    - left. assert (dx <> 0).
      { apply (round_double_nonzero (sx - ex)); auto. lia. }
      apply (round_double_above 1 (Z.abs dx * Z.abs dx) aa); auto. nia.
    - right. assert (dy <> 0).
      { apply (round_double_nonzero (sy - ey)); auto. lia. }
      apply (round_double_above 1 (Z.abs dy * Z.abs dy) bb); auto. nia. }
  apply sqrt_floor_positive.
  apply (round_double_above 1 (aa + bb) n); auto. lia.
Qed.

(** ** The application: what the handlers keep *)

Lemma addNode_weight g k m a b :
  weight (fst (addNode k m g)) a b =
  if String.eqb a k then None else weight g a b.
Proof.
  simpl. rewrite weight_replace. destruct (String.eqb a k); reflexivity.
Qed.

Lemma deleteNode_weight_held g K a b w :
  weight (fst (deleteNode K g)) a b = Some w -> weight g a b = Some w.
Proof.
  destruct (deleteNode_spec g K) as (g' & E & Hno & _ & Hs).
  destruct (nodeExist g K) eqn:Hx.
  2:{ rewrite E. simpl. now rewrite (Hno eq_refl). }
  destruct (deleteNode_effect g K Hx) as (_ & _ & _ & Hw & HK).
  destruct (string_dec a K) as [->|Na]; [rewrite HK; discriminate|].
  destruct (string_dec b K) as [->|Nb]; [|now rewrite Hw].
  rewrite E. simpl. rewrite (Hs eq_refl a).
  destruct (Map_get (edges g) K); auto.
  destruct (String.eqb a K || existsb (String.eqb a) (Map_keys m));
    [discriminate | auto].
Qed.

Lemma query_keeps_graph g start end_ n :
  fst (findCheapestPath start end_ g) = g /\
  fst (findClosestNReady start n g) = g.
Proof.
  split.
  - unfold findCheapestPath, bind, get_graph, lift, ret.
    destruct (negb (nodeExist g start) || negb (nodeExist g end_)); auto.
    destruct (cheapest_loop _ _ _ _) as [sp| | |]; auto.
    destruct (walk_back _ _ _ _); auto.
  - unfold findClosestNReady, bind, get_graph, lift, ret.
    destruct (negb (nodeExist g start)); auto.
    destruct (closest_loop _ _ _); auto.
Qed.

Lemma sound_empty : sound (mkGraph [] []).
Proof.
  split; [|split].
  - split; [|split; [reflexivity|split]].
    + repeat split; try constructor. intros k m. discriminate.
    + intros a b. reflexivity.
    + intros a b w. discriminate.
  - intros a b w. discriminate.
  - intros k m. discriminate.
Qed.

Lemma sound_addNode g cell :
  sound g -> nodeExist g (cellKey cell) = false ->
  sound (fst (addNode (cellKey cell)
                (mkMeta (Some (fst cell)) (Some (snd cell)) (Some false)) g)).
Proof.
  intros (W & P & C) Hx. split; [|split].
  - now apply addNode_new_well_formed.
  - intros a b w. rewrite addNode_weight.
    destruct (String.eqb a (cellKey cell)); [discriminate|]. apply P.
  - intros k m. simpl. destruct (string_dec (cellKey cell) k) as [<-|N].
    + rewrite Map_get_set_same. intros [= <-]. exists cell. auto.
    + rewrite Map_get_set_other by exact N. apply C.
Qed.

Lemma sound_deleteNode g K : sound g -> sound (fst (deleteNode K g)).
Proof.
  intros (W & P & C). split; [|split].
  - now apply deleteNode_well_formed.
  - intros a b w H. apply deleteNode_weight_held in H. eapply P; eauto.
  - intros k m H. destruct (nodeExist g K) eqn:Hx.
    + destruct (deleteNode_effect g K Hx) as (_ & Hn & _).
      rewrite Hn in H. destruct (string_dec K k) as [<-|N].
      * rewrite Map_get_delete_same in H. discriminate.
      * rewrite Map_get_delete_other in H by exact N. eapply C; eauto.
    + destruct (deleteNode_spec g K) as (g' & E & Hno & _).
      rewrite E in H. simpl in H. rewrite (Hno Hx) in H. eapply C; eauto.
Qed.

Lemma sound_edge_call g c :
  sound g ->
  (forall a b w, c = CallAddEdge a b w -> 0 < w) ->
  snd (run_edge_call c g) = Returns tt /\ sound (fst (run_edge_call c g)).
Proof.
  intros (W & P & C) Hc.
  destruct (edge_call_well_formed g c W) as [R W'].
  destruct (edge_call_keys g c) as [_ Hn].
  pose proof (well_formed_total g W) as T.
  split; [exact R|]. split; [exact W'|]. split.
  - intros a b w Hw. destruct c as [s e w0|s e]; simpl in *.
    + destruct (nodeExist g s) eqn:Hs; [destruct (nodeExist g e) eqn:He|].
      * destruct (addEdge_sets_both g s e w0 Hs He (T _ Hs) (T _ He))
          as (g' & E & _ & _ & Hw').
        rewrite E in Hw. simpl in Hw. rewrite Hw' in Hw.
        destruct ((String.eqb a s && String.eqb b e)
                  || (String.eqb a e && String.eqb b s)).
        -- inversion Hw; subst. eapply Hc; eauto.
        -- eapply P; eauto.
      * rewrite addEdge_absent in Hw by auto. eapply P; eauto.
      * rewrite addEdge_absent in Hw by auto. eapply P; eauto.
    + destruct (nodeExist g s) eqn:Hs; [destruct (nodeExist g e) eqn:He|].
      * destruct (deleteEdge_removes_both g s e Hs He (T _ Hs) (T _ He))
          as (g' & E & _ & _ & Hw').
        rewrite E in Hw. simpl in Hw. rewrite Hw' in Hw.
        destruct ((String.eqb a s && String.eqb b e)
                  || (String.eqb a e && String.eqb b s)); [discriminate|].
        eapply P; eauto.
      * rewrite deleteEdge_absent in Hw by auto. eapply P; eauto.
      * rewrite deleteEdge_absent in Hw by auto. eapply P; eauto.
  - intros k m. rewrite Hn. apply C.
Qed.

Lemma sound_toggle g k node :
  sound g -> Map_get (nodes g) k = Some node ->
  sound (fst (updateNode k (toggled node) g)).
Proof.
  intros (W & P & C) Hk. split; [|split].
  - apply updateNode_well_formed; auto.
    unfold nodeExist, Map_has. now rewrite Hk.
  - exact P.
  - intros k' m. unfold updateNode, bind, get_graph, set_nodes. cbn [fst nodes].
    rewrite Hk. destruct (string_dec k k') as [<-|N].
    + rewrite Map_get_set_same. intros [= <-].
      destruct (C k node Hk) as (cell & E & Hx & Hy).
      exists cell. cbn [spread toggled x y]. rewrite Hx, Hy. auto.
    + rewrite Map_get_set_other by exact N. apply C.
Qed.

(** Two nodes of a sound graph under different keys are different cells:
    a weight between them is positive. *)
Lemma sound_weight_positive g s0 s1 :
  sound g -> s0 <> s1 ->
  match calculateWeight (Map_get (nodes g) s0) (Map_get (nodes g) s1) with
  | Returns w => 0 < w
  | Diverges => False
  | _ => True
  end.
Proof.
  intros (_ & _ & C) N.
  destruct (Map_get (nodes g) s0) as [m0|] eqn:E0; [|exact I].
  destruct (Map_get (nodes g) s1) as [m1|] eqn:E1; [|exact I].
  destruct (C _ _ E0) as ([x0 y0] & K0 & X0 & Y0).
  destruct (C _ _ E1) as ([x1 y1] & K1 & X1 & Y1).
  simpl in X0, Y0, X1, Y1.
  assert (D : x0 <> x1 \/ y0 <> y1).
  { destruct (Z.eq_dec x0 x1) as [->|]; [|now left].
    destruct (Z.eq_dec y0 y1) as [->|]; [|now right].
    congruence. }
  destruct (calculateWeight (Some m0) (Some m1)) as [w|e| |] eqn:Ew; auto.
  - pose proof (calculateWeight_positive m0 m1 x0 y0 x1 y1 w X0 Y0 X1 Y1 D Ew).
    lia.
  - revert Ew. unfold calculateWeight. cbv zeta.
    repeat match goal with
           | |- context [match ?X with _ => _ end] => destruct X
           end; discriminate.
Qed.

Lemma delete_selected_inv (ids : list string) : forall a,
  app_inv a -> app_inv (fst (delete_selected ids a)).
Proof.
  induction ids as [|ID r IH]; intros a (S & ND & St); simpl.
  - split; [exact S|]. split; [constructor | exact St].
  - destruct (Map_has (nodes (graph a)) ID).
    + unfold on_graph.
      destruct (deleteNode_spec (graph a) ID) as (g' & E & _).
      pose proof (sound_deleteNode (graph a) ID S) as S'.
      rewrite E in *. cbn [fst] in S'. apply IH.
      split; [exact S'|]. split; [|exact St].
      apply NoDup_Set_delete, ND.
    + apply IH. split; [exact S|]. split; assumption.
Qed.

Lemma updateNode_returns key metadata g :
  snd (updateNode key metadata g) = Returns tt.
Proof. reflexivity. Qed.

Lemma handleKeyUpEvent_inv key a :
  app_inv a -> app_inv (fst (handleKeyUpEvent key a)).
Proof.
  intros Inv. pose proof Inv as (S & ND & St).
  unfold handleKeyUpEvent.
  destruct (String.eqb key "X").
  { split; [apply sound_empty|]. split; [constructor | exact St]. }
  destruct (String.eqb key "Escape").
  { split; [exact S|]. split; [constructor | exact St]. }
  destruct (String.eqb key "d").
  { now apply delete_selected_inv. }
  destruct (String.eqb key "D").
  { destruct (selectedNodes a) as [|s0 [|s1 [|s2 r]]] eqn:Es; try exact Inv.
    unfold on_graph.
    destruct (sound_edge_call (graph a) (CallDeleteEdge s0 s1) S) as [R S'].
    { intros ? ? ? H. discriminate H. }
    simpl in R, S'. destruct (deleteEdge s0 s1 (graph a)) as [g' c].
    simpl in R, S'. subst c.
    split; [exact S'|]. split; [constructor | exact St]. }
  destruct (String.eqb key "e").
  { destruct (selectedNodes a) as [|s0 [|s1 [|s2 r]]] eqn:Es; try exact Inv.
    assert (N : s0 <> s1).
    { inversion ND as [|? ? NI _]; subst. intros ->. apply NI. now left. }
    pose proof (sound_weight_positive (graph a) s0 s1 S N) as Pw.
    destruct (calculateWeight _ _) as [w|e| |]; try exact Inv; try contradiction.
    unfold on_graph.
    destruct (sound_edge_call (graph a) (CallAddEdge s0 s1 w) S) as [R S'].
    { intros ? ? ? H. inversion H; subst. exact Pw. }
    simpl in R, S'. destruct (addEdge s0 s1 w (graph a)) as [g' c].
    simpl in R, S'. subst c.
    split; [exact S'|]. split; [constructor | exact St]. }
  destruct (String.eqb key "p").
  { destruct (selectedNodes a) as [|s0 [|s1 [|s2 r]]] eqn:Es; try exact Inv.
    unfold on_graph.
    destruct (query_keeps_graph (graph a) s0 s1 None) as [Q _].
    destruct (findCheapestPath s0 s1 (graph a)) as [g' [v|e| |]];
      simpl in Q; subst g'; unfold app_inv, finish; simpl; rewrite ?Es;
      (split; [exact S|]); (split; [|exact St]);
      first [exact ND | constructor]. }
  destruct (String.eqb key "c").
  { destruct (selectedNodes a) as [|s0 [|s1 r]] eqn:Es; try exact Inv.
    unfold on_graph.
    destruct (query_keeps_graph (graph a) s0 s0 (Some 3)) as [_ Q].
    destruct (findClosestNReady s0 (Some 3) (graph a)) as [g' [v|e| |]];
      simpl in Q; subst g'; unfold app_inv, finish; simpl; rewrite ?Es;
      (split; [exact S|]); (split; [|exact St]);
      first [exact ND | constructor]. }
  destruct (String.eqb key "k").
  { destruct (selectedNodes a) as [|s0 [|s1 r]] eqn:Es; try exact Inv.
    destruct (Map_get (nodes (graph a)) s0) as [node|] eqn:En; [|exact Inv].
    unfold on_graph.
    pose proof (sound_toggle (graph a) s0 node S En) as S'.
    pose proof (updateNode_returns s0 (toggled node) (graph a)) as R.
    destruct (updateNode s0 (toggled node) (graph a)) as [g' c].
    simpl in R, S'. subst c.
    split; [exact S'|]. split; [constructor | exact St]. }
  split; [exact S|]. split; [constructor | exact St].
Qed.

Lemma handleMouseClick_inv cell a :
  app_inv a -> app_inv (fst (handleMouseClick cell a)).
Proof.
  intros (S & ND & St). unfold handleMouseClick. cbn [fst].
  destruct (Map_has (nodes (graph a)) (cellKey cell)) eqn:E.
  - split; [exact S|]. split; [|exact St]. simpl. now apply Set_add_NoDup.
  - split; [|split; [constructor | exact St]].
    cbn [graph set_graph]. now apply sound_addNode.
Qed.

Lemma handleSave_inv a : app_inv a -> app_inv (handleSave a).
Proof.
  intros (S & ND & St). unfold handleSave. simpl.
  split; [exact S|]. split; [exact ND|].
  exists (graph a). split; [exact S | reflexivity].
Qed.

Lemma sound_loads_exactly g' str g0 :
  sound g' -> toJSON g' = (g', Returns str) ->
  fromJSON str g0 = (g', Returns tt, []).
Proof.
  intros ((Ok & K & _) & _) Ht.
  destruct (fromJSON_toJSON_exact g' g0 Ok K) as (str' & Ht' & Hf).
  rewrite Ht in Ht'. inversion Ht'. subst str'. exact Hf.
Qed.

Lemma handleLoad_inv a : app_inv a -> app_inv (handleLoad a).
Proof.
  intros (S & ND & St). unfold handleLoad.
  destruct (localStorage a) as [str|] eqn:E.
  - destruct St as (g' & S' & Ht).
    rewrite (sound_loads_exactly g' str (graph a) S' Ht).
    split; [exact S'|]. split; [exact ND|].
    simpl. rewrite E. exists g'. auto.
  - split; [exact S|]. split; [exact ND|]. simpl. now rewrite E.
Qed.

Lemma dispatch_inv a ev : app_inv a -> app_inv (dispatch a ev).
Proof.
  destruct ev; simpl.
  - apply handleMouseClick_inv.
  - apply handleKeyUpEvent_inv.
  - apply handleSave_inv.
  - apply handleLoad_inv.
Qed.

Lemma run_events_inv evs : forall a, app_inv a -> app_inv (run_events evs a).
Proof.
  unfold run_events. induction evs as [|ev evs IH]; intros a Inv; simpl; auto.
  apply IH. now apply dispatch_inv.
Qed.

Lemma initial_app_inv : app_inv initial_app.
Proof.
  split; [apply sound_empty|]. split; [constructor | exact I].
Qed.

(** X16. Whatever clicks, key presses, saves and loads the page receives
    after it has started with nothing stored, its graph is made of proper
    maps, holds an adjacency map for each node and for nothing else, is
    symmetric without dangling entries, has only positive weights, and each
    node is the node of a grid cell. *)
Theorem handlers_keep_graph_sound evs :
  let g := graph (run_events evs initial_app) in
  well_formed g /\ adjacency_total g /\ positive g /\ cell_nodes g.
Proof.
  destruct (run_events_inv evs initial_app initial_app_inv)
    as ((W & P & C) & _).
  cbv zeta. split; [exact W|]. split; [now apply well_formed_total|].
  split; assumption.
Qed.

(** ** Application: the stored item *)

Lemma delete_selected_storage (ids : list string) : forall a,
  localStorage (fst (delete_selected ids a)) = localStorage a.
Proof.
  induction ids as [|ID r IH]; intros a; simpl; [reflexivity|].
  destruct (Map_has (nodes (graph a)) ID); [|apply IH].
  unfold on_graph.
  destruct (deleteNode ID (graph a)) as [g' [v|e| |]]; try reflexivity.
  now rewrite IH.
Qed.

Lemma handleKeyUpEvent_storage key a :
  localStorage (fst (handleKeyUpEvent key a)) = localStorage a.
Proof.
  unfold handleKeyUpEvent.
  destruct (String.eqb key "X"); [reflexivity|].
  destruct (String.eqb key "Escape"); [reflexivity|].
  destruct (String.eqb key "d"); [apply delete_selected_storage|].
  destruct (String.eqb key "D").
  { destruct (selectedNodes a) as [|s0 [|s1 [|s2 r]]]; try reflexivity.
    unfold on_graph.
    destruct (deleteEdge s0 s1 (graph a)) as [g' [v|e| |]]; reflexivity. }
  destruct (String.eqb key "e").
  { destruct (selectedNodes a) as [|s0 [|s1 [|s2 r]]]; try reflexivity.
    destruct (calculateWeight _ _) as [w|e| |]; try reflexivity.
    unfold on_graph.
    destruct (addEdge s0 s1 w (graph a)) as [g' [v|e| |]]; reflexivity. }
  destruct (String.eqb key "p").
  { destruct (selectedNodes a) as [|s0 [|s1 [|s2 r]]]; try reflexivity.
    unfold on_graph.
    destruct (findCheapestPath s0 s1 (graph a)) as [g' [v|e| |]]; reflexivity. }
  destruct (String.eqb key "c").
  { destruct (selectedNodes a) as [|s0 [|s1 r]]; try reflexivity.
    unfold on_graph.
    destruct (findClosestNReady s0 (Some 3) (graph a)) as [g' [v|e| |]];
      reflexivity. }
  destruct (String.eqb key "k"); [|reflexivity].
  destruct (selectedNodes a) as [|s0 [|s1 r]]; try reflexivity.
  destruct (Map_get (nodes (graph a)) s0) as [node|]; reflexivity.
Qed.

Lemma dispatch_storage a ev :
  is_save ev = false -> localStorage (dispatch a ev) = localStorage a.
Proof.
  destruct ev; simpl; try discriminate; intros _.
  - unfold handleMouseClick. cbn [fst].
    destruct (Map_has (nodes (graph a)) (cellKey cell)); reflexivity.
  - apply handleKeyUpEvent_storage.
  - reflexivity.
Qed.

Lemma run_events_storage evs : forall a,
  forallb (fun ev => negb (is_save ev)) evs = true ->
  localStorage (run_events evs a) = localStorage a.
Proof.
  unfold run_events. induction evs as [|ev evs IH]; intros a H; simpl in *.
  - reflexivity.
  - apply andb_prop in H. destruct H as [H1 H2].
    rewrite (IH _ H2). apply dispatch_storage.
    now destruct (is_save ev).
Qed.


Lemma run_events_app evs1 evs2 a :
  run_events (evs1 ++ evs2) a = run_events evs2 (run_events evs1 a).
Proof. apply fold_left_app. Qed.




(** X18. With nothing stored since the page started, Load changes no
    global: [JSON.parse(null)] gives [null], whose destructuring throws
    inside the [try] of [fromJSON]. *)
Theorem load_without_save evs :
  forallb (fun ev => negb (is_save ev)) evs = true ->
  run_events (evs ++ [LoadClick]) initial_app = run_events evs initial_app.
Proof.
  intros H. rewrite run_events_app.
  pose proof (run_events_storage evs initial_app H) as E.
  destruct (run_events evs initial_app) as [g s p c st].
  simpl in E. subst st. reflexivity.
Qed.

Lemma load_without_save_witness :
  run_events ([Click (0, 0); Click (0, 0); KeyUp "k"] ++ [LoadClick])
             initial_app
  = run_events [Click (0, 0); Click (0, 0); KeyUp "k"] initial_app.
Proof.
  apply (load_without_save [Click (0, 0); Click (0, 0); KeyUp "k"]).
  reflexivity.
Defined.

(** ** Application: what [drawGrid] can do *)

Lemma draw_edges_of_outcome a node (adj : list (string * Z)) :
  Map_get (nodes (graph a)) node <> None ->
  (forall n w, In (n, w) adj -> Map_get (nodes (graph a)) n <> None) ->
  forall d,
    (exists d', draw_edges_of a node adj d = Returns d') \/
    (draw_edges_of a node adj d = Throws TypeError /\ cheapestPath a = None).
Proof.
  intros Hn. induction adj as [|[n w] r IH]; intros Hadj d; simpl; [eauto|].
  assert (Hr : forall n' w', In (n', w') r ->
                 Map_get (nodes (graph a)) n' <> None).
  { intros n' w' H. apply (Hadj n' w'). now right. }
  destruct (negb _ && negb _); [|now apply IH].
  destruct (cheapestPath a) eqn:Ec; [|now right].
  destruct (Map_get (nodes (graph a)) node); [|congruence].
  pose proof (Hadj n w (or_introl eq_refl)) as Hnw.
  destruct (Map_get (nodes (graph a)) n); [|congruence].
  now apply IH.
Qed.

Lemma draw_edges_outcome a (es : list (string * Map Z)) :
  (forall node adj, In (node, adj) es ->
     Map_get (nodes (graph a)) node <> None /\
     forall n w, In (n, w) adj -> Map_get (nodes (graph a)) n <> None) ->
  forall d,
    (exists d', draw_edges a es d = Returns d') \/
    (draw_edges a es d = Throws TypeError /\ cheapestPath a = None).
Proof.
  induction es as [|[node adj] r IH]; intros H d; simpl; [eauto|].
  destruct (H node adj (or_introl eq_refl)) as [Hn Hadj].
  destruct (draw_edges_of_outcome a node adj Hn Hadj d) as [[d' ->]|[-> E]];
    simpl; [|now right].
  apply IH. intros node' adj' Hin. apply H. now right.
Qed.

Lemma sound_entries g node adj :
  sound g -> In (node, adj) (edges g) ->
  Map_get (nodes g) node <> None /\
  forall n w, In (n, w) adj -> Map_get (nodes g) n <> None.
Proof.
  intros ((Ok & K & _ & D) & _) Hin.
  assert (Ea : Map_get (edges g) node = Some adj).
  { apply In_Map_get; auto. apply Ok. }
  split.
  - assert (H : Map_has (nodes g) node = true).
    { apply Map_has_In. rewrite <- K. apply (in_map fst) in Hin. exact Hin. }
    unfold Map_has in H. destruct (Map_get (nodes g) node); congruence.
  - intros n w Hnw.
    assert (Hw : weight g node n = Some w).
    { unfold weight. rewrite Ea. apply In_Map_get; auto.
      eapply Graph_ok_inner; eauto. }
    apply D in Hw. unfold nodeExist, Map_has in Hw.
    destruct (Map_get (nodes g) n); congruence.
Qed.

Lemma draw_selected_live a (keys : list string) :
  (forall k, In k keys -> nodeExist (graph a) k = true) ->
  draw_selected a keys = Returns tt.
Proof.
  induction keys as [|k r IH]; intros H; simpl; auto.
  pose proof (H k (or_introl eq_refl)) as Hk. unfold nodeExist, Map_has in Hk.
  destruct (Map_get (nodes (graph a)) k); [|discriminate].
  apply IH. intros k' Hk'. apply H. now right.
Qed.

Lemma draw_nodes_outcome a (ns : list (string * NodeMetadata)) :
  draw_nodes a ns = Returns tt \/
  (draw_nodes a ns = Throws TypeError /\
   (cheapestPath a = None \/ closest a = None)).
Proof.
  induction ns as [|[k m] r IH]; simpl; auto.
  destruct (negb (Set_has (selectedNodes a) k)); auto.
  destruct (cheapestPath a); [|right; auto].
  destruct (closest a); [|right; auto].
  exact IH.
Qed.

(** On the graphs the handlers build, with every selected key a node,
    [drawGrid] throws only on [includes] of an [undefined] global. *)
Lemma drawGrid_outcome a :
  sound (graph a) -> selection_live a ->
  drawGrid a = Returns tt \/
  (drawGrid a = Throws TypeError /\
   (cheapestPath a = None \/ closest a = None)).
Proof.
  intros S L. unfold drawGrid.
  destruct (draw_edges_outcome a (edges (graph a))
              (fun node adj H => sound_entries (graph a) node adj S H) [])
    as [[d' ->]|[-> E]]; simpl; [|right; auto].
  rewrite (draw_selected_live a (selectedNodes a) L). simpl.
  apply draw_nodes_outcome.
Qed.


Lemma finish_outcome a :
  sound (graph a) ->
  snd (finish a) = Returns tt \/
  (snd (finish a) = Throws TypeError /\
   (cheapestPath a = None \/ closest a = None)).
Proof.
  intros S. unfold finish. cbn [snd].
  apply (drawGrid_outcome (set_selectedNodes a [])); [exact S|].
  intros k [].
Qed.

(** ** Application: what a key press can do *)

Lemma findClosestNReady_returns g start n :
  Graph_ok g -> adjacency_total g ->
  exists r, findClosestNReady start n g = (g, Returns r) /\
            (r = None <-> nodeExist g start = false).
Proof.
  intros Ok Tot. unfold findClosestNReady, bind, get_graph, lift, ret.
  destruct (nodeExist g start) eqn:Hs; cbn [negb].
  2:{ exists None. split; [reflexivity|]. tauto. }
  destruct (closest_loop_total g Tot
              (List.length (unvisited (initial_search g start)))
              (initial_search g start)
              (sh_nodes _ _ (initial_shape g start Ok Hs)) (le_n _))
    as (s & El).
  cbv zeta. rewrite El. eexists. split; [reflexivity|].
  split; discriminate.
Qed.

Lemma delete_selected_finish (ids : list string) : forall a,
  sound (graph a) ->
  exists a1, delete_selected ids a = finish a1 /\ sound (graph a1) /\
             cheapestPath a1 = cheapestPath a /\ closest a1 = closest a.
Proof.
  induction ids as [|ID r IH]; intros a S; simpl; [eauto|].
  destruct (Map_has (nodes (graph a)) ID) eqn:Hx; [|now apply IH].
  unfold on_graph.
  destruct (deleteNode_effect (graph a) ID Hx) as (R & _).
  pose proof (sound_deleteNode (graph a) ID S) as S'.
  destruct (deleteNode ID (graph a)) as [g' c]. simpl in R, S'. subst c.
  destruct (IH (set_selectedNodes (set_graph a g')
                  (Set_delete (selectedNodes (set_graph a g')) ID)) S')
    as (a1 & E & S1 & C1 & C2).
  exists a1. auto.
Qed.

Lemma calculateWeight_throws m0 m1 e :
  calculateWeight (Some m0) (Some m1) <> Throws e.
Proof.
  unfold calculateWeight. cbv zeta.
  repeat match goal with
         | |- context [match ?X with _ => _ end] => destruct X
         end; discriminate.
Qed.

(** A key press leaves the globals as they are (it returns after an
    [alert], or it throws on a selected key that is no node, or it is
    between two cells so far apart that the weight is no finite number), or
    it goes on to [selectedNodes.clear(); drawGrid()] on a sound graph. *)
Lemma handleKeyUpEvent_shape key a :
  app_inv a ->
  handleKeyUpEvent key a = (a, Returns tt) \/
  (handleKeyUpEvent key a = (a, Throws TypeError) /\
   (key = "e" \/ key = "k") /\
   exists k, In k (selectedNodes a) /\ nodeExist (graph a) k = false) \/
  (handleKeyUpEvent key a = (a, Untyped) /\ key = "e" /\
   exists s0 s1 m0 m1,
     Map_get (nodes (graph a)) s0 = Some m0 /\
     Map_get (nodes (graph a)) s1 = Some m1 /\
     calculateWeight (Some m0) (Some m1) = Untyped) \/
  (exists a1, handleKeyUpEvent key a = finish a1 /\ sound (graph a1) /\
     (selection_live a -> cheapestPath a <> None -> cheapestPath a1 <> None) /\
     (selection_live a -> closest a <> None -> closest a1 <> None)).
Proof.
  intros (S & ND & St). pose proof S as (W & P & C).
  pose proof (well_formed_total _ W) as T.
  unfold handleKeyUpEvent.
  destruct (String.eqb key "X").
  { do 3 right. eexists. split; [reflexivity|].
    split; [apply sound_empty|]. simpl. auto. }
  destruct (String.eqb key "Escape").
  { do 3 right. eexists. split; [reflexivity|].
    split; [exact S|]. simpl. split; intros _ _; discriminate. }
  destruct (String.eqb key "d").
  { do 3 right.
    destruct (delete_selected_finish (selectedNodes a) a S)
      as (a1 & E & S1 & C1 & C2).
    exists a1. rewrite C1, C2. auto. }
  destruct (String.eqb key "D").
  { destruct (selectedNodes a) as [|s0 [|s1 [|s2 r]]] eqn:Es; auto.
    do 3 right. unfold on_graph.
    destruct (sound_edge_call (graph a) (CallDeleteEdge s0 s1) S) as [R S'].
    { intros ? ? ? H. discriminate H. }
    simpl in R, S'. destruct (deleteEdge s0 s1 (graph a)) as [g' c].
    simpl in R, S'. subst c.
    eexists. split; [reflexivity|]. split; [exact S'|]. simpl. auto. }
  destruct (String.eqb_spec key "e") as [Ke|_].
  { destruct (selectedNodes a) as [|s0 [|s1 [|s2 r]]] eqn:Es; auto.
    assert (N : s0 <> s1).
    { inversion ND as [|? ? NI _]; subst. intros ->. apply NI. now left. }
    pose proof (sound_weight_positive (graph a) s0 s1 S N) as Pw.
    destruct (Map_get (nodes (graph a)) s0) as [m0|] eqn:E0.
    2:{ right. left. split; [reflexivity|]. split; [now left|].
        exists s0. split; [now left|]. unfold nodeExist, Map_has.
        now rewrite E0. }
    destruct (Map_get (nodes (graph a)) s1) as [m1|] eqn:E1.
    2:{ right. left. split; [reflexivity|]. split; [now left|].
        exists s1. split; [right; now left|]. unfold nodeExist, Map_has.
        now rewrite E1. }
    destruct (calculateWeight (Some m0) (Some m1)) as [w|e| |] eqn:Ew.
    - do 3 right. unfold on_graph.
      destruct (sound_edge_call (graph a) (CallAddEdge s0 s1 w) S) as [R S'].
      { intros ? ? ? H. inversion H; subst. exact Pw. }
      simpl in R, S'. destruct (addEdge s0 s1 w (graph a)) as [g' c].
      simpl in R, S'. subst c.
      eexists. split; [reflexivity|]. split; [exact S'|]. simpl. auto.
    - exfalso. exact (calculateWeight_throws m0 m1 e Ew).
    - contradiction.
    - right. right. left. split; [reflexivity|]. split; [exact Ke|].
      exists s0, s1, m0, m1. auto. }
  destruct (String.eqb key "p").
  { destruct (selectedNodes a) as [|s0 [|s1 [|s2 r]]] eqn:Es; auto.
    do 3 right. unfold on_graph.
    destruct (findCheapestPath_total (graph a) s0 s1 (proj1 W) T
                (positive_nonnegative _ P)) as (r & E & Hr & _).
    rewrite E. eexists. split; [reflexivity|]. split; [exact S|].
    simpl. split; [|auto]. intros L _ Hn. rewrite Hn in Hr.
    destruct (proj1 Hr eq_refl) as [H|H];
      [rewrite (L s0) in H | rewrite (L s1) in H];
      try discriminate; rewrite Es; simpl; auto. }
  destruct (String.eqb key "c").
  { destruct (selectedNodes a) as [|s0 [|s1 r]] eqn:Es; auto.
    do 3 right. unfold on_graph.
    destruct (findClosestNReady_returns (graph a) s0 (Some 3) (proj1 W) T)
      as (r & E & Hr).
    rewrite E. eexists. split; [reflexivity|]. split; [exact S|].
    simpl. split; [auto|]. intros L _ Hn. rewrite Hn in Hr.
    pose proof (proj1 Hr eq_refl) as H. rewrite (L s0) in H;
      [discriminate | rewrite Es; now left]. }
  destruct (String.eqb_spec key "k") as [Kk|_].
  2:{ do 3 right. exists a. auto. }
  destruct (selectedNodes a) as [|s0 [|s1 r]] eqn:Es; auto.
  destruct (Map_get (nodes (graph a)) s0) as [node|] eqn:E0.
  - do 3 right. unfold on_graph.
    pose proof (sound_toggle (graph a) s0 node S E0) as S'.
    pose proof (updateNode_returns s0 (toggled node) (graph a)) as R.
    destruct (updateNode s0 (toggled node) (graph a)) as [g' c].
    simpl in R, S'. subst c.
    eexists. split; [reflexivity|]. split; [exact S'|]. simpl. auto.
  - right. left. split; [reflexivity|]. split; [now right|].
    exists s0. split; [now left|]. unfold nodeExist, Map_has. now rewrite E0.
Qed.

(** X19. In every state the page can reach, a key press returns or
    throws a [TypeError], in one of two ways: "e" or "k" reads a property
    of a selected key that is no longer a node, before any global has
    changed; or, after the globals have changed and the selection is
    cleared, [drawGrid] calls [includes] on [cheapestPath] or [closest],
    which "p" or "c" on such a key left [undefined].  The one other case is
    "e" between two cells so far apart that the weight is no finite
    number, which this model does not follow. *)
Theorem key_press_outcome evs key :
  let a := run_events evs initial_app in
  let r := handleKeyUpEvent key a in
  snd r = Returns tt \/
  (r = (a, Throws TypeError) /\ (key = "e" \/ key = "k") /\
   exists k, In k (selectedNodes a) /\ nodeExist (graph a) k = false) \/
  (snd r = Throws TypeError /\ selectedNodes (fst r) = [] /\
   (cheapestPath (fst r) = None \/ closest (fst r) = None)) \/
  (r = (a, Untyped) /\ key = "e").
Proof.
  cbv zeta.
  destruct (handleKeyUpEvent_shape key (run_events evs initial_app)
              (run_events_inv evs _ initial_app_inv))
    as [E|[(E & K & H)|[(E & K & _)|(a1 & E & S1 & _)]]]; rewrite E.
  - now left.
  - right. left. auto.
  - do 3 right. auto.
  - destruct (finish_outcome a1 S1) as [R|[R N]]; [now left|].
    right. right. left. split; [exact R|]. split; [reflexivity|]. exact N.
Qed.



Lemma handleSave_paths a :
  graph (handleSave a) = graph a /\
  selectedNodes (handleSave a) = selectedNodes a /\
  cheapestPath (handleSave a) = cheapestPath a /\
  closest (handleSave a) = closest a.
Proof. repeat split. Qed.











(** ** Application: cells and their keys *)

Lemma comma_free_uint d : comma_free (NilEmpty.string_of_uint d) = true.
Proof. induction d; simpl; auto. Qed.

Lemma comma_free_int z : comma_free (NilZero.string_of_int (Z.to_int z)) = true.
Proof.
  destruct z as [|p|p]; simpl; auto.
  - pose proof (DecimalPos.Unsigned.to_uint_nonnil p) as N.
    unfold NilZero.string_of_uint.
    destruct (Pos.to_uint p); try apply comma_free_uint. contradiction.
  - pose proof (DecimalPos.Unsigned.to_uint_nonnil p) as N.
    unfold NilZero.string_of_uint.
    destruct (Pos.to_uint p); try apply comma_free_uint. contradiction.
Qed.

Lemma split_at_comma (s1 : string) : forall s2 t1 t2 : string,
  comma_free s1 = true -> comma_free s2 = true ->
  (s1 ++ "," ++ t1 = s2 ++ "," ++ t2)%string ->
  s1 = s2 /\ t1 = t2.
Proof.
  induction s1 as [|c r IH]; intros [|c2 r2] t1 t2 F1 F2 E; simpl in *.
  - inversion E. auto.
  - inversion E; subst. discriminate F2.
  - inversion E; subst. discriminate F1.
  - inversion E; subst.
    apply andb_prop in F1. apply andb_prop in F2.
    destruct (IH r2 t1 t2) as [-> ->]; tauto.
Qed.

Lemma string_of_int_inj z1 z2 :
  NilZero.string_of_int (Z.to_int z1) = NilZero.string_of_int (Z.to_int z2) ->
  z1 = z2.
Proof.
  intros E. apply DecimalZ.to_int_inj.
  assert (G : forall z, NilZero.int_of_string
                          (NilZero.string_of_int (Z.to_int z))
                        = Some (Z.to_int z)).
  { intros z. apply NilZero.isi.
    - destruct z as [|p|p]; simpl; try discriminate.
      intros [= H]. now apply (DecimalPos.Unsigned.to_uint_nonnil p).
    - destruct z as [|p|p]; simpl; try discriminate.
      intros [= H]. now apply (DecimalPos.Unsigned.to_uint_nonnil p). }
  pose proof (G z1) as G1. rewrite E, G in G1. now inversion G1.
Qed.

(** X22. Two cells with the same key are the same cell: the template
    separates two decimal numbers, which hold no comma, with one. *)
Theorem cellKey_injective c1 c2 : cellKey c1 = cellKey c2 -> c1 = c2.
Proof.
  destruct c1 as [x1 y1], c2 as [x2 y2]. unfold cellKey. simpl. intros E.
  apply split_at_comma in E; try apply comma_free_int.
  destruct E as [Ex Ey].
  now rewrite (string_of_int_inj _ _ Ex), (string_of_int_inj _ _ Ey).
Qed.

Lemma cellKey_injective_witness : (7, -3) = (3 + 4, 2 - 5).
Proof. apply (cellKey_injective (7, -3) (3 + 4, 2 - 5)). reflexivity. Defined.

